(** * glTF scene graph and animation evaluation of homework1.cpp

    A shallow embedding of [VulkanglTFModel] (node tree, geometry
    assembly, animation decode and per-frame animation update) and the
    properties its specification states about it.

    Conventions of the embedding:
    - [float] is IEEE-754 binary32, through the Standard Library's
      [spec_float] operations instantiated at [prec = 24], [emax = 128];
    - [uint32_t] and [size_t] values are [Z] with the wrap-around written
      out ([u32], [usize]);
    - [Node*] is an address into a heap of nodes ([list Node], a node is
      allocated at the end of the heap), [nullptr] is [None];
    - undefined behaviour of the C++ program (an out-of-range
      [operator[]], a null or dangling dereference) is the outcome
      [Undefined]; recursion through pointers takes fuel and may answer
      [OutOfFuel]. *)

From Stdlib Require Import ZArith Lia.
From Stdlib Require Import Floats.SpecFloat.
From stdpp Require Import base option list strings gmap.

Local Open Scope Z_scope.
Set Warnings "-register-all".

(** ** Machine integers *)

Definition u32 (z : Z) : Z := z mod 2 ^ 32.
Definition usize (z : Z) : Z := z mod 2 ^ 64.

(** ** Outcomes of running a piece of the program *)

Inductive res (A : Type) : Type :=
| Ok (a : A)
| Undefined
| OutOfFuel.
Arguments Ok {A} a.
Arguments Undefined {A}.
Arguments OutOfFuel {A}.

#[global] Instance res_ret : MRet res := fun A a => Ok a.
#[global] Instance res_bind : MBind res := fun A B k m =>
  match m with
  | Ok a => k a
  | Undefined => Undefined
  | OutOfFuel => OutOfFuel
  end.

(** [v[i]] of a [std::vector]: out of range is undefined behaviour. *)
Definition at_ {A : Type} (l : list A) (i : Z) : res A :=
  if i <? 0 then Undefined
  else match l !! Z.to_nat i with
       | Some a => Ok a
       | None => Undefined
       end.

(** [v.resize(n)] on a [std::vector] of default-constructible elements. *)
Definition vector_resize {A : Type} (n : nat) (d : A) (l : list A) : list A :=
  take n l ++ replicate (n - length l)%nat d.

(** Monadic left fold: a [for] loop over a container whose body may fail. *)
Fixpoint foldM {A S : Type} (f : S -> A -> res S) (l : list A) (s : S) : res S :=
  match l with
  | [] => Ok s
  | a :: l' => s' ← f s a; foldM f l' s'
  end.

(** [for (size_t i = i0; ...; i++)] running [n] times unless the body
    fails; [continue] is an early [Ok] of the body. *)
Fixpoint for_range {S : Type} (n : nat) (i : Z) (body : Z -> S -> res S) (s : S)
  : res S :=
  match n with
  | O => Ok s
  | Datatypes.S n' => s' ← body i s; for_range n' (i + 1) body s'
  end.

(** ** binary32 floating point *)

Module F32.
Definition float : Type := spec_float.
Definition prec : Z := 24.
Definition emax : Z := 128.

Definition add : float -> float -> float := SFadd prec emax.
Definition sub : float -> float -> float := SFsub prec emax.
Definition mul : float -> float -> float := SFmul prec emax.
Definition div : float -> float -> float := SFdiv prec emax.
Definition sqrt : float -> float := SFsqrt prec emax.

(** C++ comparison operators; every one is false on NaN. *)
Definition lt (x y : float) : bool := SFltb x y.
Definition gt (x y : float) : bool := SFltb y x.
Definition le (x y : float) : bool := SFleb x y.
Definition ge (x y : float) : bool := SFleb y x.

(** The float [m * 2^e]. *)
Definition of_Z2 (m e : Z) : float := binary_normalize prec emax m e false.
Definition of_Z (m : Z) : float := of_Z2 m 0.

Definition zero : float := S754_zero false.
Definition one : float := of_Z 1.
Definition two : float := of_Z 2.

(** [std::numeric_limits<float>::max()], 3.40282347e+38. *)
Definition numeric_limits_max : float := S754_finite false (2 ^ 24 - 1) 104.
(** [std::numeric_limits<float>::min()]: the least positive normal
    float, 2^-126 = 1.17549435e-38. *)
Definition numeric_limits_min : float := S754_finite false (2 ^ 23) (-149).

Definition is_nan (x : float) : bool :=
  match x with S754_nan => true | _ => false end.
End F32.

Abbreviation float := F32.float.

Declare Scope f32_scope.
Delimit Scope f32_scope with f32.
Infix "+" := F32.add : f32_scope.
Infix "-" := F32.sub : f32_scope.
Infix "*" := F32.mul : f32_scope.
Infix "/" := F32.div : f32_scope.

(** ** The subset of GLM the program uses

    GLM is a header library outside the repository; the definitions below
    follow GLM 0.9.9 scalar (non-SIMD) code paths, with the order of the
    floating-point operations kept. *)

Module glm.
Local Open Scope f32_scope.

Record vec2 := mkVec2 { x2 : float; y2 : float }.
Record vec3 := mkVec3 { x3 : float; y3 : float; z3 : float }.
Record vec4 := mkVec4 { x4 : float; y4 : float; z4 : float; w4 : float }.
Record quat := mkQuat { qw : float; qx : float; qy : float; qz : float }.
(** Column-major 4x4 matrix: [col0 .. col3]. *)
Record mat4 := mkMat4 { col0 : vec4; col1 : vec4; col2 : vec4; col3 : vec4 }.

Definition vec2_s (s : float) : vec2 := mkVec2 s s.
Definition vec3_s (s : float) : vec3 := mkVec3 s s s.
Definition vec4_s (s : float) : vec4 := mkVec4 s s s s.
(** [vec4(vec3, w)] and the truncating conversions. *)
Definition vec4_of3 (v : vec3) (w : float) : vec4 := mkVec4 (x3 v) (y3 v) (z3 v) w.
Definition vec3_of4 (v : vec4) : vec3 := mkVec3 (x4 v) (y4 v) (z4 v).
Definition vec2_of3 (v : vec3) : vec2 := mkVec2 (x3 v) (y3 v).

(** [mat4(s)]: [s] on the diagonal. *)
Definition mat4_s (s : float) : mat4 :=
  mkMat4 (mkVec4 s F32.zero F32.zero F32.zero)
         (mkVec4 F32.zero s F32.zero F32.zero)
         (mkVec4 F32.zero F32.zero s F32.zero)
         (mkVec4 F32.zero F32.zero F32.zero s).

Definition quat_identity : quat := mkQuat F32.one F32.zero F32.zero F32.zero.

Definition vec4_add (a b : vec4) : vec4 :=
  mkVec4 (x4 a + x4 b) (y4 a + y4 b) (z4 a + z4 b) (w4 a + w4 b).
Definition vec4_scale (a : vec4) (s : float) : vec4 :=
  mkVec4 (x4 a * s) (y4 a * s) (z4 a * s) (w4 a * s).
Definition vec3_scale (a : vec3) (s : float) : vec3 :=
  mkVec3 (x3 a * s) (y3 a * s) (z3 a * s).

(** [operator*(mat4, mat4)]: column [j] of the result is
    [A0*Bj[0] + A1*Bj[1] + A2*Bj[2] + A3*Bj[3]], summed left to right. *)
Definition mul_col (a : mat4) (b : vec4) : vec4 :=
  vec4_add (vec4_add (vec4_add (vec4_scale (col0 a) (x4 b))
                               (vec4_scale (col1 a) (y4 b)))
                     (vec4_scale (col2 a) (z4 b)))
           (vec4_scale (col3 a) (w4 b)).
Definition mat_mul (a b : mat4) : mat4 :=
  mkMat4 (mul_col a (col0 b)) (mul_col a (col1 b))
         (mul_col a (col2 b)) (mul_col a (col3 b)).

(** [operator*(mat4, vec4)]: [(m0*v0 + m1*v1) + (m2*v2 + m3*v3)]. *)
Definition mat_mul_vec (m : mat4) (v : vec4) : vec4 :=
  vec4_add (vec4_add (vec4_scale (col0 m) (x4 v)) (vec4_scale (col1 m) (y4 v)))
           (vec4_add (vec4_scale (col2 m) (z4 v)) (vec4_scale (col3 m) (w4 v))).

(** [glm::translate(m, v)]: only the last column changes. *)
Definition translate (m : mat4) (v : vec3) : mat4 :=
  mkMat4 (col0 m) (col1 m) (col2 m)
         (vec4_add (vec4_add (vec4_add (vec4_scale (col0 m) (x3 v))
                                       (vec4_scale (col1 m) (y3 v)))
                             (vec4_scale (col2 m) (z3 v)))
                   (col3 m)).

(** [glm::scale(m, v)]. *)
Definition scale (m : mat4) (v : vec3) : mat4 :=
  mkMat4 (vec4_scale (col0 m) (x3 v)) (vec4_scale (col1 m) (y3 v))
         (vec4_scale (col2 m) (z3 v)) (col3 m).

(** [glm::mat4(q)], that is [mat4_cast(q)]. *)
Definition mat4_cast (q : quat) : mat4 :=
  let qxx := qx q * qx q in
  let qyy := qy q * qy q in
  let qzz := qz q * qz q in
  let qxz := qx q * qz q in
  let qxy := qx q * qy q in
  let qyz := qy q * qz q in
  let qwx := qw q * qx q in
  let qwy := qw q * qy q in
  let qwz := qw q * qz q in
  mkMat4
    (mkVec4 (F32.one - F32.two * (qyy + qzz)) (F32.two * (qxy + qwz))
            (F32.two * (qxz - qwy)) F32.zero)
    (mkVec4 (F32.two * (qxy - qwz)) (F32.one - F32.two * (qxx + qzz))
            (F32.two * (qyz + qwx)) F32.zero)
    (mkVec4 (F32.two * (qxz + qwy)) (F32.two * (qyz - qwx))
            (F32.one - F32.two * (qxx + qyy)) F32.zero)
    (mkVec4 F32.zero F32.zero F32.zero F32.one).

Definition dot3 (a b : vec3) : float :=
  x3 a * x3 b + y3 a * y3 b + z3 a * z3 b.
Definition inversesqrt (x : float) : float := F32.one / F32.sqrt x.
(** [glm::normalize(vec3)]: [v * inversesqrt(dot(v, v))], no test for a
    zero length. *)
Definition normalize3 (v : vec3) : vec3 := vec3_scale v (inversesqrt (dot3 v v)).

Definition dotq (a b : quat) : float :=
  (qw a * qw b + qx a * qx b) + (qy a * qy b + qz a * qz b).
(** [glm::normalize(quat)]: a length [<= 0] gives the identity. *)
Definition normalizeq (q : quat) : quat :=
  let len := F32.sqrt (dotq q q) in
  if F32.le len F32.zero then quat_identity
  else let oneOverLen := F32.one / len in
       mkQuat (qw q * oneOverLen) (qx q * oneOverLen)
              (qy q * oneOverLen) (qz q * oneOverLen).

(** [glm::mix(x, y, a)] on [vec4] with a scalar factor:
    [x * (1 - a) + y * a]. *)
Definition mix (x y : vec4) (a : float) : vec4 :=
  vec4_add (vec4_scale x (F32.one - a)) (vec4_scale y a).
End glm.

(** ** Data model of [VulkanglTFModel] *)

Import glm.

(** A [Node*] that is known not to be null. *)
Definition ptr : Type := nat.
Bind Scope nat_scope with ptr.

Record Primitive := mkPrimitive {
  firstIndex : Z;
  indexCount : Z;
  materialIndex : Z
}.

(** [mapped] is the persistently mapped uniform buffer of the mesh:
    [None] while it is not mapped, else the matrix last copied into it. *)
Record Mesh := mkMesh {
  primitives : list Primitive;
  mapped : option mat4
}.

Record Node := mkNode {
  parent : option ptr;
  children : list ptr;
  mesh : Mesh;
  matrix : mat4;
  index : Z;
  translation : vec3;
  scale : vec3;
  rotation : quat
}.

Record AnimationSampler := mkSampler {
  interpolation : string;
  inputs : list float;
  outputsVec4 : list vec4
}.

Record AnimationChannel := mkChannel {
  path : string;
  node : option ptr;
  samplerIndex : Z
}.

Record Animation := mkAnimation {
  name : string;
  samplers : list AnimationSampler;
  channels : list AnimationChannel;
  start : float;
  end_ : float;
  currentTime : float
}.

(** What the program writes to [std::cout] and [std::cerr]. *)
Inductive Message :=
| IndexComponentTypeNotSupported (componentType : Z)
| UnknownType
| NoAnimationWithIndex (activeAnimation : Z)
| OnlyLinearInterpolations.

Record VulkanglTFModel := mkModel {
  heap : list Node;
  nodes : list ptr;
  animations : list Animation;
  linearMeshNodes : list ptr;
  activeAnimation : Z;
  console : list Message
}.

(** Value-initialised members, as [new Node{}] and [std::vector::resize]
    produce them. [glm::quat rotation{}] is value-initialised to all
    zeros (GLM without [GLM_FORCE_CTOR_INIT]). *)
Definition Node_default : Node :=
  {| parent := None; children := []; mesh := mkMesh [] None;
     matrix := mat4_s F32.zero; index := 0;
     translation := vec3_s F32.zero; scale := vec3_s F32.one;
     rotation := mkQuat F32.zero F32.zero F32.zero F32.zero |}.

Definition AnimationSampler_default : AnimationSampler :=
  {| interpolation := ""; inputs := []; outputsVec4 := [] |}.

Definition AnimationChannel_default : AnimationChannel :=
  {| path := ""; node := None; samplerIndex := 0 |}.

Definition Animation_default : Animation :=
  {| name := ""; samplers := []; channels := [];
     start := F32.numeric_limits_max; end_ := F32.numeric_limits_min;
     currentTime := F32.zero |}.

Definition deref (h : list Node) (p : ptr) : res Node :=
  match h !! p with
  | Some n => Ok n
  | None => Undefined
  end.

(** Field updates. *)

Definition say (msg : Message) (m : VulkanglTFModel) : VulkanglTFModel :=
  {| heap := heap m; nodes := nodes m; animations := animations m;
     linearMeshNodes := linearMeshNodes m; activeAnimation := activeAnimation m;
     console := console m ++ [msg] |}.

Definition set_animations (l : list Animation) (m : VulkanglTFModel)
  : VulkanglTFModel :=
  {| heap := heap m; nodes := nodes m; animations := l;
     linearMeshNodes := linearMeshNodes m; activeAnimation := activeAnimation m;
     console := console m |}.

Definition set_heap (h : list Node) (m : VulkanglTFModel) : VulkanglTFModel :=
  {| heap := h; nodes := nodes m; animations := animations m;
     linearMeshNodes := linearMeshNodes m; activeAnimation := activeAnimation m;
     console := console m |}.

Definition set_translation (v : vec3) (n : Node) : Node :=
  {| parent := parent n; children := children n; mesh := mesh n;
     matrix := matrix n; index := index n;
     translation := v; scale := scale n; rotation := rotation n |}.

Definition set_scale (v : vec3) (n : Node) : Node :=
  {| parent := parent n; children := children n; mesh := mesh n;
     matrix := matrix n; index := index n;
     translation := translation n; scale := v; rotation := rotation n |}.

Definition set_rotation (q : quat) (n : Node) : Node :=
  {| parent := parent n; children := children n; mesh := mesh n;
     matrix := matrix n; index := index n;
     translation := translation n; scale := scale n; rotation := q |}.

Definition set_mapped (mp : option mat4) (n : Node) : Node :=
  {| parent := parent n; children := children n;
     mesh := mkMesh (primitives (mesh n)) mp;
     matrix := matrix n; index := index n;
     translation := translation n; scale := scale n; rotation := rotation n |}.

(** [channel.node->field = v]: a write through a [Node*]. *)
Definition write (np : option ptr) (f : Node -> Node) (h : list Node)
  : res (list Node) :=
  match np with
  | None => Undefined
  | Some p => n ← deref h p; Ok (<[p := f n]> h)
  end.

(** ** Transforms *)

(** [Node::getLocalMatrix]. *)
Definition getLocalMatrix (n : Node) : mat4 :=
  mat_mul (mat_mul (mat_mul (translate (mat4_s F32.one) (translation n))
                            (mat4_cast (rotation n)))
                   (glm.scale (mat4_s F32.one) (scale n)))
          (matrix n).

(** The [while (currentParent)] loop of [getNodeMatrix]. *)
Fixpoint getNodeMatrix_loop (fuel : nat) (h : list Node)
    (currentParent : option ptr) (nodeMatrix : mat4) : res mat4 :=
  match currentParent with
  | None => Ok nodeMatrix
  | Some p =>
      match fuel with
      | O => OutOfFuel
      | S fuel' =>
          cp ← deref h p;
          getNodeMatrix_loop fuel' h (parent cp)
            (mat_mul (getLocalMatrix cp) nodeMatrix)
      end
  end.

(** [VulkanglTFModel::getNodeMatrix]. *)
Definition getNodeMatrix (fuel : nat) (h : list Node) (node : ptr) : res mat4 :=
  n ← deref h node;
  getNodeMatrix_loop fuel h (parent n) (getLocalMatrix n).

(** ** Node lookup *)

(** [VulkanglTFModel::findNode]; the inner [fix] is the loop over
    [parent->children] with its [break]. *)
Fixpoint findNode (fuel : nat) (h : list Node) (parent : ptr) (index_ : Z)
  : res (option ptr) :=
  match fuel with
  | O => OutOfFuel
  | S fuel' =>
      n ← deref h parent;
      if index n =? index_ then Ok (Some parent)
      else
        (fix loop (cs : list ptr) : res (option ptr) :=
           match cs with
           | [] => Ok None
           | child :: cs' =>
               nodeFound ← findNode fuel' h child index_;
               match nodeFound with
               | Some _ => Ok nodeFound
               | None => loop cs'
               end
           end) (children n)
  end.

(** [VulkanglTFModel::nodeFromIndex]. *)
Fixpoint nodeFromIndex_loop (fuel : nat) (h : list Node) (roots : list ptr)
    (index_ : Z) : res (option ptr) :=
  match roots with
  | [] => Ok None
  | node :: roots' =>
      nodeFound ← findNode fuel h node index_;
      match nodeFound with
      | Some _ => Ok nodeFound
      | None => nodeFromIndex_loop fuel h roots' index_
      end
  end.

Definition nodeFromIndex (fuel : nat) (m : VulkanglTFModel) (index_ : Z)
  : res (option ptr) :=
  nodeFromIndex_loop fuel (heap m) (nodes m) index_.

(** ** The decoded asset ([tinygltf::Model])

    The asset parser is outside the repository. An accessor stands for
    the memory the program reads through it (buffer, buffer view and byte
    offsets resolved): [floats] is that memory read as a [float] array,
    [uints] as an array of unsigned integers of the accessor's component
    width. Node transforms are given after their conversion from [double]
    to [float]. *)

Module tinygltf.
Definition PARAMETER_TYPE_UNSIGNED_BYTE : Z := 5121.
Definition PARAMETER_TYPE_UNSIGNED_SHORT : Z := 5123.
Definition PARAMETER_TYPE_UNSIGNED_INT : Z := 5125.
Definition TYPE_VEC3 : Z := 3.
Definition TYPE_VEC4 : Z := 4.

Record Accessor := mkAccessor {
  count : Z;
  componentType : Z;
  type : Z;
  floats : list float;
  uints : list Z
}.

Record Primitive := mkPrimitive {
  attributes : gmap string Z;
  indices : Z;
  material : Z
}.

Record Mesh := mkMesh { primitives : list Primitive }.

Record Node := mkNode {
  translation : list float;
  rotation : list float;
  scale : list float;
  matrix : list float;
  children : list Z;
  mesh : Z
}.

Record AnimationSampler := mkAnimationSampler {
  input : Z;
  output : Z;
  interpolation : string
}.

Record AnimationChannel := mkAnimationChannel {
  sampler : Z;
  target_node : Z;
  target_path : string
}.

Record Animation := mkAnimation {
  name : string;
  channels : list AnimationChannel;
  samplers : list AnimationSampler
}.

Record Scene := mkScene { scene_nodes : list Z }.

Record Model := mkModel {
  accessors : list Accessor;
  animations : list Animation;
  meshes : list Mesh;
  nodes : list Node;
  scenes : list Scene
}.
End tinygltf.

(** [glm::make_vec2/3/4(&buf[o])]: consecutive floats starting at [o]. *)
Definition make_vec2 (buf : list float) (o : Z) : res vec2 :=
  a ← at_ buf o; b ← at_ buf (o + 1); Ok (mkVec2 a b).
Definition make_vec3 (buf : list float) (o : Z) : res vec3 :=
  a ← at_ buf o; b ← at_ buf (o + 1); c ← at_ buf (o + 2); Ok (mkVec3 a b c).
Definition make_vec4 (buf : list float) (o : Z) : res vec4 :=
  a ← at_ buf o; b ← at_ buf (o + 1); c ← at_ buf (o + 2); d ← at_ buf (o + 3);
  Ok (mkVec4 a b c d).
(** [glm::make_quat]: the memory order of a quaternion is x, y, z, w. *)
Definition make_quat (buf : list float) : res quat :=
  v ← make_vec4 buf 0; Ok (mkQuat (w4 v) (x4 v) (y4 v) (z4 v)).
Definition make_mat4x4 (buf : list float) : res mat4 :=
  c0 ← make_vec4 buf 0; c1 ← make_vec4 buf 4;
  c2 ← make_vec4 buf 8; c3 ← make_vec4 buf 12;
  Ok (mkMat4 c0 c1 c2 c3).

(** ** Geometry assembly and node loading *)

Record Vertex := mkVertex {
  pos : vec3;
  normal : vec3;
  uv : vec2;
  color : vec3
}.

(** The model under construction with the two buffers that
    [loadglTFFile] owns and passes by reference. *)
Record LoadState := mkLoadState {
  model : VulkanglTFModel;
  indexBuffer : list Z;
  vertexBuffer : list Vertex
}.

(** How a loop body ends: by falling through, or by the [return] of
    [loadNode]'s [default:] branch. *)
Inductive flow (A : Type) : Type :=
| Continue (a : A)
| Return (a : A).
Arguments Continue {A} a.
Arguments Return {A} a.

Definition set_model (m : VulkanglTFModel) (st : LoadState) : LoadState :=
  {| model := m; indexBuffer := indexBuffer st; vertexBuffer := vertexBuffer st |}.

Definition set_parent_index (parent_ : option ptr) (index_ : Z) (m4 : mat4)
    (n : Node) : Node :=
  {| parent := parent_; children := children n; mesh := mesh n;
     matrix := m4; index := index_;
     translation := translation n; scale := scale n; rotation := rotation n |}.

Definition set_matrix (m4 : mat4) (n : Node) : Node :=
  {| parent := parent n; children := children n; mesh := mesh n;
     matrix := m4; index := index n;
     translation := translation n; scale := scale n; rotation := rotation n |}.

Definition push_child (c : ptr) (n : Node) : Node :=
  {| parent := parent n; children := children n ++ [c]; mesh := mesh n;
     matrix := matrix n; index := index n;
     translation := translation n; scale := scale n; rotation := rotation n |}.

Definition push_primitive (pr : Primitive) (n : Node) : Node :=
  {| parent := parent n; children := children n;
     mesh := mkMesh (primitives (mesh n) ++ [pr]) (mapped (mesh n));
     matrix := matrix n; index := index n;
     translation := translation n; scale := scale n; rotation := rotation n |}.

(** The accessor behind a vertex attribute, when the primitive has it. *)
Definition attribute (input : tinygltf.Model) (glTFPrimitive : tinygltf.Primitive)
    (semantic : string) : res (option tinygltf.Accessor) :=
  match tinygltf.attributes glTFPrimitive !! semantic with
  | Some a => accessor ← at_ (tinygltf.accessors input) a; Ok (Some accessor)
  | None => Ok None
  end.

(** Bit width of the index component types the [switch] accepts. *)
Definition index_width (componentType : Z) : option Z :=
  if componentType =? tinygltf.PARAMETER_TYPE_UNSIGNED_INT then Some 32
  else if componentType =? tinygltf.PARAMETER_TYPE_UNSIGNED_SHORT then Some 16
  else if componentType =? tinygltf.PARAMETER_TYPE_UNSIGNED_BYTE then Some 8
  else None.

(** The "Append data to model's vertex buffer" loop. *)
Definition appendVertices (positionBuffer normalsBuffer texCoordsBuffer
    : option (list float)) (vertexCount : Z) (vb : list Vertex)
  : res (list Vertex) :=
  for_range (Z.to_nat (usize vertexCount)) 0
    (fun v vb =>
       p ← match positionBuffer with
           | Some b => make_vec3 b (v * 3)
           | None => Undefined
           end;
       n ← match normalsBuffer with
           | Some b => make_vec3 b (v * 3)
           | None => Ok (vec3_s F32.zero)
           end;
       t ← match texCoordsBuffer with
           | Some b => make_vec2 b (v * 2)
           | None => Ok (vec2_of3 (vec3_s F32.zero))
           end;
       Ok (vb ++ [ {| pos := p; normal := normalize3 n; uv := t;
                      color := vec3_s F32.one |} ]))
    vb.

(** The index loop of one [case]: elements of [w] bits are widened and
    offset by [vertexStart] in 32-bit unsigned arithmetic. *)
Definition appendIndices (w : Z) (accessor : tinygltf.Accessor) (vertexStart : Z)
    (ib : list Z) : res (list Z) :=
  for_range (Z.to_nat (usize (tinygltf.count accessor))) 0
    (fun index ib =>
       x ← at_ (tinygltf.uints accessor) index;
       Ok (ib ++ [u32 (x mod 2 ^ w + vertexStart)]))
    ib.

(** The body of the primitive loop of [loadNode], for the node at
    address [node]. *)
Definition loadPrimitive (input : tinygltf.Model) (node : ptr)
    (glTFPrimitive : tinygltf.Primitive) (st : LoadState)
  : res (flow LoadState) :=
  let firstIndex := u32 (Z.of_nat (length (indexBuffer st))) in
  let vertexStart := u32 (Z.of_nat (length (vertexBuffer st))) in
  let indexCount := 0 in
  (* Vertices *)
  position ← attribute input glTFPrimitive "POSITION";
  let positionBuffer := tinygltf.floats <$> position in
  let vertexCount := from_option tinygltf.count 0 position in
  normals ← attribute input glTFPrimitive "NORMAL";
  let normalsBuffer := tinygltf.floats <$> normals in
  texCoords ← attribute input glTFPrimitive "TEXCOORD_0";
  let texCoordsBuffer := tinygltf.floats <$> texCoords in
  vb ← appendVertices positionBuffer normalsBuffer texCoordsBuffer vertexCount
         (vertexBuffer st);
  (* Indices *)
  accessor ← at_ (tinygltf.accessors input) (tinygltf.indices glTFPrimitive);
  let indexCount := u32 (indexCount + u32 (tinygltf.count accessor)) in
  match index_width (tinygltf.componentType accessor) with
  | Some w =>
      ib ← appendIndices w accessor vertexStart (indexBuffer st);
      let primitive := {| firstIndex := firstIndex; indexCount := indexCount;
                          materialIndex := tinygltf.material glTFPrimitive |} in
      h ← write (Some node) (push_primitive primitive) (heap (model st));
      Ok (Continue {| model := set_heap h (model st);
                      indexBuffer := ib; vertexBuffer := vb |})
  | None =>
      Ok (Return {| model := say (IndexComponentTypeNotSupported
                                    (tinygltf.componentType accessor)) (model st);
                    indexBuffer := indexBuffer st; vertexBuffer := vb |})
  end.

(** The primitive loop: a [Return] of one body ends it. *)
Fixpoint loadPrimitives (input : tinygltf.Model) (node : ptr)
    (l : list tinygltf.Primitive) (st : LoadState) : res (flow LoadState) :=
  match l with
  | [] => Ok (Continue st)
  | glTFPrimitive :: l' =>
      r ← loadPrimitive input node glTFPrimitive st;
      match r with
      | Continue st' => loadPrimitives input node l' st'
      | Return st' => Ok (Return st')
      end
  end.

(** The new node of [loadNode] with its local transform decoded. *)
Definition newNode (inputNode : tinygltf.Node) (parent_ : option ptr)
    (nodeIndex : Z) : res Node :=
  let node := set_parent_index parent_ nodeIndex (mat4_s F32.one) Node_default in
  node ← (if (length (tinygltf.translation inputNode) =? 3)%nat
          then v ← make_vec3 (tinygltf.translation inputNode) 0;
               Ok (set_translation v node)
          else Ok node);
  node ← (if (length (tinygltf.rotation inputNode) =? 4)%nat
          then q ← make_quat (tinygltf.rotation inputNode);
               Ok (set_rotation q node)
          else Ok node);
  node ← (if (length (tinygltf.scale inputNode) =? 3)%nat
          then v ← make_vec3 (tinygltf.scale inputNode) 0;
               Ok (set_scale v node)
          else Ok node);
  if (length (tinygltf.matrix inputNode) =? 16)%nat
  then m4 ← make_mat4x4 (tinygltf.matrix inputNode); Ok (set_matrix m4 node)
  else Ok node.

(** The end of [loadNode]: the node joins its parent's children or the
    root list, and the list of mesh nodes when it has a primitive. *)
Definition attachNode (parent_ : option ptr) (node : ptr) (m : VulkanglTFModel)
  : res VulkanglTFModel :=
  m ← match parent_ with
      | Some p => h ← write (Some p) (push_child node) (heap m); Ok (set_heap h m)
      | None =>
          Ok {| heap := heap m; nodes := nodes m ++ [node];
                animations := animations m;
                linearMeshNodes := linearMeshNodes m;
                activeAnimation := activeAnimation m; console := console m |}
      end;
  n ← deref (heap m) node;
  match primitives (mesh n) with
  | [] => Ok m
  | _ :: _ =>
      Ok {| heap := heap m; nodes := nodes m; animations := animations m;
            linearMeshNodes := linearMeshNodes m ++ [node];
            activeAnimation := activeAnimation m; console := console m |}
  end.

(** The mesh part of [loadNode]: the primitive loop when the record
    references a mesh. *)
Definition loadMesh (input : tinygltf.Model) (inputNode : tinygltf.Node)
    (node : ptr) (st : LoadState) : res (flow LoadState) :=
  if tinygltf.mesh inputNode >? -1 then
    mesh ← at_ (tinygltf.meshes input) (tinygltf.mesh inputNode);
    loadPrimitives input node (tinygltf.primitives mesh) st
  else Ok (Continue st).

(** [new Node{}] with the fields [loadNode] sets before recursing. *)
Definition allocNode (n : Node) (st : LoadState) : LoadState :=
  set_model (set_heap (heap (model st) ++ [n]) (model st)) st.

(** [VulkanglTFModel::loadNode]. *)
Fixpoint loadNode (fuel : nat) (input : tinygltf.Model)
    (inputNode : tinygltf.Node) (parent_ : option ptr) (nodeIndex : Z)
    (st : LoadState) : res LoadState :=
  match fuel with
  | O => OutOfFuel
  | S fuel' =>
      n ← newNode inputNode parent_ nodeIndex;
      let node := length (heap (model st)) in
      let st := allocNode n st in
      (* Load node's children *)
      st ← foldM (fun st child =>
                    childNode ← at_ (tinygltf.nodes input) child;
                    loadNode fuel' input childNode (Some node) (u32 child) st)
                 (tinygltf.children inputNode) st;
      (* The node's mesh *)
      r ← loadMesh input inputNode node st;
      match r with
      | Return st => Ok st
      | Continue st =>
          m ← attachNode parent_ node (model st);
          Ok (set_model m st)
      end
  end.

(** The children loop of [loadNode], for the node at address [node]. *)
Definition loadChildren (fuel : nat) (input : tinygltf.Model)
    (inputNode : tinygltf.Node) (node : ptr) (st : LoadState) : res LoadState :=
  foldM (fun st child =>
           childNode ← at_ (tinygltf.nodes input) child;
           loadNode fuel input childNode (Some node) (u32 child) st)
        (tinygltf.children inputNode) st.

(** ** Animation decode *)

(** The loop "Adjust animation's start and end times" of
    [loadAnimations], over the inputs of one sampler. *)
Definition adjust_start_end (a : Animation) (input : float) : Animation :=
  let a1 :=
    if F32.lt input (start a)
    then {| name := name a; samplers := samplers a; channels := channels a;
            start := input; end_ := end_ a; currentTime := currentTime a |}
    else a in
  if F32.gt input (end_ a1)
  then {| name := name a1; samplers := samplers a1; channels := channels a1;
          start := start a1; end_ := input; currentTime := currentTime a1 |}
  else a1.

Definition set_samplers (l : list AnimationSampler) (a : Animation) : Animation :=
  {| name := name a; samplers := l; channels := channels a;
     start := start a; end_ := end_ a; currentTime := currentTime a |}.

Definition set_channels (l : list AnimationChannel) (a : Animation) : Animation :=
  {| name := name a; samplers := samplers a; channels := l;
     start := start a; end_ := end_ a; currentTime := currentTime a |}.

(** The body of the sampler loop of [loadAnimations] for sampler [j] of
    animation [a]; the second component collects console output. *)
Definition loadSampler (input : tinygltf.Model) (g : tinygltf.Animation)
    (j : Z) (st : Animation * list Message) : res (Animation * list Message) :=
  let '(a, out) := st in
  glTFSampler ← at_ (tinygltf.samplers g) j;
  dstSampler ← at_ (samplers a) j;
  let interp := tinygltf.interpolation glTFSampler in
  (* Read sampler keyframe input time values *)
  accessor ← at_ (tinygltf.accessors input) (tinygltf.input glTFSampler);
  ins ← for_range (Z.to_nat (usize (tinygltf.count accessor))) 0
         (fun index ins =>
            v ← at_ (tinygltf.floats accessor) index; Ok (ins ++ [v]))
         (inputs dstSampler);
  let a := fold_left adjust_start_end ins a in
  (* Read sampler keyframe output translate/rotate/scale values *)
  accessor ← at_ (tinygltf.accessors input) (tinygltf.output glTFSampler);
  '(outs, out) ←
    (if tinygltf.type accessor =? tinygltf.TYPE_VEC3 then
       outs ← for_range (Z.to_nat (usize (tinygltf.count accessor))) 0
                (fun index outs =>
                   v ← make_vec3 (tinygltf.floats accessor) (3 * index);
                   Ok (outs ++ [vec4_of3 v F32.zero]))
                (outputsVec4 dstSampler);
       Ok (outs, out)
     else if tinygltf.type accessor =? tinygltf.TYPE_VEC4 then
       outs ← for_range (Z.to_nat (usize (tinygltf.count accessor))) 0
                (fun index outs =>
                   v ← make_vec4 (tinygltf.floats accessor) (4 * index);
                   Ok (outs ++ [v]))
                (outputsVec4 dstSampler);
       Ok (outs, out)
     else Ok (outputsVec4 dstSampler, out ++ [UnknownType]));
  let dst := {| interpolation := interp; inputs := ins; outputsVec4 := outs |} in
  Ok (set_samplers (<[Z.to_nat j := dst]> (samplers a)) a, out).

(** The body of the channel loop of [loadAnimations]. *)
Definition loadChannel (fuel : nat) (m : VulkanglTFModel)
    (g : tinygltf.Animation) (j : Z) (a : Animation) : res Animation :=
  glTFChannel ← at_ (tinygltf.channels g) j;
  _ ← at_ (channels a) j;
  found ← nodeFromIndex fuel m (u32 (tinygltf.target_node glTFChannel));
  let dst := {| path := tinygltf.target_path glTFChannel;
                node := found;
                samplerIndex := u32 (tinygltf.sampler glTFChannel) |} in
  Ok (set_channels (<[Z.to_nat j := dst]> (channels a)) a).

(** The body of the outer loop of [loadAnimations] for animation [i]. *)
Definition loadAnimation (fuel : nat) (input : tinygltf.Model) (i : Z)
    (m : VulkanglTFModel) : res VulkanglTFModel :=
  glTFAnimation ← at_ (tinygltf.animations input) i;
  a ← at_ (animations m) i;
  let a := {| name := tinygltf.name glTFAnimation; samplers := samplers a;
              channels := channels a; start := start a; end_ := end_ a;
              currentTime := currentTime a |} in
  let nsamplers := length (tinygltf.samplers glTFAnimation) in
  let a := set_samplers
             (vector_resize nsamplers AnimationSampler_default (samplers a)) a in
  '(a, out) ← for_range nsamplers 0 (loadSampler input glTFAnimation) (a, []);
  let nchannels := length (tinygltf.channels glTFAnimation) in
  let a := set_channels
             (vector_resize nchannels AnimationChannel_default (channels a)) a in
  a ← for_range nchannels 0 (loadChannel fuel m glTFAnimation) a;
  Ok {| heap := heap m; nodes := nodes m;
        animations := <[Z.to_nat i := a]> (animations m);
        linearMeshNodes := linearMeshNodes m;
        activeAnimation := activeAnimation m;
        console := console m ++ out |}.

(** [VulkanglTFModel::loadAnimations]. *)
Definition loadAnimations (fuel : nat) (input : tinygltf.Model)
    (m : VulkanglTFModel) : res VulkanglTFModel :=
  let n := length (tinygltf.animations input) in
  for_range n 0 (loadAnimation fuel input)
    (set_animations (vector_resize n Animation_default (animations m)) m).

(** ** Loading a file *)

(** A model before loading: [activeAnimation = 0], everything empty. *)
Definition empty_model : VulkanglTFModel :=
  {| heap := []; nodes := []; animations := []; linearMeshNodes := [];
     activeAnimation := 0; console := [] |}.

(** The buffers and the model before the first node is loaded. *)
Definition initial_state : LoadState :=
  {| model := empty_model; indexBuffer := []; vertexBuffer := [] |}.

(** The loading part of [loadglTFFile] once the file has been parsed:
    the root nodes of scene 0, then the animations. *)
Definition loadglTFFile (fuel : nat) (glTFInput : tinygltf.Model) : res LoadState :=
  scene ← at_ (tinygltf.scenes glTFInput) 0;
  st ← foldM (fun st i =>
                node ← at_ (tinygltf.nodes glTFInput) i;
                loadNode fuel glTFInput node None (u32 i) st)
             (tinygltf.scene_nodes scene) initial_state;
  m ← loadAnimations fuel glTFInput (model st);
  Ok (set_model m st).

(** ** Animation update *)

Definition set_currentTime (t : float) (a : Animation) : Animation :=
  {| name := name a; samplers := samplers a; channels := channels a;
     start := start a; end_ := end_ a; currentTime := t |}.

(** [updateMeshUniformBuffers]: the world matrix of every mesh node with a
    mapped uniform buffer is copied into that buffer. *)
Definition updateMeshUniformBuffers (fuel : nat) (h : list Node)
    (meshNodes : list ptr) : res (list Node) :=
  foldM (fun h meshNode =>
           n ← deref h meshNode;
           match primitives (mesh n), mapped (mesh n) with
           | _ :: _, Some _ =>
               nodeMatrix ← getNodeMatrix fuel h meshNode;
               Ok (<[meshNode := set_mapped (Some nodeMatrix) n]> h)
           | _, _ => Ok h
           end)
        meshNodes h.

Section Animation.
(** [std::acos] and [std::sin] on [float]: the C library's, which IEEE
    754 does not fix; they only enter through [glm::slerp]. *)
Variables acos sin : float -> float.

Local Open Scope f32_scope.

Definition mix1 (x y a : float) : float := x * (F32.one - a) + y * a.
Definition quat_neg (q : quat) : quat :=
  mkQuat (SFopp (qw q)) (SFopp (qx q)) (SFopp (qy q)) (SFopp (qz q)).
Definition quat_scale (q : quat) (s : float) : quat :=
  mkQuat (qw q * s) (qx q * s) (qy q * s) (qz q * s).
Definition quat_div (q : quat) (s : float) : quat :=
  mkQuat (qw q / s) (qx q / s) (qy q / s) (qz q / s).
Definition quat_add (p q : quat) : quat :=
  mkQuat (qw p + qw q) (qx p + qx q) (qy p + qy q) (qz p + qz q).
Definition epsilon : float := F32.of_Z2 1 (-23).

(** [glm::slerp(x, y, a)]. *)
Definition slerp (x y : quat) (a : float) : quat :=
  let cosTheta := dotq x y in
  let '(z, cosTheta) :=
    if F32.lt cosTheta F32.zero then (quat_neg y, SFopp cosTheta)
    else (y, cosTheta) in
  if F32.gt cosTheta (F32.one - epsilon) then
    mkQuat (mix1 (qw x) (qw z) a) (mix1 (qx x) (qx z) a)
           (mix1 (qy x) (qy z) a) (mix1 (qz x) (qz z) a)
  else
    let angle := acos cosTheta in
    quat_div (quat_add (quat_scale x (sin ((F32.one - a) * angle)))
                       (quat_scale z (sin (a * angle))))
             (sin angle).

Local Close Scope f32_scope.

(** The body of the keyframe loop of [updateAnimation] for the pair
    [i], [i + 1] of one channel; the state is the node heap and the
    console. *)
Definition updateSegment (animation : Animation) (channel : AnimationChannel)
    (sampler : AnimationSampler) (i : Z) (st : list Node * list Message)
  : res (list Node * list Message) :=
  let '(h, out) := st in
  if negb (String.eqb (interpolation sampler) "LINEAR") then
    Ok (h, out ++ [OnlyLinearInterpolations])
  else
    ti ← at_ (inputs sampler) i;
    if negb (F32.ge (currentTime animation) ti) then Ok (h, out) else
    ti1 ← at_ (inputs sampler) (i + 1);
    if negb (F32.le (currentTime animation) ti1) then Ok (h, out) else
    let a := F32.div (F32.sub (currentTime animation) ti) (F32.sub ti1 ti) in
    h ← (if String.eqb (path channel) "translation" then
           o0 ← at_ (outputsVec4 sampler) i;
           o1 ← at_ (outputsVec4 sampler) (i + 1);
           write (node channel) (set_translation (vec3_of4 (mix o0 o1 a))) h
         else Ok h);
    h ← (if String.eqb (path channel) "rotation" then
           o0 ← at_ (outputsVec4 sampler) i;
           let q1 := mkQuat (w4 o0) (x4 o0) (y4 o0) (z4 o0) in
           o1 ← at_ (outputsVec4 sampler) (i + 1);
           let q2 := mkQuat (w4 o1) (x4 o1) (y4 o1) (z4 o1) in
           write (node channel) (set_rotation (normalizeq (slerp q1 q2 a))) h
         else Ok h);
    h ← (if String.eqb (path channel) "scale" then
           o0 ← at_ (outputsVec4 sampler) i;
           o1 ← at_ (outputsVec4 sampler) (i + 1);
           write (node channel) (set_scale (vec3_of4 (mix o0 o1 a))) h
         else Ok h);
    Ok (h, out).

(** The body of the channel loop of [updateAnimation]: the keyframe
    loop runs [sampler.inputs.size() - 1] times, computed in [size_t]. *)
Definition updateChannel (animation : Animation) (st : list Node * list Message)
    (channel : AnimationChannel) : res (list Node * list Message) :=
  sampler ← at_ (samplers animation) (samplerIndex channel);
  for_range (Z.to_nat (usize (Z.of_nat (length (inputs sampler)) - 1))) 0
    (updateSegment animation channel sampler) st.

(** The clock of [updateAnimation]: advance, then wrap. *)
Definition advance (deltaTime : float) (animation : Animation) : Animation :=
  let t := F32.add (currentTime animation) deltaTime in
  if F32.gt t (end_ animation)
  then set_currentTime (F32.sub t (end_ animation)) animation
  else set_currentTime t animation.

(** [VulkanglTFModel::updateAnimation]. *)
Definition updateAnimation (fuel : nat) (deltaTime : float)
    (m : VulkanglTFModel) : res VulkanglTFModel :=
  if activeAnimation m >? u32 (u32 (Z.of_nat (length (animations m))) - 1) then
    Ok (say (NoAnimationWithIndex (activeAnimation m)) m)
  else
    animation ← at_ (animations m) (activeAnimation m);
    let animation := advance deltaTime animation in
    '(h, out) ← foldM (updateChannel animation) (channels animation)
                   (heap m, console m);
    h ← updateMeshUniformBuffers fuel h (linearMeshNodes m);
    Ok {| heap := h; nodes := nodes m;
          animations := <[Z.to_nat (activeAnimation m) := animation]> (animations m);
          linearMeshNodes := linearMeshNodes m;
          activeAnimation := activeAnimation m;
          console := out |}.
End Animation.

(** ** Abstractions used to state the properties *)

(** The parent chain of a node as the list of its ancestors, nearest
    first: it exists exactly when following [parent] reaches [nullptr]. *)
Inductive ancestors (h : list Node) : option ptr -> list Node -> Prop :=
| ancestors_root : ancestors h None []
| ancestors_step p n l :
    h !! p = Some n -> ancestors h (parent n) l -> ancestors h (Some p) (n :: l).

(** The world matrix in the specification's words:
    [root.local * ... * parent.local * node.local], the ancestors given
    root first. *)
Fixpoint worldMatrix (rootFirst : list Node) (n : Node) : mat4 :=
  match rootFirst with
  | [] => getLocalMatrix n
  | a :: rest => mat_mul (getLocalMatrix a) (worldMatrix rest n)
  end.

(** The tree that the [children] vectors span below a node: address and
    [index] field of the node, then the subtrees in order. *)
Inductive tree := Tree (p : ptr) (i : Z) (kids : list tree).

Inductive shape (h : list Node) : ptr -> tree -> Prop :=
| shape_node p n kids :
    h !! p = Some n ->
    Forall2 (shape h) (children n) kids ->
    shape h p (Tree p (index n) kids).

(** Induction on trees with the hypothesis for every subtree. *)
Section TreeInduction.
Variable P : tree -> Prop.
Hypothesis step : forall p i kids, Forall P kids -> P (Tree p i kids).

Fixpoint tree_ind_nested (t : tree) : P t :=
  match t with
  | Tree p i kids =>
      step p i kids
        ((fix all (l : list tree) : Forall P l :=
            match l with
            | [] => Forall_nil_2 P
            | k :: l' => Forall_cons_2 P k l' (tree_ind_nested k) (all l')
            end) kids)
  end.
End TreeInduction.

(** Depth-first order, parent before children. *)
Fixpoint preorder (t : tree) : list (ptr * Z) :=
  match t with
  | Tree p i kids => (p, i) :: flat_map preorder kids
  end.

Fixpoint depth (t : tree) : nat :=
  match t with
  | Tree _ _ kids => S (foldr (fun k d => Nat.max (depth k) d) O kids)
  end.

Definition forest_depth (ts : list tree) : nat :=
  foldr (fun k d => Nat.max (depth k) d) O ts.

(** The nodes of a forest: roots in order, each root's subtree
    depth-first. *)
Definition forest_nodes (ts : list tree) : list (ptr * Z) := flat_map preorder ts.

(** The first node of a traversal whose index field is [i]. *)
Fixpoint first_with_index (i : Z) (l : list (ptr * Z)) : option ptr :=
  match l with
  | [] => None
  | (p, j) :: l' => if j =? i then Some p else first_with_index i l'
  end.

(** No adjacent pair of keyframes of [sampler] contains the time [t]. *)
Definition no_segment (sampler : AnimationSampler) (t : float) : Prop :=
  forall (i : nat) t0 t1,
    inputs sampler !! i = Some t0 ->
    inputs sampler !! S i = Some t1 ->
    F32.ge t t0 && F32.le t t1 = false.

(** ** Example scenes *)

Definition vec3_Z (x y z : Z) : vec3 := mkVec3 (F32.of_Z x) (F32.of_Z y) (F32.of_Z z).
Definition vec4_Z (x y z w : Z) : vec4 :=
  mkVec4 (F32.of_Z x) (F32.of_Z y) (F32.of_Z z) (F32.of_Z w).

(** A node as [loadNode] creates it for a record with a translation at
    most and without mesh. *)
Definition example_node (parent_ : option ptr) (index_ : Z) (children_ : list ptr)
    (t : vec3) : Node :=
  {| parent := parent_; children := children_; mesh := mkMesh [] None;
     matrix := mat4_s F32.one; index := index_;
     translation := t; scale := vec3_s F32.one;
     rotation := mkQuat F32.zero F32.zero F32.zero F32.zero |}.

Definition plain_node (parent_ : option ptr) (index_ : Z) (children_ : list ptr)
  : Node :=
  example_node parent_ index_ children_ (vec3_s F32.zero).

(** A node whose four factors all differ from the identity's effect on
    the origin: translation (1, 2, 3), scale 2 and a raw matrix that
    translates by (1, 0, 0). *)
Definition ordered_node : Node :=
  {| parent := None; children := []; mesh := mkMesh [] None;
     matrix := translate (mat4_s F32.one) (vec3_Z 1 0 0); index := 0;
     translation := vec3_Z 1 2 3; scale := vec3_Z 2 2 2;
     rotation := quat_identity |}.

(** One node driven by a translation channel with keyframes at 0.0 and
    1.0, the animation spanning [0.0, 1.0]. *)
Definition wrap_animation : Animation :=
  {| name := "wrap";
     samplers := [ {| interpolation := "LINEAR";
                      inputs := [F32.of_Z 0; F32.of_Z 1];
                      outputsVec4 := [vec4_Z 0 0 0 0; vec4_Z 2 4 6 0] |} ];
     channels := [ {| path := "translation"; node := Some O; samplerIndex := 0 |} ];
     start := F32.of_Z 0; end_ := F32.of_Z 1; currentTime := F32.of_Z 0 |}.

Definition wrap_model : VulkanglTFModel :=
  {| heap := [plain_node None 0 []]; nodes := [O];
     animations := [wrap_animation]; linearMeshNodes := [];
     activeAnimation := 0; console := [] |}.

(** Stand-ins for the C library's functions where an example needs the
    parameters of [updateAnimation] filled in; the examples have no
    rotation channel, so they are never called. *)
Definition no_acos (x : float) : float := x.
Definition no_sin (x : float) : float := x.

Definition floats_Z (l : list Z) : list float := F32.of_Z <$> l.

(** A node record with a translation only. *)
Definition translated (t : list Z) (children_ : list Z) (mesh_ : Z) : tinygltf.Node :=
  {| tinygltf.translation := floats_Z t; tinygltf.rotation := [];
     tinygltf.scale := []; tinygltf.matrix := [];
     tinygltf.children := children_; tinygltf.mesh := mesh_ |}.

(** The chain root -> child -> grandchild translating by (1,0,0),
    (0,1,0) and (0,0,1). *)
Definition chain_gltf : tinygltf.Model :=
  {| tinygltf.accessors := []; tinygltf.animations := []; tinygltf.meshes := [];
     tinygltf.nodes := [ translated [1; 0; 0] [1] (-1);
                         translated [0; 1; 0] [2] (-1);
                         translated [0; 0; 1] [] (-1) ];
     tinygltf.scenes := [ {| tinygltf.scene_nodes := [0] |} ] |}.

(** Two roots: node 0 over nodes 2 and 3, node 1 over node 4. *)
Definition forest_gltf : tinygltf.Model :=
  {| tinygltf.accessors := []; tinygltf.animations := []; tinygltf.meshes := [];
     tinygltf.nodes := [ translated [] [2; 3] (-1); translated [] [4] (-1);
                         translated [] [] (-1); translated [] [] (-1);
                         translated [] [] (-1) ];
     tinygltf.scenes := [ {| tinygltf.scene_nodes := [0; 1] |} ] |}.

(** The nodes [loadglTFFile] builds from [chain_gltf]. *)
Definition chain_root : Node := example_node None 0 [1%nat] (vec3_Z 1 0 0).
Definition chain_child : Node := example_node (Some O) 1 [2%nat] (vec3_Z 0 1 0).
Definition chain_grandchild : Node := example_node (Some 1%nat) 2 [] (vec3_Z 0 0 1).
Definition chain_heap : list Node := [chain_root; chain_child; chain_grandchild].

(** The model [loadglTFFile] builds from [forest_gltf]: nodes are
    allocated in depth-first order, so addresses differ from indices. *)
Definition forest_model : VulkanglTFModel :=
  {| heap := [ plain_node None 0 [1; 2]%nat; plain_node (Some O) 2 [];
               plain_node (Some O) 3 []; plain_node None 1 [4%nat];
               plain_node (Some 3%nat) 4 [] ];
     nodes := [0; 3]%nat; animations := []; linearMeshNodes := [];
     activeAnimation := 0; console := [] |}.

Definition forest_trees : list tree :=
  [ Tree 0%nat 0 [Tree 1%nat 2 []; Tree 2%nat 3 []];
    Tree 3%nat 1 [Tree 4%nat 4 []] ].

(** The running minimum and maximum that [adjust_start_end] keeps. *)
Definition running_min (s x : float) : float := if F32.lt x s then x else s.
Definition running_max (e x : float) : float := if F32.gt x e then x else e.

(** A float accessor over the given values. *)
Definition float_accessor (type_ : Z) (count_ : Z) (l : list float)
  : tinygltf.Accessor :=
  {| tinygltf.count := count_; tinygltf.componentType := 5126;
     tinygltf.type := type_; tinygltf.floats := l; tinygltf.uints := [] |}.

(** An index accessor of the given component type. *)
Definition index_accessor (componentType_ : Z) (l : list Z) : tinygltf.Accessor :=
  {| tinygltf.count := Z.of_nat (length l); tinygltf.componentType := componentType_;
     tinygltf.type := 65; tinygltf.floats := []; tinygltf.uints := l |}.

(** One node and one animation whose only keyframe is at time 0.0: the
    node is held at (1, 2, 3). *)
Definition still_gltf : tinygltf.Model :=
  {| tinygltf.accessors := [ float_accessor 65 1 (floats_Z [0]);
                             float_accessor tinygltf.TYPE_VEC3 1 (floats_Z [1; 2; 3]) ];
     tinygltf.animations :=
       [ {| tinygltf.name := "still";
            tinygltf.channels := [ {| tinygltf.sampler := 0;
                                      tinygltf.target_node := 0;
                                      tinygltf.target_path := "translation" |} ];
            tinygltf.samplers := [ {| tinygltf.input := 0; tinygltf.output := 1;
                                      tinygltf.interpolation := "LINEAR" |} ] |} ];
     tinygltf.meshes := [];
     tinygltf.nodes := [ translated [] [] (-1) ];
     tinygltf.scenes := [ {| tinygltf.scene_nodes := [0] |} ] |}.

(** The asset behind [wrap_model]: one node, keyframes at 0.0 and 1.0
    moving it from the origin to (2, 4, 6). *)
Definition wrap_gltf : tinygltf.Model :=
  {| tinygltf.accessors := [ float_accessor 65 2 (floats_Z [0; 1]);
                             float_accessor tinygltf.TYPE_VEC3 2
                               (floats_Z [0; 0; 0; 2; 4; 6]) ];
     tinygltf.animations :=
       [ {| tinygltf.name := "wrap";
            tinygltf.channels := [ {| tinygltf.sampler := 0;
                                      tinygltf.target_node := 0;
                                      tinygltf.target_path := "translation" |} ];
            tinygltf.samplers := [ {| tinygltf.input := 0; tinygltf.output := 1;
                                      tinygltf.interpolation := "LINEAR" |} ] |} ];
     tinygltf.meshes := [];
     tinygltf.nodes := [ translated [] [] (-1) ];
     tinygltf.scenes := [ {| tinygltf.scene_nodes := [0] |} ] |}.

(** One node and one animation without sampler and channel. *)
Definition idle_gltf : tinygltf.Model :=
  {| tinygltf.accessors := [];
     tinygltf.animations :=
       [ {| tinygltf.name := "idle"; tinygltf.channels := [];
            tinygltf.samplers := [] |} ];
     tinygltf.meshes := [];
     tinygltf.nodes := [ translated [] [] (-1) ];
     tinygltf.scenes := [ {| tinygltf.scene_nodes := [0] |} ] |}.

(** The animation [loadglTFFile] decodes from [still_gltf]. *)
Definition still_animation : Animation :=
  {| name := "still";
     samplers := [ {| interpolation := "LINEAR"; inputs := [F32.zero];
                      outputsVec4 := [vec4_Z 1 2 3 0] |} ];
     channels := [ {| path := "translation"; node := Some O; samplerIndex := 0 |} ];
     start := F32.zero; end_ := F32.numeric_limits_min;
     currentTime := F32.zero |}.

(** The state a loop body leaves, however it ended. *)
Definition flow_state {A : Type} (r : flow A) : A :=
  match r with
  | Continue a => a
  | Return a => a
  end.

Definition nan3 : vec3 := vec3_s S754_nan.

(** A triangle with positions only and 8-bit indices. *)
Definition bare_primitive : tinygltf.Primitive :=
  {| tinygltf.attributes := {[ "POSITION" := 0 ]};
     tinygltf.indices := 1; tinygltf.material := 0 |}.

Definition bare_gltf : tinygltf.Model :=
  {| tinygltf.accessors :=
       [ float_accessor tinygltf.TYPE_VEC3 3 (floats_Z [0; 0; 0; 1; 0; 0; 0; 1; 0]);
         index_accessor tinygltf.PARAMETER_TYPE_UNSIGNED_BYTE [0; 1; 2] ];
     tinygltf.animations := [];
     tinygltf.meshes := [ {| tinygltf.primitives := [bare_primitive] |} ];
     tinygltf.nodes := [ translated [] [] 0 ];
     tinygltf.scenes := [ {| tinygltf.scene_nodes := [0] |} ] |}.

(** The state of [loadNode] when it reaches the mesh of a first,
    childless node. *)
Definition first_node_state : LoadState :=
  {| model := set_heap [plain_node None 0 []] empty_model;
     indexBuffer := []; vertexBuffer := [] |}.

(** A mesh of two primitives: a triangle with 8-bit indices, then a quad
    with 16-bit indices. *)
Definition triangle_primitive : tinygltf.Primitive :=
  {| tinygltf.attributes := {[ "POSITION" := 0 ]};
     tinygltf.indices := 1; tinygltf.material := 0 |}.
Definition quad_primitive : tinygltf.Primitive :=
  {| tinygltf.attributes := {[ "POSITION" := 2 ]};
     tinygltf.indices := 3; tinygltf.material := 1 |}.

Definition two_primitives_gltf : tinygltf.Model :=
  {| tinygltf.accessors :=
       [ float_accessor tinygltf.TYPE_VEC3 3 (floats_Z [0; 0; 0; 1; 0; 0; 0; 1; 0]);
         index_accessor tinygltf.PARAMETER_TYPE_UNSIGNED_BYTE [0; 1; 2];
         float_accessor tinygltf.TYPE_VEC3 4
           (floats_Z [0; 0; 1; 1; 0; 1; 1; 1; 1; 0; 1; 1]);
         index_accessor tinygltf.PARAMETER_TYPE_UNSIGNED_SHORT [0; 1; 2; 2; 3; 0] ];
     tinygltf.animations := [];
     tinygltf.meshes :=
       [ {| tinygltf.primitives := [triangle_primitive; quad_primitive] |} ];
     tinygltf.nodes := [ translated [] [] 0 ];
     tinygltf.scenes := [ {| tinygltf.scene_nodes := [0] |} ] |}.

(** [m'] differs from [m] at most in the node at address [node] and in
    the console. *)
Definition untouched_except (node : ptr) (m m' : VulkanglTFModel) : Prop :=
  nodes m' = nodes m
  /\ linearMeshNodes m' = linearMeshNodes m
  /\ animations m' = animations m
  /\ length (heap m') = length (heap m)
  /\ forall q, q <> node -> heap m' !! q = heap m !! q.

(** Three root nodes with one triangle each: the first with indices of
    an unsupported component type (5126, FLOAT), the second well formed,
    the third without POSITION; and an animation whose channel targets
    node 99. *)
Definition degraded_gltf : tinygltf.Model :=
  {| tinygltf.accessors :=
       [ float_accessor tinygltf.TYPE_VEC3 3 (floats_Z [0; 0; 0; 1; 0; 0; 0; 1; 0]);
         index_accessor 5126 [0; 1; 2];
         index_accessor tinygltf.PARAMETER_TYPE_UNSIGNED_SHORT [0; 1; 2];
         float_accessor 65 2 (floats_Z [0; 1]);
         float_accessor tinygltf.TYPE_VEC3 2 (floats_Z [0; 0; 0; 1; 1; 1]) ];
     tinygltf.animations :=
       [ {| tinygltf.name := "lost";
            tinygltf.channels := [ {| tinygltf.sampler := 0;
                                      tinygltf.target_node := 99;
                                      tinygltf.target_path := "translation" |} ];
            tinygltf.samplers := [ {| tinygltf.input := 3; tinygltf.output := 4;
                                      tinygltf.interpolation := "LINEAR" |} ] |} ];
     tinygltf.meshes :=
       [ {| tinygltf.primitives :=
              [ {| tinygltf.attributes := {[ "POSITION" := 0 ]};
                   tinygltf.indices := 1; tinygltf.material := 0 |} ] |};
         {| tinygltf.primitives :=
              [ {| tinygltf.attributes := {[ "POSITION" := 0 ]};
                   tinygltf.indices := 2; tinygltf.material := 0 |} ] |};
         {| tinygltf.primitives :=
              [ {| tinygltf.attributes := ∅;
                   tinygltf.indices := 2; tinygltf.material := 0 |} ] |} ];
     tinygltf.nodes := [ translated [] [] 0; translated [] [] 1; translated [] [] 2 ];
     tinygltf.scenes := [ {| tinygltf.scene_nodes := [0; 1; 2] |} ] |}.

(** [wrap_model] with the keyframes of its sampler removed. *)
Definition no_keyframe_animation : Animation :=
  {| name := "empty";
     samplers := [ {| interpolation := "LINEAR"; inputs := []; outputsVec4 := [] |} ];
     channels := [ {| path := "translation"; node := Some O; samplerIndex := 0 |} ];
     start := F32.numeric_limits_max; end_ := F32.numeric_limits_min;
     currentTime := F32.zero |}.

Definition no_keyframe_model : VulkanglTFModel :=
  set_animations [no_keyframe_animation] wrap_model.

(** Every node of [h] is in [h'] with the same translation, rotation and
    scale. *)
Definition same_trs (h h' : list Node) : Prop :=
  forall p n, h !! p = Some n ->
  exists n', h' !! p = Some n'
             /\ translation n' = translation n
             /\ rotation n' = rotation n
             /\ scale n' = scale n.

(** ** Well-formedness of loaded models *)

(** [h'] has every node of [h] whose address satisfies [P], with the same
    parent, children and index. *)
Definition keeps (P : ptr -> Prop) (h h' : list Node) : Prop :=
  forall a n, P a -> h !! a = Some n ->
  exists n', h' !! a = Some n'
             /\ parent n' = parent n
             /\ children n' = children n
             /\ index n' = index n.

(** Every address of the tree is at least [lo]. *)
Definition tree_ge (lo : nat) (t : tree) : Prop :=
  Forall (fun ai => (lo <= ai.1)%nat) (preorder t).

(** Parents are allocated before their children. *)
Definition parent_lt (h : list Node) : Prop :=
  forall a n q, h !! a = Some n -> parent n = Some q -> (q < a)%nat.

(** The states [loadPrimitive] reaches on the two primitives of
    [two_primitives_gltf], in order. *)
Definition after_triangle : LoadState :=
  Eval vm_compute in
    match loadPrimitive two_primitives_gltf 0 triangle_primitive first_node_state with
    | Ok r => flow_state r
    | _ => first_node_state
    end.

Definition after_quad : LoadState :=
  Eval vm_compute in
    match loadPrimitive two_primitives_gltf 0 quad_primitive after_triangle with
    | Ok r => flow_state r
    | _ => after_triangle
    end.

(** What a completed call [loadNode ... parent_ ... st] leaves in [st']:
    the new node is at the address [p] where the heap of [st] ended; older
    nodes keep their links, except that the parent, or else the root
    list, may have gained [p], and then [p] is the root of a tree made of
    nodes at [p] or later. *)
Definition loaded (parent_ : option ptr) (st st' : LoadState) : Prop :=
  let h := heap (model st) in
  let h' := heap (model st') in
  let p := length h in
  (p < length h')%nat
  /\ keeps (fun a => (a < p)%nat /\ parent_ <> Some a) h h'
  /\ (parent_lt h -> parent_lt h')
  /\ match parent_ with
     | Some q =>
         nodes (model st') = nodes (model st)
         /\ forall n, h !! q = Some n ->
            exists n', h' !! q = Some n'
                       /\ parent n' = parent n /\ index n' = index n
                       /\ (children n' = children n
                           \/ (children n' = children n ++ [p]
                               /\ exists t, shape h' p t /\ tree_ge p t))
     | None =>
         nodes (model st') = nodes (model st)
         \/ (nodes (model st') = nodes (model st) ++ [p]
             /\ exists t, shape h' p t /\ tree_ge p t)
     end.

(** The state of the children loop of the node at [p], created with
    index [idx] and parent [parent_] on top of the heap [h0]. *)
Definition loading (h0 : list Node) (nodes0 : list ptr) (p : ptr) (idx : Z)
    (parent_ : option ptr) (st : LoadState) : Prop :=
  let h := heap (model st) in
  (p < length h)%nat
  /\ keeps (fun a => (a < p)%nat) h0 h
  /\ (parent_lt h0 -> parent_lt h)
  /\ nodes (model st) = nodes0
  /\ exists n ts,
       h !! p = Some n /\ index n = idx /\ parent n = parent_
       /\ Forall2 (shape h) (children n) ts
       /\ Forall (tree_ge (S p)) ts.

(** The buffers of [st'] extend those of [st] at the end. *)
Definition grows (st st' : LoadState) : Prop :=
  indexBuffer st `prefix_of` indexBuffer st'
  /\ vertexBuffer st `prefix_of` vertexBuffer st'.
(** ** Invariants of the loader *)

(** Every address in a [children] vector is a node whose [parent] is the
    owner of the vector. *)
Definition linked (h : list Node) : Prop :=
  forall (p : ptr) n (c : ptr), h !! p = Some n -> c ∈ children n ->
  exists nc, h !! c = Some nc /\ parent nc = Some p.

(** The nodes of the root list have no parent. *)
Definition roots_free (m : VulkanglTFModel) : Prop :=
  forall r : ptr, r ∈ nodes m ->
  exists n, heap m !! r = Some n /\ parent n = None.

(** The list of mesh nodes names nodes that have a primitive, each once. *)
Definition mesh_nodes_ok (m : VulkanglTFModel) : Prop :=
  NoDup (linearMeshNodes m)
  /\ forall p : ptr, p ∈ linearMeshNodes m ->
     exists n, heap m !! p = Some n /\ primitives (mesh n) <> [].

(** No node has a mapped uniform buffer. *)
Definition unmapped (h : list Node) : Prop :=
  forall (p : ptr) n, h !! p = Some n -> mapped (mesh n) = None.

(** The index range of a primitive lies in an index buffer of [len]
    elements. *)
Definition primitive_in (len : Z) (pr : Primitive) : Prop :=
  0 <= firstIndex pr /\ 0 <= indexCount pr
  /\ firstIndex pr + indexCount pr <= len.

(** The index ranges of two primitives do not overlap. *)
Definition apart (pr pr' : Primitive) : Prop :=
  firstIndex pr + indexCount pr <= firstIndex pr'
  \/ firstIndex pr' + indexCount pr' <= firstIndex pr.

(** The primitive lists of all nodes, by address. *)
Definition all_primitives (h : list Node) : list (list Primitive) :=
  (fun n => primitives (mesh n)) <$> h.

(** Every primitive has its range in a buffer of [len] indices, and the
    primitives at two different places, a place being a node and a
    position in its primitive list, have ranges that do not overlap. *)
Definition ranges_ok (len : Z) (pss : list (list Primitive)) : Prop :=
  (forall (p : nat) ps pr, pss !! p = Some ps -> pr ∈ ps -> primitive_in len pr)
  /\ forall (p p' : nat) ps ps' (k k' : nat) pr pr',
       pss !! p = Some ps -> ps !! k = Some pr ->
       pss !! p' = Some ps' -> ps' !! k' = Some pr' ->
       (p, k) <> (p', k') -> apart pr pr'.

Definition ranged (st : LoadState) : Prop :=
  ranges_ok (Z.of_nat (length (indexBuffer st)))
            (all_primitives (heap (model st))).

(** What every state of the loader satisfies; the ranges are as stated
    while the index buffer has fewer than 2^32 elements, the range of
    [firstIndex] and [indexCount]. *)
Record mesh_inv (st : LoadState) : Prop := mkMeshInv {
  inv_linked : linked (heap (model st));
  inv_roots : roots_free (model st);
  inv_mesh_nodes : mesh_nodes_ok (model st);
  inv_unmapped : unmapped (heap (model st));
  inv_ranged : Z.of_nat (length (indexBuffer st)) < 2 ^ 32 -> ranged st
}.

(** The mesh nodes a call of [loadNode] adds are nodes it allocated. *)
Definition mesh_delta (st st' : LoadState) : Prop :=
  forall a : ptr, a ∈ linearMeshNodes (model st') ->
  a ∈ linearMeshNodes (model st) \/ (length (heap (model st)) <= a)%nat.

(** ** Rendering *)

(** [VulkanglTFModel::Material] and [VulkanglTFModel::Texture]; an
    [Image] stands for the texture uploaded for it. *)
Record Material := mkMaterial {
  baseColorFactor : vec4;
  baseColorTextureIndex : Z;
  metallicRoughnessTextureIndex : Z;
  normalTextureIndex : Z
}.

Record Texture := mkTexture { imageIndex : Z }.

(** The bytes handed to [texture.fromBuffer] with the extent of the
    image; [None] is a byte of indeterminate value. *)
Record Image := mkImage {
  texture : list (option Byte.byte);
  width : Z;
  height : Z
}.

(** The members [images], [textures] and [materials] of
    [VulkanglTFModel]. *)
Record Assets := mkAssets {
  images : list Image;
  textures : list Texture;
  materials : list Material
}.

(** The commands [draw] records into the command buffer. *)
Inductive Command :=
| BindVertexBuffers
| BindIndexBuffer
| BindNodeDescriptorSet (node : ptr)
| BindImageDescriptorSet (image : Z)
| DrawIndexed (indexCount instanceCount firstIndex vertexOffset firstInstance : Z).

(** The body of the primitive loop of [drawNode]. *)
Definition drawPrimitive (a : Assets) (cmds : list Command) (primitive : Primitive)
  : res (list Command) :=
  if indexCount primitive >? 0 then
    material ← at_ (materials a) (materialIndex primitive);
    texture ← at_ (textures a) (baseColorTextureIndex material);
    _ ← at_ (images a) (imageIndex texture);
    Ok (cmds ++ [ BindImageDescriptorSet (imageIndex texture);
                  DrawIndexed (indexCount primitive) 1 (firstIndex primitive) 0 0 ])
  else Ok cmds.

(** [VulkanglTFModel::drawNode]. *)
Definition drawNode (a : Assets) (h : list Node) (cmds : list Command) (node : ptr)
  : res (list Command) :=
  n ← deref h node;
  foldM (drawPrimitive a) (primitives (mesh n))
        (cmds ++ [BindNodeDescriptorSet node]).

(** [VulkanglTFModel::draw]. *)
Definition draw (a : Assets) (m : VulkanglTFModel) : res (list Command) :=
  foldM (drawNode a (heap m)) (linearMeshNodes m)
        [BindVertexBuffers; BindIndexBuffer].

(** The primitives [draw] issues a draw call for: those with indices, in
    the order of the mesh-node list and of each node's primitive list. *)
Definition drawn (h : list Node) (meshNodes : list ptr) : list Primitive :=
  flat_map (fun p => match h !! p with
                     | Some n => filter (fun pr => 0 < indexCount pr)
                                        (primitives (mesh n))
                     | None => []
                     end) meshNodes.

(** The primitive behind a draw call. *)
Definition draw_call (c : Command) : option (Z * Z) :=
  match c with
  | DrawIndexed indexCount_ _ firstIndex_ _ _ => Some (firstIndex_, indexCount_)
  | _ => None
  end.

(** [prepareMeshUniformBuffers]: every mesh node gets a uniform buffer
    that stays mapped; [fresh] is what the new memory holds. *)
Definition prepareMeshUniformBuffers (fresh : ptr -> mat4) (h : list Node)
    (meshNodes : list ptr) : res (list Node) :=
  foldM (fun h meshNode =>
           n ← deref h meshNode;
           match primitives (mesh n) with
           | _ :: _ => Ok (<[meshNode := set_mapped (Some (fresh meshNode)) n]> h)
           | [] => Ok h
           end)
        meshNodes h.

(** A node without what [getNodeMatrix] does not read. *)
Definition transform_of (n : Node) : option ptr * mat4 * vec3 * vec3 * quat :=
  (parent n, matrix n, translation n, scale n, rotation n).

(** ** What the animation update leaves alone *)

(** A node without its translation, rotation and scale. *)
Definition rigid_of (n : Node) : option ptr * list ptr * Mesh * mat4 * Z :=
  (parent n, children n, mesh n, matrix n, index n).

(** A node without its transform and its uniform buffer. *)
Definition skeleton_of (n : Node)
  : option ptr * list ptr * list Primitive * mat4 * Z :=
  (parent n, children n, primitives (mesh n), matrix n, index n).

(** An animation without its clock. *)
Definition timeless (a : Animation)
  : string * list AnimationSampler * list AnimationChannel * float * float :=
  (name a, samplers a, channels a, start a, end_ a).

(** The fields a channel may write. *)
Definition animated_paths : list string := ["translation"; "rotation"; "scale"].

(** ** The order of [float] comparisons *)

(** The place of a float in the order that [<] compares by: the sign
    class first, then exponent and mantissa, reversed for negative
    numbers; NaN has no place. *)
Definition order_key (x : float) : option (Z * Z * Z) :=
  match x with
  | S754_nan => None
  | S754_infinity true => Some (0, 0, 0)
  | S754_finite true m e => Some (1, - e, - Z.pos m)
  | S754_zero _ => Some (2, 0, 0)
  | S754_finite false m e => Some (3, e, Z.pos m)
  | S754_infinity false => Some (4, 0, 0)
  end.

Definition lex_lt (a b : Z * Z * Z) : Prop :=
  a.1.1 < b.1.1
  \/ (a.1.1 = b.1.1 /\ (a.1.2 < b.1.2 \/ (a.1.2 = b.1.2 /\ a.2 < b.2))).

(** Every keyframe time of the animation is neither before [start] nor
    after [end]. *)
Definition within_range (a : Animation) : Prop :=
  forall s t, s ∈ samplers a -> t ∈ inputs s ->
  F32.lt t (start a) = false /\ F32.gt t (end_ a) = false.

(** ** Channels of a loaded model *)

(** The loop of [findNode] over [parent->children], one level of
    recursion below. *)
Definition findNode_children (fuel : nat) (h : list Node) (cs : list ptr)
    (index_ : Z) : res (option ptr) :=
  (fix loop (cs : list ptr) : res (option ptr) :=
     match cs with
     | [] => Ok None
     | child :: cs' =>
         nodeFound ← findNode fuel h child index_;
         match nodeFound with
         | Some _ => Ok nodeFound
         | None => loop cs'
         end
     end) cs.

(** A decoded channel against its source: path and sampler index are
    copied, and the node is the first one of the forest, in depth-first
    order, whose index is the target index, or null. *)
Definition resolved (forest : list tree) (gc : tinygltf.AnimationChannel)
    (c : AnimationChannel) : Prop :=
  path c = tinygltf.target_path gc
  /\ samplerIndex c = u32 (tinygltf.sampler gc)
  /\ node c = first_with_index (u32 (tinygltf.target_node gc)) (forest_nodes forest).

(** ** Images *)

(** [tinygltf::Image] as the image decoder leaves it. *)
Module tinygltf_image.
Record Image := mkImage {
  width : Z;
  height : Z;
  component : Z;
  image : list Byte.byte
}.
End tinygltf_image.

(** Multiplication of two [int]: a result outside of [int] is undefined
    behaviour. *)
Definition int_mul (a b : Z) : res Z :=
  if (- 2 ^ 31 <=? a * b) && (a * b <? 2 ^ 31) then Ok (a * b) else Undefined.

(** A write through a pointer into an array. *)
Definition store {A : Type} (l : list A) (i : Z) (x : A) : res (list A) :=
  if (0 <=? i) && (i <? Z.of_nat (length l)) then Ok (<[Z.to_nat i := x]> l)
  else Undefined.

(** One iteration of the conversion loop of [loadImages]:
    [memcpy(rgba, rgb, 3)] with [rgb] at byte [3 i] of the image and
    [rgba] at byte [4 i] of the new buffer. *)
Definition copyPixel (rgb : list Byte.byte) (i : Z) (rgba : list (option Byte.byte))
  : res (list (option Byte.byte)) :=
  r ← at_ rgb (3 * i);
  g ← at_ rgb (3 * i + 1);
  b ← at_ rgb (3 * i + 2);
  rgba ← store rgba (4 * i) (Some r);
  rgba ← store rgba (4 * i + 1) (Some g);
  store rgba (4 * i + 2) (Some b).

(** The body of the loop of [loadImages] for one image. The answer
    [Ok None] stands for the exception that [new unsigned char[n]] throws
    for a size no array can have; nothing in the program catches it. *)
Definition loadImage (glTFImage : tinygltf_image.Image) : res (option Image) :=
  if tinygltf_image.component glTFImage =? 3 then
    pixels ← int_mul (tinygltf_image.width glTFImage)
                     (tinygltf_image.height glTFImage);
    bufferSize ← int_mul pixels 4;
    if bufferSize <? 0 then Ok None
    else
      let buffer := replicate (Z.to_nat bufferSize) None in
      _ ← at_ (tinygltf_image.image glTFImage) 0;
      rgba ← for_range (Z.to_nat (usize pixels)) 0
                (copyPixel (tinygltf_image.image glTFImage)) buffer;
      Ok (Some {| texture := rgba;
                  width := tinygltf_image.width glTFImage;
                  height := tinygltf_image.height glTFImage |})
  else
    _ ← at_ (tinygltf_image.image glTFImage) 0;
    Ok (Some {| texture := Some <$> tinygltf_image.image glTFImage;
                width := tinygltf_image.width glTFImage;
                height := tinygltf_image.height glTFImage |}).

(** ** When a frame can be drawn *)

(** The chain of lookups [drawNode] makes for a primitive: material,
    then its base colour texture, then the image of that texture. *)
Definition drawable (a : Assets) (pr : Primitive) : Prop :=
  exists material texture_ image,
    at_ (materials a) (materialIndex pr) = Ok material
    /\ at_ (textures a) (baseColorTextureIndex material) = Ok texture_
    /\ at_ (images a) (imageIndex texture_) = Ok image.

(** Every mesh node is a node, and each of its primitives that has
    indices is drawable. *)
Definition all_drawable (a : Assets) (m : VulkanglTFModel) : Prop :=
  forall p : ptr, p ∈ linearMeshNodes m ->
  exists n, heap m !! p = Some n
            /\ forall pr, pr ∈ primitives (mesh n) -> 0 < indexCount pr ->
               drawable a pr.

(** ** Further example scenes *)

(** A root translated by (1, 0, 0) over a child translated by (0, 1, 0)
    that carries the mesh of [two_primitives_gltf]. *)
Definition scene_gltf : tinygltf.Model :=
  {| tinygltf.accessors := tinygltf.accessors two_primitives_gltf;
     tinygltf.animations := [];
     tinygltf.meshes := tinygltf.meshes two_primitives_gltf;
     tinygltf.nodes := [ translated [1; 0; 0] [1] (-1); translated [0; 1; 0] [] 0 ];
     tinygltf.scenes := [ {| tinygltf.scene_nodes := [0] |} ] |}.

Definition scene_state : LoadState :=
  Eval vm_compute in
    match loadglTFFile 2 scene_gltf with
    | Ok st => st
    | _ => initial_state
    end.

(** Two materials on two textures of one image. *)
Definition scene_assets : Assets :=
  {| images := [ {| texture := []; width := 0; height := 0 |} ];
     textures := [ {| imageIndex := 0 |}; {| imageIndex := 0 |} ];
     materials :=
       [ {| baseColorFactor := vec4_Z 1 1 1 1; baseColorTextureIndex := 0;
            metallicRoughnessTextureIndex := 0; normalTextureIndex := 0 |};
         {| baseColorFactor := vec4_Z 1 1 1 1; baseColorTextureIndex := 1;
            metallicRoughnessTextureIndex := 0; normalTextureIndex := 0 |} ] |}.

Definition scene_commands : list Command :=
  Eval vm_compute in
    match draw scene_assets (model scene_state) with
    | Ok cmds => cmds
    | _ => []
    end.

(** The matrix that moves the origin to (1, 1, 0). *)
Definition scene_world : mat4 :=
  translate (mat4_s F32.one) (vec3_Z 1 1 0).

(** The clock of [wrap_animation] at 0.5, and its channel evaluated
    there. *)
Definition half_animation : Animation :=
  set_currentTime (F32.of_Z2 1 (-1)) wrap_animation.

Definition wrap_channel : AnimationChannel :=
  {| path := "translation"; node := Some O; samplerIndex := 0 |}.

Definition half_way : list Node * list Message :=
  Eval vm_compute in
    match updateChannel no_acos no_sin half_animation (heap wrap_model, [])
            wrap_channel with
    | Ok s => s
    | _ => ([], [])
    end.

(** [wrap_model] after a tick of 1.5. *)
Definition wrap_model_ticked : VulkanglTFModel :=
  Eval vm_compute in
    match updateAnimation no_acos no_sin 0 (F32.of_Z2 3 (-1)) wrap_model with
    | Ok m => m
    | _ => wrap_model
    end.

(** [wrap_animation] with a sampler that asks for steps. *)
Definition step_sampler : AnimationSampler :=
  {| interpolation := "STEP"; inputs := [F32.of_Z 0; F32.of_Z 1];
     outputsVec4 := [vec4_Z 0 0 0 0; vec4_Z 2 4 6 0] |}.

Definition step_animation : Animation :=
  set_samplers [step_sampler] wrap_animation.

(** The model the loader builds from [degraded_gltf]; its channel has no
    target. *)
Definition degraded_model : VulkanglTFModel :=
  Eval vm_compute in
    match loadglTFFile 1 degraded_gltf with
    | Ok st => model st
    | _ => empty_model
    end.

Definition degraded_sampler : AnimationSampler :=
  {| interpolation := "LINEAR"; inputs := [F32.of_Z 0; F32.of_Z 1];
     outputsVec4 := [vec4_Z 0 0 0 0; vec4_Z 1 1 1 0] |}.

Definition degraded_channel : AnimationChannel :=
  {| path := "translation"; node := None; samplerIndex := 0 |}.

Definition degraded_animation : Animation :=
  {| name := "lost"; samplers := [degraded_sampler];
     channels := [degraded_channel];
     start := F32.of_Z 0; end_ := F32.of_Z 1; currentTime := F32.zero |}.

Definition wrap_state : LoadState :=
  Eval vm_compute in
    match loadglTFFile 1 wrap_gltf with
    | Ok st => st
    | _ => initial_state
    end.

(** Two pixels, red then green, of three components. *)
Definition two_pixels : tinygltf_image.Image :=
  {| tinygltf_image.width := 2; tinygltf_image.height := 1;
     tinygltf_image.component := 3;
     tinygltf_image.image :=
       [Byte.xff; Byte.x00; Byte.x00; Byte.x00; Byte.xff; Byte.x00] |}.

Definition two_pixels_rgba : Image :=
  {| texture := [ Some Byte.xff; Some Byte.x00; Some Byte.x00; None;
                  Some Byte.x00; Some Byte.xff; Some Byte.x00; None ];
     width := 2; height := 1 |}.

(** The animation of [wrap_gltf] when its sampler loop starts, and what
    the loop body makes of it. *)
Definition wrap_animation_fresh : Animation :=
  {| name := "wrap"; samplers := [AnimationSampler_default]; channels := [];
     start := F32.numeric_limits_max; end_ := F32.numeric_limits_min;
     currentTime := F32.zero |}.

Definition wrap_animation_sampled : Animation * list Message :=
  Eval vm_compute in
    match loadSampler wrap_gltf
            {| tinygltf.name := "wrap"; tinygltf.channels := [];
               tinygltf.samplers := [ {| tinygltf.input := 0; tinygltf.output := 1;
                                         tinygltf.interpolation := "LINEAR" |} ] |}
            0 (wrap_animation_fresh, []) with
    | Ok s => s
    | _ => (wrap_animation_fresh, [])
    end.

(** [scene_state] with the root node of [scene_gltf] loaded once more. *)
Definition scene_state_again : LoadState :=
  Eval vm_compute in
    match loadNode 2 scene_gltf (translated [1; 0; 0] [1] (-1)) None 0
            scene_state with
    | Ok st => st
    | _ => scene_state
    end.

(** [wrap_model] with a selector past its only animation. *)
Definition unselected_model : VulkanglTFModel :=
  {| heap := heap wrap_model; nodes := nodes wrap_model;
     animations := animations wrap_model;
     linearMeshNodes := linearMeshNodes wrap_model;
     activeAnimation := 5; console := [] |}.

(** ** Destruction *)

(** No [children] vector and no root list names a node twice. *)
Definition tidy (m : VulkanglTFModel) : Prop :=
  (forall (p : ptr) n, heap m !! p = Some n -> NoDup (children n))
  /\ NoDup (nodes m).

(** The node [k] steps up the parent chain of [a]. *)
Fixpoint nth_parent (h : list Node) (k : nat) (a : ptr) : option ptr :=
  match k with
  | O => Some a
  | S k' =>
      match h !! a with
      | Some n =>
          match parent n with
          | Some q => nth_parent h k' q
          | None => None
          end
      | None => None
      end
  end.

(** The addresses of a tree and of a forest, in depth-first order. *)
Definition addresses (t : tree) : list ptr := (preorder t).*1.
Definition forest_addresses (ts : list tree) : list ptr := (forest_nodes ts).*1.

(** [delete node]: the destructor [~Node] deletes the children in
    order, then the node is gone. [deleted] lists the nodes whose deletion
    has begun; deleting one of them again is undefined behaviour. *)
Fixpoint deleteNode (fuel : nat) (h : list Node) (deleted : list ptr) (node : ptr)
  : res (list ptr) :=
  match fuel with
  | O => OutOfFuel
  | S fuel' =>
      if decide (node ∈ deleted) then Undefined
      else
        n ← deref h node;
        foldM (deleteNode fuel' h) (children n) (deleted ++ [node])
  end.

(** The node part of [~VulkanglTFModel]: the nodes it deletes, in the
    order in which their deletion begins. *)
Definition deleteModel (fuel : nat) (m : VulkanglTFModel) : res (list ptr) :=
  foldM (deleteNode fuel (heap m)) (nodes m) [].

(** ** When a tick is defined *)

(** What the update needs of a channel: its sampler exists and has at
    least one keyframe, with an output for every input, and the channel
    has a target node. *)
Definition channel_ready (h : list Node) (animation : Animation)
    (channel : AnimationChannel) : Prop :=
  exists sampler (p : ptr),
    at_ (samplers animation) (samplerIndex channel) = Ok sampler
    /\ inputs sampler <> []
    /\ Z.of_nat (length (inputs sampler)) < 2 ^ 64
    /\ (length (inputs sampler) <= length (outputsVec4 sampler))%nat
    /\ node channel = Some p /\ (p < length h)%nat.


(** ** The local transform against reference matrices *)

(** A proper binary32 number: a zero, or a finite value in canonical
    form; no infinity and no NaN. *)
Definition finite32 (x : float) : Prop :=
  match x with
  | S754_zero _ => True
  | S754_finite _ m e => bounded F32.prec F32.emax m e = true
  | _ => False
  end.

Definition finite3 (v : vec3) : Prop :=
  finite32 (x3 v) /\ finite32 (y3 v) /\ finite32 (z3 v).

(** Equal as numbers: the same binary32 value, the sign of a zero
    apart (what [==] tests, with NaN equal to itself). *)
Definition same_number (x y : float) : Prop :=
  x = y \/ exists s s', x = S754_zero s /\ y = S754_zero s'.

Definition same_vec4 (a b : vec4) : Prop :=
  same_number (x4 a) (x4 b) /\ same_number (y4 a) (y4 b)
  /\ same_number (z4 a) (z4 b) /\ same_number (w4 a) (w4 b).

Definition same_mat4 (a b : mat4) : Prop :=
  same_vec4 (col0 a) (col0 b) /\ same_vec4 (col1 a) (col1 b)
  /\ same_vec4 (col2 a) (col2 b) /\ same_vec4 (col3 a) (col3 b).

(** The three transform matrices as the specification names them,
    written out entry by entry and not through GLM: the translation by
    [t] is the identity with [t] as its last column, the scaling by [s]
    has [s] on the diagonal, and the rotation of a quaternion
    [(w, x, y, z)] is the usual matrix of its sandwich product. Columns
    are listed first to last. *)
Definition translation_matrix (t : vec3) : mat4 :=
  mkMat4 (mkVec4 F32.one F32.zero F32.zero F32.zero)
         (mkVec4 F32.zero F32.one F32.zero F32.zero)
         (mkVec4 F32.zero F32.zero F32.one F32.zero)
         (mkVec4 (x3 t) (y3 t) (z3 t) F32.one).

Definition scale_matrix (s : vec3) : mat4 :=
  mkMat4 (mkVec4 (x3 s) F32.zero F32.zero F32.zero)
         (mkVec4 F32.zero (y3 s) F32.zero F32.zero)
         (mkVec4 F32.zero F32.zero (z3 s) F32.zero)
         (mkVec4 F32.zero F32.zero F32.zero F32.one).

Definition rotation_matrix (q : quat) : mat4 :=
  let '(w, x, y, z) := (qw q, qx q, qy q, qz q) in
  let one := F32.one in
  let two := F32.two in
  mkMat4
    (mkVec4 (one - two * (y * y + z * z))%f32 (two * (x * y + w * z))%f32
            (two * (x * z - w * y))%f32 F32.zero)
    (mkVec4 (two * (x * y - w * z))%f32 (one - two * (x * x + z * z))%f32
            (two * (y * z + w * x))%f32 F32.zero)
    (mkVec4 (two * (x * z + w * y))%f32 (two * (y * z - w * x))%f32
            (one - two * (x * x + y * y))%f32 F32.zero)
    (mkVec4 F32.zero F32.zero F32.zero F32.one).

(** The specification's product, in its order. *)
Definition trs_product (n : Node) : mat4 :=
  mat_mul (mat_mul (mat_mul (translation_matrix (translation n))
                            (rotation_matrix (rotation n)))
                   (scale_matrix (scale n)))
          (matrix n).

(** The same four factors multiplied in the opposite order. *)
Definition srt_product (n : Node) : mat4 :=
  mat_mul (mat_mul (mat_mul (matrix n) (scale_matrix (scale n)))
                   (rotation_matrix (rotation n)))
          (translation_matrix (translation n)).

(** A node with four factors that do not commute: translation
    (1, 2, 3), a half turn about the z axis, scale (2, 3, 4) and a raw
    matrix that translates by (1, 1, 1). *)
Definition turned_node : Node :=
  {| parent := None; children := []; mesh := mkMesh [] None;
     matrix := mkMat4 (vec4_Z 1 0 0 0) (vec4_Z 0 1 0 0) (vec4_Z 0 0 1 0)
                      (vec4_Z 1 1 1 1);
     index := 0;
     translation := vec3_Z 1 2 3; scale := vec3_Z 2 3 4;
     rotation := mkQuat (F32.of_Z 0) (F32.of_Z 0) (F32.of_Z 0) (F32.of_Z 1) |}.

(** * Properties *)

(** ** Outcomes, loops and machine integers *)

Lemma bind_Ok {A B : Type} (m : res A) (k : A -> res B) (b : B) :
  m ≫= k = Ok b -> exists a, m = Ok a /\ k a = Ok b.
Proof. destruct m as [a| |]; simpl; [eauto|discriminate|discriminate]. Qed.

Lemma at_lookup {A : Type} (l : list A) (i : Z) (a : A) :
  at_ l i = Ok a <-> 0 <= i /\ l !! Z.to_nat i = Some a.
Proof.
  unfold at_. destruct (Z.ltb_spec i 0).
  - split; [discriminate|lia].
  - destruct (l !! Z.to_nat i); split; try discriminate.
    + intros [= ->]. auto.
    + intros [_ [= ->]]. reflexivity.
    + intros [_ [=]].
Qed.

Lemma at_nil {A : Type} (i : Z) : at_ (@nil A) i = Undefined.
Proof. unfold at_. by destruct (i <? 0). Qed.

Lemma for_range_S {S : Type} n i (body : Z -> S -> res S) s :
  for_range (Datatypes.S n) i body s = (s' ← body i s; for_range n (i + 1) body s').
Proof. reflexivity. Qed.

Lemma for_range_inv {S : Type} (P : S -> Prop) n i (body : Z -> S -> res S) s s' :
  P s ->
  (forall i s s', P s -> body i s = Ok s' -> P s') ->
  for_range n i body s = Ok s' -> P s'.
Proof.
  intros Hs Hbody. revert i s Hs.
  induction n as [|n IH]; intros i s Hs Hrun.
  - by injection Hrun as <-.
  - rewrite for_range_S in Hrun. apply bind_Ok in Hrun as (s1 & H1 & Hrun).
    apply (IH (i + 1) s1); [by apply (Hbody i s)|done].
Qed.

Lemma foldM_inv {A S : Type} (P : S -> Prop) (f : S -> A -> res S) l s s' :
  P s ->
  (forall s a s', a ∈ l -> P s -> f s a = Ok s' -> P s') ->
  foldM f l s = Ok s' -> P s'.
Proof.
  revert s. induction l as [|a l IH]; intros s Hs Hstep Hrun.
  - by injection Hrun as <-.
  - simpl in Hrun. apply bind_Ok in Hrun as (s1 & H1 & Hrun).
    apply (IH s1); [|intros s2 b s3 Hb; apply Hstep; by right|done].
    apply (Hstep s a); [left|done|done].
Qed.

Lemma u32_small z : 0 <= z < 2 ^ 32 -> u32 z = z.
Proof. intros. unfold u32. by apply Z.mod_small. Qed.

Lemma u32_usize z : usize z < 2 ^ 32 -> u32 z = usize z.
Proof.
  intros H. unfold u32, usize in *.
  rewrite <- (Z.mod_mod_divide z (2 ^ 64) (2 ^ 32)) by (by exists (2 ^ 32)).
  apply Z.mod_small. pose proof (Z.mod_pos_bound z (2 ^ 64)). lia.
Qed.

(** [indexCount += static_cast<uint32_t>(accessor.count)] from 0. *)
Lemma u32_count z : u32 (0 + u32 z) = u32 z.
Proof. unfold u32. rewrite Z.add_0_l. apply Z.mod_mod. lia. Qed.


Lemma widen_range x w : 0 <= w <= 32 -> 0 <= x mod 2 ^ w < 2 ^ 32.
Proof.
  intros Hw. assert (0 < 2 ^ w) by (apply Z.pow_pos_nonneg; lia).
  assert (2 ^ w <= 2 ^ 32) by (apply Z.pow_le_mono_r; lia).
  pose proof (Z.mod_pos_bound x (2 ^ w)). lia.
Qed.

(** ** Transforms *)

(** The order shows on [ordered_node]: the origin goes through the raw
    matrix first, to (1, 0, 0), is then scaled to (2, 0, 0) and translated
    last, to (3, 2, 3); the reverse order would give (3, 4, 6). *)
Lemma getLocalMatrix_order :
  mat_mul_vec (getLocalMatrix ordered_node) (vec4_Z 0 0 0 1) = vec4_Z 3 2 3 1.
Proof. vm_compute. reflexivity. Qed.

(** A node created by [loadNode] from a record without transform has the
    all-zero value-initialised quaternion; its local matrix is the
    identity as well. *)
Lemma getLocalMatrix_plain_node parent_ index_ children_ :
  getLocalMatrix (plain_node parent_ index_ children_) = mat4_s F32.one.
Proof. vm_compute. reflexivity. Qed.

Lemma getNodeMatrix_loop_fold h cp anc :
  ancestors h cp anc ->
  forall fuel M, (length anc <= fuel)%nat ->
  getNodeMatrix_loop fuel h cp M
  = Ok (fold_left (fun acc a => mat_mul (getLocalMatrix a) acc) anc M).
Proof.
  induction 1 as [|p n l Hp Hanc IH]; intros fuel M Hfuel.
  - destruct fuel; reflexivity.
  - destruct fuel as [|fuel]; simpl in Hfuel; [lia|].
    simpl. unfold deref. rewrite Hp. simpl.
    apply IH. lia.
Qed.

Lemma worldMatrix_foldr rootFirst n :
  worldMatrix rootFirst n
  = foldr (fun a acc => mat_mul (getLocalMatrix a) acc) (getLocalMatrix n) rootFirst.
Proof. induction rootFirst as [|a l IH]; simpl; congruence. Qed.

Lemma fold_left_worldMatrix anc n :
  fold_left (fun acc a => mat_mul (getLocalMatrix a) acc) anc (getLocalMatrix n)
  = worldMatrix (reverse anc) n.
Proof.
  rewrite worldMatrix_foldr. generalize (getLocalMatrix n) as M.
  induction anc as [|a l IH]; intros M; [reflexivity|].
  simpl. rewrite IH, reverse_cons, foldr_app. reflexivity.
Qed.

(** C4. The world matrix returned by [getNodeMatrix] is the node's local
    matrix left-multiplied by the local matrix of each ancestor in turn,
    up to the root: with the ancestors [anc] listed nearest first, the
    result is [root.local * (... * (parent.local * node.local))], and it
    is produced as soon as the fuel covers the length of the parent
    chain. *)
Theorem getNodeMatrix_world h p n anc fuel :
  h !! p = Some n ->
  ancestors h (parent n) anc ->
  (length anc <= fuel)%nat ->
  getNodeMatrix fuel h p = Ok (worldMatrix (reverse anc) n).
Proof.
  intros Hp Hanc Hfuel. unfold getNodeMatrix, deref. rewrite Hp. simpl.
  rewrite (getNodeMatrix_loop_fold _ _ _ Hanc) by done.
  by rewrite fold_left_worldMatrix.
Qed.

(** The chain is what the loader builds from [chain_gltf]. *)
Lemma loadglTFFile_chain :
  heap ∘ model <$> (match loadglTFFile 3 chain_gltf with
                    | Ok st => Some st
                    | _ => None
                    end) = Some chain_heap.
Proof. vm_compute. reflexivity. Qed.

Lemma getNodeMatrix_world_witness :
  getNodeMatrix 2 chain_heap 2
  = Ok (worldMatrix [chain_root; chain_child] chain_grandchild)
  /\ mat_mul_vec (worldMatrix [chain_root; chain_child] chain_grandchild)
       (vec4_Z 0 0 0 1) = vec4_Z 1 1 1 1.
Proof.
  split.
  - apply (getNodeMatrix_world chain_heap 2 chain_grandchild
             [chain_child; chain_root] 2).
    + reflexivity.
    + apply (ancestors_step chain_heap 1 chain_child); [reflexivity|].
      apply (ancestors_step chain_heap 0 chain_root); [reflexivity|].
      apply ancestors_root.
    + simpl. lia.
  - vm_compute. reflexivity.
Defined.

(** ** Node lookup *)

Lemma first_with_index_app i l1 l2 :
  first_with_index i (l1 ++ l2)
  = match first_with_index i l1 with
    | Some p => Some p
    | None => first_with_index i l2
    end.
Proof.
  induction l1 as [|[p j] l1 IH]; simpl; [reflexivity|].
  destruct (j =? i); [reflexivity|exact IH].
Qed.

Lemma first_with_index_Some i l p :
  first_with_index i l = Some p -> (p, i) ∈ l.
Proof.
  induction l as [|[q j] l IH]; simpl; [discriminate|].
  destruct (Z.eqb_spec j i) as [->|Hne].
  - intros [= ->]. left.
  - intros H. right. auto.
Qed.

Lemma first_with_index_None i l :
  first_with_index i l = None <-> forall p, (p, i) ∉ l.
Proof.
  induction l as [|[q j] l IH]; simpl.
  - split; [intros _ p Hp; inversion Hp|reflexivity].
  - destruct (Z.eqb_spec j i) as [->|Hne].
    + split; [discriminate|]. intros H. destruct (H q). left.
    + rewrite IH. split.
      * intros H p Hp. apply elem_of_cons in Hp as [[= -> ->]|Hp]; [done|].
        by apply (H p).
      * intros H p Hp. apply (H p). by right.
Qed.

Lemma findNode_preorder t :
  forall h p, shape h p t ->
  forall fuel i, (depth t <= fuel)%nat ->
  findNode fuel h p i = Ok (first_with_index i (preorder t)).
Proof.
  induction t as [q ix kids IH] using tree_ind_nested.
  intros h p Hshape fuel i Hfuel.
  inversion Hshape as [p' n kids' Hp Hkids]; subst.
  destruct fuel as [|fuel]; simpl in Hfuel; [lia|].
  simpl. unfold deref. rewrite Hp. simpl.
  destruct (index n =? i); [reflexivity|].
  assert (Hd : (foldr (fun k d => Nat.max (depth k) d) O kids <= fuel)%nat) by lia.
  clear Hfuel Hp Hshape.
  revert IH Hd. induction Hkids as [|c k cs ks Hc Hcs IHcs]; intros IH Hd.
  - reflexivity.
  - simpl in Hd. apply Forall_cons in IH as [IHk IHks].
    rewrite (IHk h c Hc fuel i) by lia. simpl.
    rewrite first_with_index_app.
    destruct (first_with_index i (preorder k)); [reflexivity|].
    apply IHcs; [done|lia].
Qed.

Lemma nodeFromIndex_loop_preorder h roots forest :
  Forall2 (shape h) roots forest ->
  forall fuel i, (forest_depth forest <= fuel)%nat ->
  nodeFromIndex_loop fuel h roots i
  = Ok (first_with_index i (forest_nodes forest)).
Proof.
  induction 1 as [|r t rs ts Hr Hrs IH]; intros fuel i Hfuel.
  - reflexivity.
  - unfold forest_depth in Hfuel. simpl in Hfuel.
    simpl. rewrite (findNode_preorder t h r Hr) by lia. simpl.
    unfold forest_nodes. simpl. rewrite first_with_index_app.
    destruct (first_with_index i (preorder t)); [reflexivity|].
    apply IH. unfold forest_depth. lia.
Qed.

Lemma shape_preorder_index h t :
  forall p, shape h p t ->
  forall q j, (q, j) ∈ preorder t ->
  exists n, h !! q = Some n /\ index n = j.
Proof.
  induction t as [r ix kids IH] using tree_ind_nested.
  intros p Hshape q j Hin.
  inversion Hshape as [p' n kids' Hp Hkids]; subst.
  simpl in Hin. apply elem_of_cons in Hin as [[= -> ->]|Hin]; [eauto|].
  clear Hp Hshape.
  induction Hkids as [|c k cs ks Hc Hcs IHcs]; simpl in Hin.
  - inversion Hin.
  - apply Forall_cons in IH as [IHk IHks].
    apply elem_of_app in Hin as [Hin|Hin]; eauto.
Qed.

Lemma shape_forest_index h roots forest :
  Forall2 (shape h) roots forest ->
  forall q j, (q, j) ∈ forest_nodes forest ->
  exists n, h !! q = Some n /\ index n = j.
Proof.
  unfold forest_nodes.
  induction 1 as [|r t rs ts Hr Hrs IH]; intros q j Hin; simpl in Hin.
  - inversion Hin.
  - apply elem_of_app in Hin as [Hin|Hin]; [|eauto].
    eapply shape_preorder_index; eauto.
Qed.

(** C10. On a model whose [nodes] and [children] vectors span the forest
    [forest], and with fuel covering its depth, [nodeFromIndex i] returns
    the first node with index field [i] in the order: roots in order, each
    subtree depth-first, parent before children. So the node it returns
    has index field [i], it returns a node whenever the forest holds one
    with index [i], and it returns null when the forest holds none. *)
Theorem nodeFromIndex_spec m forest i fuel :
  Forall2 (shape (heap m)) (nodes m) forest ->
  (forest_depth forest <= fuel)%nat ->
  exists r,
    nodeFromIndex fuel m i = Ok r
    /\ r = first_with_index i (forest_nodes forest)
    /\ (forall p, r = Some p ->
          (p, i) ∈ forest_nodes forest
          /\ exists n, heap m !! p = Some n /\ index n = i)
    /\ ((exists p, (p, i) ∈ forest_nodes forest) -> is_Some r)
    /\ ((forall p, (p, i) ∉ forest_nodes forest) -> r = None).
Proof.
  intros Hshape Hfuel.
  exists (first_with_index i (forest_nodes forest)).
  split; [|split; [reflexivity|split; [|split]]].
  - unfold nodeFromIndex. by apply nodeFromIndex_loop_preorder.
  - intros p Hp. apply first_with_index_Some in Hp. split; [done|].
    eapply shape_forest_index; eauto.
  - intros [p Hp].
    destruct (first_with_index i (forest_nodes forest)) eqn:E; [eauto|].
    rewrite first_with_index_None in E. by destruct (E p).
  - intros H. by apply first_with_index_None.
Qed.

Lemma shape_intro h p n i kids :
  h !! p = Some n -> index n = i ->
  Forall2 (shape h) (children n) kids ->
  shape h p (Tree p i kids).
Proof. intros Hp <- Hk. by apply shape_node. Qed.

Ltac shape_tac :=
  repeat first
    [ apply Forall2_nil_2
    | apply Forall2_cons_2
    | eapply shape_intro; [reflexivity|reflexivity|simpl] ].

Lemma loadglTFFile_forest :
  model <$> (match loadglTFFile 2 forest_gltf with
             | Ok st => Some st
             | _ => None
             end) = Some forest_model.
Proof. vm_compute. reflexivity. Qed.

Lemma nodeFromIndex_spec_witness :
  nodeFromIndex 2 forest_model 4 = Ok (Some 4%nat)
  /\ nodeFromIndex 2 forest_model 7 = Ok None.
Proof.
  assert (Hshape : Forall2 (shape (heap forest_model)) (nodes forest_model)
                     forest_trees) by (simpl; shape_tac).
  split.
  - destruct (nodeFromIndex_spec forest_model forest_trees 4 2 Hshape)
      as (r & -> & -> & _); [simpl; lia|reflexivity].
  - destruct (nodeFromIndex_spec forest_model forest_trees 7 2 Hshape)
      as (r & -> & -> & _); [simpl; lia|reflexivity].
Defined.

(** ** Geometry assembly *)

Lemma normalize3_zero : normalize3 (vec3_s F32.zero) = nan3.
Proof. vm_compute. reflexivity. Qed.

Lemma appendVertices_no_normal positionBuffer texCoordsBuffer vertexCount vb vb' :
  appendVertices positionBuffer None texCoordsBuffer vertexCount vb = Ok vb' ->
  exists new, vb' = vb ++ new /\ Forall (fun v => normal v = nan3) new.
Proof.
  unfold appendVertices.
  apply (for_range_inv
           (fun s => exists new, s = vb ++ new /\ Forall (fun v => normal v = nan3) new)).
  - exists []. by rewrite app_nil_r.
  - intros i s s' (new & -> & Hnew) Hbody.
    apply bind_Ok in Hbody as (p & _ & Hbody). simpl in Hbody.
    apply bind_Ok in Hbody as (t & _ & Hbody).
    injection Hbody as <-.
    eexists (new ++ [_]). rewrite <- (assoc_L (++)). split; [reflexivity|].
    apply Forall_app. split; [done|].
    apply Forall_singleton. simpl. apply normalize3_zero.
Qed.

Lemma attribute_None input glTFPrimitive semantic :
  tinygltf.attributes glTFPrimitive !! semantic = None ->
  attribute input glTFPrimitive semantic = Ok None.
Proof. intros H. unfold attribute. by rewrite H. Qed.

(** C7. For a primitive without NORMAL the loader passes the zero
    default through [glm::normalize], which divides by the zero length:
    every vertex the primitive adds has normal (NaN, NaN, NaN), not
    (0, 0, 0). *)
Theorem loadPrimitive_missing_normal input node glTFPrimitive st r :
  tinygltf.attributes glTFPrimitive !! "NORMAL" = None ->
  loadPrimitive input node glTFPrimitive st = Ok r ->
  exists new,
    vertexBuffer (flow_state r) = vertexBuffer st ++ new
    /\ Forall (fun v => normal v = nan3) new.
Proof.
  intros Hnormal Hrun. unfold loadPrimitive in Hrun.
  apply bind_Ok in Hrun as (position & _ & Hrun).
  rewrite (attribute_None _ _ _ Hnormal) in Hrun. simpl in Hrun.
  apply bind_Ok in Hrun as (texCoords & _ & Hrun).
  apply bind_Ok in Hrun as (vb & Hvb & Hrun).
  apply appendVertices_no_normal in Hvb.
  apply bind_Ok in Hrun as (accessor & _ & Hrun).
  destruct (index_width _) as [w|].
  - apply bind_Ok in Hrun as (ib & _ & Hrun).
    apply bind_Ok in Hrun as (h & _ & Hrun).
    by injection Hrun as <-.
  - by injection Hrun as <-.
Qed.

Lemma loadPrimitive_missing_normal_witness :
  exists r new,
    loadPrimitive bare_gltf 0 bare_primitive first_node_state = Ok r
    /\ vertexBuffer (flow_state r) = vertexBuffer first_node_state ++ new
    /\ Forall (fun v => normal v = nan3) new
    /\ length new = 3%nat.
Proof.
  assert (Hrun : exists r,
    loadPrimitive bare_gltf 0 bare_primitive first_node_state = Ok r
    /\ length (vertexBuffer (flow_state r)) = 3%nat).
  { eexists. split; [vm_compute; reflexivity|reflexivity]. }
  destruct Hrun as (r & Hrun & Hlen). exists r.
  destruct (loadPrimitive_missing_normal bare_gltf 0 bare_primitive
              first_node_state r) as (new & Hvb & Hnan); [reflexivity|exact Hrun|].
  exists new. rewrite Hvb in Hlen. simpl in Hlen. rewrite Hvb. auto.
Defined.

Lemma appendIndices_loop (f : Z -> Z) (l : list Z) n :
  forall (i : nat) ib ib',
  for_range n (Z.of_nat i)
    (fun index ib => x ← at_ l index; Ok (ib ++ [f x])) ib = Ok ib' ->
  ib' = ib ++ (f <$> take n (drop i l)) /\ length (take n (drop i l)) = n.
Proof.
  induction n as [|n IH]; intros i ib ib' Hrun.
  - injection Hrun as <-. by rewrite take_0, app_nil_r.
  - rewrite for_range_S in Hrun. apply bind_Ok in Hrun as (ib1 & H1 & Hrun).
    apply bind_Ok in H1 as (x & Hx & H1). injection H1 as <-.
    apply at_lookup in Hx as [_ Hx]. rewrite Nat2Z.id in Hx.
    replace (Z.of_nat i + 1) with (Z.of_nat (S i)) in Hrun by lia.
    apply IH in Hrun as [-> Hlen].
    rewrite (drop_S _ _ _ Hx). simpl. rewrite Hlen.
    by rewrite <- (assoc_L (++)).
Qed.

Lemma appendIndices_spec w accessor vertexStart ib ib' :
  appendIndices w accessor vertexStart ib = Ok ib' ->
  let n := Z.to_nat (usize (tinygltf.count accessor)) in
  ib' = ib ++ ((fun x => u32 (x mod 2 ^ w + vertexStart))
               <$> take n (tinygltf.uints accessor))
  /\ length (take n (tinygltf.uints accessor)) = n.
Proof.
  intros Hrun n. unfold appendIndices in Hrun.
  apply (appendIndices_loop (fun x => u32 (x mod 2 ^ w + vertexStart))
           (tinygltf.uints accessor) n O) in Hrun.
  by rewrite drop_0 in Hrun.
Qed.

Lemma index_width_bound componentType w :
  index_width componentType = Some w -> 0 <= w <= 32.
Proof.
  unfold index_width.
  repeat (destruct (_ =? _)); intros [= <-] || discriminate; lia.
Qed.



Lemma grows_refl st : grows st st.
Proof. by split. Qed.

Lemma grows_trans st1 st2 st3 : grows st1 st2 -> grows st2 st3 -> grows st1 st3.
Proof. intros [] []. split; by etrans. Qed.

Lemma appendVertices_prefix pb nb tb vertexCount vb vb' :
  appendVertices pb nb tb vertexCount vb = Ok vb' -> vb `prefix_of` vb'.
Proof.
  unfold appendVertices.
  apply (for_range_inv (fun s => vb `prefix_of` s)); [done|].
  intros i s s' Hs Hbody.
  apply bind_Ok in Hbody as (p & _ & Hbody).
  apply bind_Ok in Hbody as (n & _ & Hbody).
  apply bind_Ok in Hbody as (t & _ & Hbody).
  injection Hbody as <-. etrans; [exact Hs|]. by apply prefix_app_r.
Qed.

Lemma loadPrimitive_grows input node glTFPrimitive st r :
  loadPrimitive input node glTFPrimitive st = Ok r -> grows st (flow_state r).
Proof.
  intros Hrun. unfold loadPrimitive in Hrun.
  apply bind_Ok in Hrun as (position & _ & Hrun).
  apply bind_Ok in Hrun as (normals & _ & Hrun).
  apply bind_Ok in Hrun as (texCoords & _ & Hrun).
  apply bind_Ok in Hrun as (vb & Hvb & Hrun).
  apply appendVertices_prefix in Hvb.
  apply bind_Ok in Hrun as (accessor & _ & Hrun).
  destruct (index_width _) as [w|].
  - apply bind_Ok in Hrun as (ib & Hib & Hrun).
    apply bind_Ok in Hrun as (h & _ & Hrun).
    injection Hrun as <-. apply appendIndices_spec in Hib as [-> _].
    split; simpl; [by apply prefix_app_r|done].
  - injection Hrun as <-. by split.
Qed.

Lemma loadPrimitives_grows input node l :
  forall st r, loadPrimitives input node l st = Ok r -> grows st (flow_state r).
Proof.
  induction l as [|glTFPrimitive l IH]; intros st r Hrun.
  - injection Hrun as <-. apply grows_refl.
  - simpl in Hrun. apply bind_Ok in Hrun as (r1 & H1 & Hrun).
    apply loadPrimitive_grows in H1.
    destruct r1 as [st1|st1]; simpl in *.
    + apply IH in Hrun. by eapply grows_trans.
    + by injection Hrun as <-.
Qed.

Lemma loadNode_S fuel input inputNode parent_ nodeIndex st :
  loadNode (S fuel) input inputNode parent_ nodeIndex st
  = (n ← newNode inputNode parent_ nodeIndex;
     st1 ← loadChildren fuel input inputNode (length (heap (model st)))
              (allocNode n st);
     r ← loadMesh input inputNode (length (heap (model st))) st1;
     match r with
     | Return st2 => Ok st2
     | Continue st2 =>
         m ← attachNode parent_ (length (heap (model st))) (model st2);
         Ok (set_model m st2)
     end).
Proof. reflexivity. Qed.

(** X4. Whatever [loadNode] appends, it appends at the end: the buffers of
    the state it starts from are prefixes of those it returns. *)
Lemma loadNode_grows input fuel :
  forall inputNode parent_ idx st st',
  loadNode fuel input inputNode parent_ idx st = Ok st' -> grows st st'.
Proof.
  induction fuel as [|f IH]; intros inputNode parent_ idx st st' Hrun;
    [discriminate|].
  rewrite loadNode_S in Hrun.
  apply bind_Ok in Hrun as (n0 & _ & Hrun).
  apply bind_Ok in Hrun as (st1 & Hch & Hrun).
  apply bind_Ok in Hrun as (r & Hmesh & Hrun).
  assert (H1 : grows st st1).
  { unfold loadChildren in Hch. revert Hch.
    apply (foldM_inv (grows st)); [by split|].
    intros s child s' _ Hs Hstep.
    apply bind_Ok in Hstep as (childNode & _ & Hstep).
    apply IH in Hstep. by eapply grows_trans. }
  assert (H2 : grows st1 (flow_state r)).
  { unfold loadMesh in Hmesh. destruct (_ >? _).
    - apply bind_Ok in Hmesh as (mesh_ & _ & Hmesh).
      by apply loadPrimitives_grows in Hmesh.
    - injection Hmesh as <-. apply grows_refl. }
  destruct r as [st2|st2]; simpl in H2.
  - apply bind_Ok in Hrun as (m & _ & Hrun). injection Hrun as <-.
    by apply (grows_trans _ st1).
  - injection Hrun as <-. by apply (grows_trans _ st1).
Qed.

(** ** Load errors *)

Lemma untouched_except_refl node m : untouched_except node m m.
Proof. by repeat split. Qed.

Lemma untouched_except_trans node m1 m2 m3 :
  untouched_except node m1 m2 -> untouched_except node m2 m3 ->
  untouched_except node m1 m3.
Proof.
  intros (? & ? & ? & ? & H12) (? & ? & ? & ? & H23).
  repeat split; try congruence.
  intros q Hq. rewrite H23, H12; done.
Qed.

Lemma loadPrimitive_frame input node glTFPrimitive st r :
  loadPrimitive input node glTFPrimitive st = Ok r ->
  untouched_except node (model st) (model (flow_state r))
  /\ match r with
     | Continue st' => console (model st') = console (model st)
     | Return st' =>
         heap (model st') = heap (model st)
         /\ indexBuffer st' = indexBuffer st
         /\ exists accessor,
              at_ (tinygltf.accessors input) (tinygltf.indices glTFPrimitive)
              = Ok accessor
              /\ index_width (tinygltf.componentType accessor) = None
              /\ console (model st')
                 = console (model st)
                   ++ [IndexComponentTypeNotSupported
                         (tinygltf.componentType accessor)]
     end.
Proof.
  intros Hrun. unfold loadPrimitive in Hrun.
  apply bind_Ok in Hrun as (position & _ & Hrun).
  apply bind_Ok in Hrun as (normals & _ & Hrun).
  apply bind_Ok in Hrun as (texCoords & _ & Hrun).
  apply bind_Ok in Hrun as (vb & _ & Hrun).
  apply bind_Ok in Hrun as (accessor & Hacc & Hrun).
  destruct (index_width _) as [w|] eqn:Hw.
  - apply bind_Ok in Hrun as (ib & _ & Hrun).
    apply bind_Ok in Hrun as (h & Hh & Hrun).
    injection Hrun as <-. simpl. split; [|done].
    unfold write in Hh. apply bind_Ok in Hh as (n & Hn & Hh).
    injection Hh as <-.
    repeat split; simpl.
    + apply length_insert.
    + intros q Hq. by apply list_lookup_insert_ne.
  - injection Hrun as <-. simpl. split; [by repeat split|].
    split; [done|split; [done|]]. by exists accessor.
Qed.

Lemma loadPrimitives_Return input node l :
  forall st st', loadPrimitives input node l st = Ok (Return st') ->
  untouched_except node (model st) (model st')
  /\ exists componentType,
       index_width componentType = None
       /\ console (model st')
          = console (model st) ++ [IndexComponentTypeNotSupported componentType].
Proof.
  induction l as [|glTFPrimitive l IH]; intros st st' Hrun; [discriminate|].
  simpl in Hrun. apply bind_Ok in Hrun as (r & Hr & Hrun).
  apply loadPrimitive_frame in Hr as [Hframe Hr].
  destruct r as [st1|st1]; simpl in *.
  - apply IH in Hrun as [Hframe' (ct & Hct & Hcon)].
    split; [by eapply untouched_except_trans|].
    exists ct. by rewrite Hcon, Hr.
  - injection Hrun as <-. split; [done|].
    destruct Hr as (_ & _ & accessor & _ & Hw & Hcon). eauto.
Qed.

(** C5 does not hold: none of the three conditions aborts the load.
    The load completes on [degraded_gltf], which has all three
    conditions: one report is printed, the node with the unsupported
    index type is left out while its vertices stay in the vertex buffer,
    the primitive without POSITION is loaded with indices and no vertex,
    the channel without target gets a null node, and the two other nodes
    are presented for rendering. *)
Lemma loadglTFFile_degraded :
  exists st,
    loadglTFFile 1 degraded_gltf = Ok st
    /\ console (model st) = [IndexComponentTypeNotSupported 5126]
    /\ nodes (model st) = [1; 2]%nat
    /\ linearMeshNodes (model st) = [1; 2]%nat
    /\ length (vertexBuffer st) = 6%nat
    /\ indexBuffer st = [3; 4; 5; 6; 7; 8]
    /\ (fun a => node <$> channels a) <$> animations (model st) = [[None]].
Proof.
  eexists. split; [vm_compute; reflexivity|]. repeat split.
Qed.

(** C5, amended. None of the three conditions aborts the load.
    - An index accessor of an unsupported component type makes the
      primitive loop return out of [loadNode]: the call completes, one
      message is printed, and the node is attached nowhere (root list,
      mesh-node list and every other node are as the children left them).
    - A primitive without POSITION adds no vertex and prints nothing.
    - A channel whose target index matches no node is stored with a null
      node. *)
Theorem load_conditions_not_fatal :
  (forall fuel input inputNode parent_ nodeIndex st n st1 st2,
     newNode inputNode parent_ nodeIndex = Ok n ->
     loadChildren fuel input inputNode (length (heap (model st))) (allocNode n st)
     = Ok st1 ->
     loadMesh input inputNode (length (heap (model st))) st1 = Ok (Return st2) ->
     loadNode (S fuel) input inputNode parent_ nodeIndex st = Ok st2
     /\ untouched_except (length (heap (model st))) (model st1) (model st2)
     /\ exists componentType,
          index_width componentType = None
          /\ console (model st2)
             = console (model st1)
               ++ [IndexComponentTypeNotSupported componentType])
  /\ (forall input node_ glTFPrimitive st accessor r,
        at_ (tinygltf.accessors input) (tinygltf.indices glTFPrimitive)
        = Ok accessor ->
        index_width (tinygltf.componentType accessor) = None ->
        loadPrimitive input node_ glTFPrimitive st = Ok r ->
        exists st', r = Return st')
  /\ (forall input node_ glTFPrimitive st r,
        tinygltf.attributes glTFPrimitive !! "POSITION" = None ->
        loadPrimitive input node_ glTFPrimitive st = Ok r ->
        vertexBuffer (flow_state r) = vertexBuffer st
        /\ forall st', r = Continue st' ->
                       console (model st') = console (model st))
  /\ (forall fuel m glTFAnimation j a glTFChannel c,
        at_ (tinygltf.channels glTFAnimation) j = Ok glTFChannel ->
        at_ (channels a) j = Ok c ->
        nodeFromIndex fuel m (u32 (tinygltf.target_node glTFChannel)) = Ok None ->
        loadChannel fuel m glTFAnimation j a
        = Ok (set_channels
                (<[Z.to_nat j := {| path := tinygltf.target_path glTFChannel;
                                    node := None;
                                    samplerIndex := u32 (tinygltf.sampler glTFChannel) |}]>
                   (channels a)) a)).
Proof.
  split; [|split; [|split]].
  - intros fuel input inputNode parent_ nodeIndex st n st1 st2 Hn Hch Hmesh.
    split.
    + rewrite loadNode_S, Hn. simpl. rewrite Hch. simpl. by rewrite Hmesh.
    + unfold loadMesh in Hmesh.
      destruct (tinygltf.mesh inputNode >? -1); [|discriminate].
      apply bind_Ok in Hmesh as (mesh_ & _ & Hmesh).
      by apply loadPrimitives_Return in Hmesh.
  - intros input node_ glTFPrimitive st accessor r Hacc Hw Hrun.
    unfold loadPrimitive in Hrun.
    apply bind_Ok in Hrun as (position & _ & Hrun).
    apply bind_Ok in Hrun as (normals & _ & Hrun).
    apply bind_Ok in Hrun as (texCoords & _ & Hrun).
    apply bind_Ok in Hrun as (vb & _ & Hrun).
    rewrite Hacc in Hrun. simpl in Hrun. rewrite Hw in Hrun.
    injection Hrun as <-. eauto.
  - intros input node_ glTFPrimitive st r Hpos Hrun.
    apply loadPrimitive_frame in Hrun as Hframe. destruct Hframe as [_ Hcon].
    split; [|by intros st' ->].
    unfold loadPrimitive in Hrun.
    rewrite (attribute_None _ _ _ Hpos) in Hrun. simpl in Hrun.
    apply bind_Ok in Hrun as (normals & _ & Hrun).
    apply bind_Ok in Hrun as (texCoords & _ & Hrun).
    apply bind_Ok in Hrun as (accessor & _ & Hrun).
    destruct (index_width _) as [w|].
    + apply bind_Ok in Hrun as (ib & _ & Hrun).
      apply bind_Ok in Hrun as (h & _ & Hrun).
      by injection Hrun as <-.
    + by injection Hrun as <-.
  - intros fuel m glTFAnimation j a glTFChannel c Hg Hc Hfind.
    unfold loadChannel. rewrite Hg. simpl. rewrite Hc. simpl.
    by rewrite Hfind.
Qed.

Lemma load_conditions_not_fatal_witness :
  exists st2,
    loadNode 1 degraded_gltf (translated [] [] 0) None 0 initial_state = Ok st2
    /\ nodes (model st2) = []
    /\ linearMeshNodes (model st2) = []
    /\ exists componentType,
         index_width componentType = None
         /\ console (model st2) = [IndexComponentTypeNotSupported componentType].
Proof.
  assert (Hmesh : exists st2,
    loadMesh degraded_gltf (translated [] [] 0) 0
      (allocNode (plain_node None 0 []) initial_state) = Ok (Return st2)).
  { eexists. vm_compute. reflexivity. }
  destruct Hmesh as [st2 Hmesh]. exists st2.
  destruct (proj1 load_conditions_not_fatal 0%nat degraded_gltf
              (translated [] [] 0) None 0 initial_state
              (plain_node None 0 [])
              (allocNode (plain_node None 0 []) initial_state) st2
              eq_refl eq_refl Hmesh)
    as (Hrun & (Hnodes & Hmeshes & _) & Hcon).
  split; [exact Hrun|]. split; [exact Hnodes|]. split; [exact Hmeshes|].
  exact Hcon.
Defined.

(** ** Well-formedness of loaded models *)

Lemma keeps_refl P h : keeps P h h.
Proof. intros a n _ Hn. eauto. Qed.

Lemma keeps_trans (P : ptr -> Prop) h1 h2 h3 :
  keeps P h1 h2 -> keeps P h2 h3 -> keeps P h1 h3.
Proof.
  intros H12 H23 a n Ha Hn.
  destruct (H12 a n Ha Hn) as (n2 & Hn2 & Ep & Ec & Ei).
  destruct (H23 a n2 Ha Hn2) as (n3 & Hn3 & Ep' & Ec' & Ei').
  exists n3. repeat split; congruence.
Qed.

Lemma keeps_weaken (P Q : ptr -> Prop) h h' :
  (forall a, Q a -> P a) -> keeps P h h' -> keeps Q h h'.
Proof. intros HQP H a n Ha. apply H. auto. Qed.

Lemma shape_keeps t :
  forall h h' p, shape h p t ->
  keeps (fun a => a ∈ (preorder t).*1) h h' ->
  shape h' p t.
Proof.
  induction t as [q ix kids IH] using tree_ind_nested.
  intros h h' p Hshape Hkeep.
  inversion Hshape as [p' n kids' Hp Hkids]; subst.
  destruct (Hkeep q n) as (n' & Hn' & _ & Ec & Ei); [simpl; left|done|].
  rewrite <- Ei. apply shape_node; [done|]. rewrite Ec.
  assert (Hkeep' : keeps (fun a => a ∈ (flat_map preorder kids).*1) h h').
  { eapply keeps_weaken; [|exact Hkeep]. intros a Ha. simpl. by right. }
  clear Hp Hshape Hn' Ec Ei Hkeep.
  induction Hkids as [|c k cs ks Hc Hcs IHcs]; [constructor|].
  apply Forall_cons in IH as [IHk IHks].
  constructor.
  - apply (IHk h); [done|].
    eapply keeps_weaken; [|exact Hkeep']. intros a Ha. simpl.
    rewrite fmap_app. apply elem_of_app. by left.
  - apply IHcs; [done|].
    eapply keeps_weaken; [|exact Hkeep']. intros a Ha. simpl.
    rewrite fmap_app. apply elem_of_app. by right.
Qed.

Lemma shape_lookup h t :
  forall p, shape h p t ->
  forall a, a ∈ (preorder t).*1 -> (a < length h)%nat.
Proof.
  intros p Hshape a Ha.
  apply list_elem_of_fmap in Ha as ([a' i] & -> & Hin).
  destruct (shape_preorder_index h t p Hshape a' i Hin) as (n & Hn & _).
  by apply lookup_lt_Some in Hn.
Qed.

Lemma shape_root h p t : shape h p t -> exists i kids, t = Tree p i kids.
Proof. inversion 1. eauto. Qed.

Lemma newNode_links inputNode parent_ nodeIndex n :
  newNode inputNode parent_ nodeIndex = Ok n ->
  parent n = parent_ /\ children n = [] /\ index n = nodeIndex.
Proof.
  unfold newNode. intros H.
  apply bind_Ok in H as (n1 & H1 & H).
  apply bind_Ok in H as (n2 & H2 & H).
  apply bind_Ok in H as (n3 & H3 & H).
  assert (E1 : parent n1 = parent_ /\ children n1 = [] /\ index n1 = nodeIndex).
  { destruct (_ =? _)%nat; [|by injection H1 as <-].
    apply bind_Ok in H1 as (v & _ & H1). by injection H1 as <-. }
  assert (E2 : parent n2 = parent_ /\ children n2 = [] /\ index n2 = nodeIndex).
  { destruct (_ =? _)%nat in H2; [|by injection H2 as <-].
    apply bind_Ok in H2 as (v & _ & H2). by injection H2 as <-. }
  assert (E3 : parent n3 = parent_ /\ children n3 = [] /\ index n3 = nodeIndex).
  { destruct (_ =? _)%nat in H3; [|by injection H3 as <-].
    apply bind_Ok in H3 as (v & _ & H3). by injection H3 as <-. }
  destruct (_ =? _)%nat in H; [|by injection H as <-].
  apply bind_Ok in H as (v & _ & H). by injection H as <-.
Qed.

Lemma loadPrimitive_keeps input node glTFPrimitive st r :
  loadPrimitive input node glTFPrimitive st = Ok r ->
  keeps (fun _ => True) (heap (model st)) (heap (model (flow_state r)))
  /\ length (heap (model (flow_state r))) = length (heap (model st))
  /\ nodes (model (flow_state r)) = nodes (model st).
Proof.
  intros Hrun. unfold loadPrimitive in Hrun.
  apply bind_Ok in Hrun as (position & _ & Hrun).
  apply bind_Ok in Hrun as (normals & _ & Hrun).
  apply bind_Ok in Hrun as (texCoords & _ & Hrun).
  apply bind_Ok in Hrun as (vb & _ & Hrun).
  apply bind_Ok in Hrun as (accessor & Hacc & Hrun).
  destruct (index_width _) as [w|] eqn:Hw.
  - apply bind_Ok in Hrun as (ib & _ & Hrun).
    apply bind_Ok in Hrun as (h & Hh & Hrun).
    injection Hrun as <-. simpl.
    unfold write in Hh. apply bind_Ok in Hh as (n & Hn & Hh).
    injection Hh as <-.
    unfold deref in Hn. destruct (heap (model st) !! node) as [n0|] eqn:E;
      [|discriminate]. injection Hn as ->.
    split; [|split; [apply length_insert|done]].
    intros a n1 _ Ha. destruct (decide (a = node)) as [->|Hne].
    + pose proof (eq_trans (eq_sym E) Ha) as Heq. injection Heq as <-.
      eexists. split; [apply list_lookup_insert_eq; by apply lookup_lt_Some in E|].
      done.
    + exists n1. by rewrite list_lookup_insert_ne.
  - injection Hrun as <-. simpl. split; [apply keeps_refl|done].
Qed.

Lemma loadPrimitives_keeps input node l :
  forall st r, loadPrimitives input node l st = Ok r ->
  keeps (fun _ => True) (heap (model st)) (heap (model (flow_state r)))
  /\ length (heap (model (flow_state r))) = length (heap (model st))
  /\ nodes (model (flow_state r)) = nodes (model st).
Proof.
  induction l as [|glTFPrimitive l IH]; intros st r Hrun.
  - injection Hrun as <-. simpl. split; [apply keeps_refl|done].
  - simpl in Hrun. apply bind_Ok in Hrun as (r1 & H1 & Hrun).
    apply loadPrimitive_keeps in H1 as (Hk1 & Hl1 & Hn1).
    destruct r1 as [st1|st1]; simpl in *.
    + apply IH in Hrun as (Hk & Hl & Hn).
      split; [by eapply keeps_trans|split; congruence].
    + by injection Hrun as <-.
Qed.

Lemma loadMesh_keeps input inputNode node st r :
  loadMesh input inputNode node st = Ok r ->
  keeps (fun _ => True) (heap (model st)) (heap (model (flow_state r)))
  /\ length (heap (model (flow_state r))) = length (heap (model st))
  /\ nodes (model (flow_state r)) = nodes (model st).
Proof.
  unfold loadMesh. destruct (_ >? _).
  - intros H. apply bind_Ok in H as (mesh_ & _ & H).
    by apply loadPrimitives_keeps in H.
  - intros [= <-]. simpl. split; [apply keeps_refl|done].
Qed.

Lemma attachNode_spec parent_ node m m' :
  attachNode parent_ node m = Ok m' ->
  match parent_ with
  | Some q => exists nq, heap m !! q = Some nq
                         /\ heap m' = <[q := push_child node nq]> (heap m)
                         /\ nodes m' = nodes m
  | None => heap m' = heap m /\ nodes m' = nodes m ++ [node]
  end.
Proof.
  unfold attachNode. intros H. apply bind_Ok in H as (m1 & H1 & H).
  apply bind_Ok in H as (n & _ & H).
  assert (E : heap m' = heap m1 /\ nodes m' = nodes m1).
  { destruct (primitives (mesh n)); by injection H as <-. }
  destruct E as [-> ->]. clear H.
  destruct parent_ as [q|].
  - apply bind_Ok in H1 as (h & Hh & H1). injection H1 as <-.
    unfold write in Hh. apply bind_Ok in Hh as (nq & Hq & Hh).
    injection Hh as <-. unfold deref in Hq.
    destruct (heap m !! q) as [n0|] eqn:E; [|discriminate].
    injection Hq as ->. by exists nq.
  - by injection H1 as <-.
Qed.

Lemma parent_lt_keeps h h' :
  parent_lt h -> keeps (fun _ => True) h h' -> length h' = length h ->
  parent_lt h'.
Proof.
  intros Hlt Hk Hlen a n' q Ha Hq.
  assert (Hin : (a < length h)%nat) by (rewrite <- Hlen; by apply lookup_lt_Some in Ha).
  destruct (lookup_lt_is_Some_2 h a Hin) as [n Hn].
  destruct (Hk a n I Hn) as (n'' & Hn'' & Ep & _).
  pose proof (eq_trans (eq_sym Ha) Hn'') as Heq. injection Heq as <-.
  apply (Hlt a n q Hn). congruence.
Qed.

Lemma parent_lt_snoc h n :
  parent_lt h -> (forall q, parent n = Some q -> (q < length h)%nat) ->
  parent_lt (h ++ [n]).
Proof.
  intros Hlt Hn a n1 q Ha Hq.
  destruct (decide (a < length h)%nat) as [Hin|Hout].
  - rewrite lookup_app_l in Ha by done. by apply (Hlt a n1 q).
  - apply lookup_lt_Some in Ha as Hlen. rewrite length_app in Hlen. simpl in Hlen.
    assert (a = length h) as -> by lia.
    rewrite list_lookup_middle in Ha by done. injection Ha as <-. auto.
Qed.

Lemma parent_lt_insert h q nq n' :
  parent_lt h -> h !! q = Some nq -> parent n' = parent nq ->
  parent_lt (<[q := n']> h).
Proof.
  intros Hlt Hq Hp a n1 r Ha Hr.
  destruct (decide (a = q)) as [->|Hne].
  - rewrite list_lookup_insert_eq in Ha by (by apply lookup_lt_Some in Hq).
    injection Ha as <-. apply (Hlt q nq r Hq). congruence.
  - rewrite list_lookup_insert_ne in Ha by done. by apply (Hlt a n1 r).
Qed.

Lemma tree_ge_mono lo lo' t : (lo <= lo')%nat -> tree_ge lo' t -> tree_ge lo t.
Proof.
  intros Hle Hge. unfold tree_ge in *.
  eapply Forall_impl; [exact Hge|]. intros [a i] Ha. simpl in *. lia.
Qed.

Lemma tree_ge_elem lo t a : tree_ge lo t -> a ∈ (preorder t).*1 -> (lo <= a)%nat.
Proof.
  intros Hge Ha. apply list_elem_of_fmap in Ha as ([a' i] & -> & Hin).
  unfold tree_ge in Hge. rewrite Forall_forall in Hge. by apply (Hge (a', i)).
Qed.

(** Trees keep their shape when the heap changes outside of them. *)
Lemma Forall2_shape_keeps h h' cs ts (P : ptr -> Prop) :
  Forall2 (shape h) cs ts ->
  keeps P h h' ->
  (forall t a, t ∈ ts -> a ∈ (preorder t).*1 -> P a) ->
  Forall2 (shape h') cs ts.
Proof.
  intros Hshape Hk HP. induction Hshape as [|c t cs ts Hc Hcs IH]; [constructor|].
  constructor.
  - apply (shape_keeps t h h' c Hc).
    eapply keeps_weaken; [|exact Hk]. intros a Ha. apply (HP t); [left|done].
  - apply IH. intros t' a Ht'. apply HP. by right.
Qed.

Lemma tree_ge_node p i ts :
  Forall (tree_ge (S p)) ts -> tree_ge p (Tree p i ts).
Proof.
  intros Hts. unfold tree_ge. simpl. constructor; [simpl; lia|].
  induction Hts as [|t ts Ht _ IH]; simpl; [constructor|].
  apply Forall_app. split; [|done].
  eapply Forall_impl; [exact Ht|]. intros [a j] Ha. simpl in *. lia.
Qed.

Lemma loading_alloc st n idx parent_ :
  parent n = parent_ -> children n = [] -> index n = idx ->
  (forall q, parent_ = Some q -> (q < length (heap (model st)))%nat) ->
  loading (heap (model st)) (nodes (model st)) (length (heap (model st)))
    idx parent_ (allocNode n st).
Proof.
  intros Ep Ec Ei Hpre. unfold loading. simpl.
  split; [rewrite length_app; simpl; lia|].
  split; [|split; [|split; [done|]]].
  - intros a n1 Ha Hn1. exists n1. by rewrite lookup_app_l.
  - intros Hlt. apply parent_lt_snoc; [done|]. intros q Hq. apply Hpre. congruence.
  - exists n, []. rewrite list_lookup_middle by done. rewrite Ec.
    repeat split; try done; constructor.
Qed.

Lemma loading_child h0 nodes0 p idx parent_ s s' :
  loading h0 nodes0 p idx parent_ s ->
  loaded (Some p) s s' ->
  loading h0 nodes0 p idx parent_ s'.
Proof.
  intros (Hp & Hk & Hlt & Hnodes & n & ts & Hn & Ei & Ep & Hshape & Hge)
         (Hlen & Hk' & Hlt' & Hnodes' & Hparent).
  unfold loading.
  split; [lia|]. split; [|split; [tauto|split; [congruence|]]].
  - eapply keeps_trans; [exact Hk|].
    eapply keeps_weaken; [|exact Hk']. intros a Ha. simpl.
    split; [lia|]. intros [= ->]. lia.
  - destruct (Hparent n Hn) as (n' & Hn' & Ep' & Ei' & Hc).
    assert (Hold : Forall2 (shape (heap (model s'))) (children n) ts).
    { eapply Forall2_shape_keeps; [exact Hshape|exact Hk'|].
      intros t a Ht Ha. simpl.
      assert (Hg : tree_ge (S p) t) by (rewrite Forall_forall in Hge; auto).
      pose proof (tree_ge_elem _ _ _ Hg Ha).
      assert (Hc' : exists c, shape (heap (model s)) c t).
      { apply list_elem_of_lookup in Ht as [k Hk0].
        destruct (Forall2_lookup_r _ _ _ _ _ Hshape Hk0) as (c & _ & Hc'). eauto. }
      destruct Hc' as [c Hc'].
      pose proof (shape_lookup _ _ _ Hc' a Ha).
      split; [done|]. intros [= ->]. lia. }
    destruct Hc as [Hc|(Hc & t & Ht & Hgt)].
    + exists n', ts. rewrite Hc. repeat split; try congruence; done.
    + exists n', (ts ++ [t]). rewrite Hc.
      repeat split; try congruence.
      * apply Forall2_app; [done|]. by constructor.
      * apply Forall_app. split; [done|]. constructor; [|constructor].
        eapply tree_ge_mono; [|exact Hgt]. lia.
Qed.

Lemma loading_keeps h0 nodes0 p idx parent_ s s' :
  loading h0 nodes0 p idx parent_ s ->
  keeps (fun _ => True) (heap (model s)) (heap (model s')) ->
  length (heap (model s')) = length (heap (model s)) ->
  nodes (model s') = nodes (model s) ->
  loading h0 nodes0 p idx parent_ s'.
Proof.
  intros (Hp & Hk & Hlt & Hnodes & n & ts & Hn & Ei & Ep & Hshape & Hge)
         Hk' Hlen Hnodes'.
  unfold loading. split; [lia|].
  split; [|split; [|split; [congruence|]]].
  - eapply keeps_trans; [exact Hk|]. eapply keeps_weaken; [|exact Hk']. done.
  - intros H0. apply (parent_lt_keeps (heap (model s))); auto.
  - destruct (Hk' p n I Hn) as (n' & Hn' & Ep' & Ec' & Ei').
    exists n', ts. rewrite Ec'. repeat split; try congruence; try done.
    eapply Forall2_shape_keeps; [exact Hshape|exact Hk'|done].
Qed.

Lemma loading_return st idx parent_ s :
  (forall q, parent_ = Some q -> (q < length (heap (model st)))%nat) ->
  loading (heap (model st)) (nodes (model st)) (length (heap (model st)))
    idx parent_ s ->
  loaded parent_ st s.
Proof.
  intros Hpre (Hp & Hk & Hlt & Hnodes & _).
  unfold loaded. split; [done|]. split; [|split; [done|]].
  - eapply keeps_weaken; [|exact Hk]. by intros a [Ha _].
  - destruct parent_ as [q|]; [|by left].
    split; [done|]. intros n Hn.
    destruct (Hk q n (Hpre q eq_refl) Hn) as (n' & Hn' & Ep & Ec & Ei).
    exists n'. repeat split; auto.
Qed.

Lemma loading_attach st idx parent_ s m :
  (forall q, parent_ = Some q -> (q < length (heap (model st)))%nat) ->
  loading (heap (model st)) (nodes (model st)) (length (heap (model st)))
    idx parent_ s ->
  attachNode parent_ (length (heap (model st))) (model s) = Ok m ->
  loaded parent_ st (set_model m s).
Proof.
  intros Hpre (Hp & Hk & Hlt & Hnodes & n & ts & Hn & Ei & Ep & Hshape & Hge) Hatt.
  apply attachNode_spec in Hatt.
  set (p := length (heap (model st))) in *.
  unfold loaded. fold p. simpl.
  destruct parent_ as [q|].
  - destruct Hatt as (nq & Hq & -> & Hnodes').
    pose proof (Hpre q eq_refl) as Hqp. fold p in Hqp.
    assert (Hshape' : shape (<[q:=push_child p nq]> (heap (model s))) p
                        (Tree p (index n) ts)).
    { apply shape_node; [rewrite list_lookup_insert_ne by lia; done|].
      eapply (Forall2_shape_keeps _ _ _ _ (fun a => a <> q)); [exact Hshape| |].
      - intros a n1 Ha Hn1. exists n1. by rewrite list_lookup_insert_ne.
      - intros t a Ht Ha.
        assert (Hg : tree_ge (S p) t) by (rewrite Forall_forall in Hge; auto).
        pose proof (tree_ge_elem _ _ _ Hg Ha). lia. }
    split; [by rewrite length_insert|].
    split; [|split; [|split; [congruence|]]].
    + intros a n1 [Ha Hne] Hn1.
      destruct (Hk a n1 Ha Hn1) as (n' & Hn' & E).
      exists n'. rewrite list_lookup_insert_ne by (by intros ->). done.
    + intros H0. eapply parent_lt_insert; [by apply Hlt|exact Hq|done].
    + intros n0 Hn0.
      destruct (Hk q n0 Hqp Hn0) as (n' & Hn' & Ep' & Ec' & Ei').
      pose proof (eq_trans (eq_sym Hq) Hn') as Heq. injection Heq as <-.
      exists (push_child p nq).
      rewrite list_lookup_insert_eq by (by apply lookup_lt_Some in Hq).
      repeat split; try done. right. simpl. rewrite Ec'. split; [done|].
      exists (Tree p (index n) ts). split; [done|]. by apply tree_ge_node.
  - destruct Hatt as (-> & Hnodes').
    split; [done|]. split; [|split; [done|]].
    + eapply keeps_weaken; [|exact Hk]. by intros a [Ha _].
    + right. split; [by rewrite Hnodes', Hnodes|].
      exists (Tree p (index n) ts). split; [by apply shape_node|].
      by apply tree_ge_node.
Qed.

Lemma loadNode_loaded input fuel :
  forall inputNode parent_ idx st st',
  (forall q, parent_ = Some q -> (q < length (heap (model st)))%nat) ->
  loadNode fuel input inputNode parent_ idx st = Ok st' ->
  loaded parent_ st st'.
Proof.
  induction fuel as [|f IH]; intros inputNode parent_ idx st st' Hpre Hrun;
    [discriminate|].
  rewrite loadNode_S in Hrun.
  apply bind_Ok in Hrun as (n0 & Hn0 & Hrun).
  apply bind_Ok in Hrun as (st1 & Hch & Hrun).
  apply bind_Ok in Hrun as (r & Hmesh & Hrun).
  apply newNode_links in Hn0 as (Ep0 & Ec0 & Ei0).
  assert (H1 : loading (heap (model st)) (nodes (model st))
                 (length (heap (model st))) idx parent_ st1).
  { unfold loadChildren in Hch. revert Hch.
    apply (foldM_inv (loading (heap (model st)) (nodes (model st))
                        (length (heap (model st))) idx parent_)).
    - by apply loading_alloc.
    - intros s child s' _ Hs Hstep.
      apply bind_Ok in Hstep as (childNode & _ & Hstep).
      apply (loading_child _ _ _ _ _ s); [done|].
      apply IH in Hstep; [done|]. intros q [= <-]. apply Hs. }
  apply loadMesh_keeps in Hmesh as (Hk & Hlen & Hnodes).
  assert (H2 : loading (heap (model st)) (nodes (model st))
                 (length (heap (model st))) idx parent_ (flow_state r))
    by (by apply (loading_keeps _ _ _ _ _ st1)).
  destruct r as [st2|st2]; simpl in H2.
  - apply bind_Ok in Hrun as (m & Hatt & Hrun). injection Hrun as <-.
    by apply (loading_attach _ idx).
  - injection Hrun as <-. by apply (loading_return _ idx).
Qed.

Lemma loadAnimation_frame fuel input i m m' :
  loadAnimation fuel input i m = Ok m' ->
  heap m' = heap m /\ nodes m' = nodes m /\ linearMeshNodes m' = linearMeshNodes m.
Proof.
  unfold loadAnimation. intros H.
  apply bind_Ok in H as (g & _ & H).
  apply bind_Ok in H as (a & _ & H).
  apply bind_Ok in H as ([a1 out] & _ & H).
  apply bind_Ok in H as (a2 & _ & H).
  by injection H as <-.
Qed.

Lemma loadAnimations_frame fuel input m m' :
  loadAnimations fuel input m = Ok m' ->
  heap m' = heap m /\ nodes m' = nodes m /\ linearMeshNodes m' = linearMeshNodes m.
Proof.
  unfold loadAnimations.
  apply (for_range_inv
           (fun s => heap s = heap m /\ nodes s = nodes m
                     /\ linearMeshNodes s = linearMeshNodes m)); [done|].
  intros i s s' (Eh & En & El) Hstep.
  apply loadAnimation_frame in Hstep as (-> & -> & ->). done.
Qed.

(** Every model that [loadglTFFile] returns is well formed: parents are
    older than their children, and the root list with the [children]
    vectors spans a forest. *)
Theorem loadglTFFile_wellformed fuel input st :
  loadglTFFile fuel input = Ok st ->
  parent_lt (heap (model st))
  /\ exists forest, Forall2 (shape (heap (model st))) (nodes (model st)) forest.
Proof.
  unfold loadglTFFile. intros H.
  apply bind_Ok in H as (scene & _ & H).
  apply bind_Ok in H as (st1 & Hfold & H).
  apply bind_Ok in H as (m & Hanim & H). injection H as <-. simpl.
  apply loadAnimations_frame in Hanim as (-> & -> & _).
  revert Hfold.
  apply (foldM_inv
           (fun s => parent_lt (heap (model s))
                     /\ exists forest,
                          Forall2 (shape (heap (model s))) (nodes (model s)) forest)).
  - split; [by intros a n q Ha|]. exists []. constructor.
  - intros s i s' _ (Hlt & forest & Hforest) Hstep.
    apply bind_Ok in Hstep as (node_ & _ & Hstep).
    apply loadNode_loaded in Hstep as (Hlen & Hk & Hlt' & Hroots); [|done].
    split; [by apply Hlt'|].
    assert (Hold : Forall2 (shape (heap (model s'))) (nodes (model s)) forest).
    { eapply Forall2_shape_keeps; [exact Hforest|exact Hk|].
      intros t a Ht Ha. simpl. split; [|done].
      apply list_elem_of_lookup in Ht as [k Hk0].
      destruct (Forall2_lookup_r _ _ _ _ _ Hforest Hk0) as (c & _ & Hc).
      by apply (shape_lookup _ _ _ Hc). }
    destruct Hroots as [->|(-> & t & Ht & _)]; [by exists forest|].
    exists (forest ++ [t]). apply Forall2_app; [done|]. by constructor.
Qed.

Lemma ancestors_exists h :
  parent_lt h ->
  forall p n, h !! p = Some n ->
  exists anc, ancestors h (parent n) anc /\ (length anc <= p)%nat.
Proof.
  intros Hlt p. induction p as [p IH] using lt_wf_ind. intros n Hn.
  destruct (parent n) as [q|] eqn:Eq.
  - pose proof (Hlt p n q Hn Eq) as Hq.
    destruct (lookup_lt_is_Some_2 h q) as [nq Hnq].
    { apply lookup_lt_Some in Hn. lia. }
    destruct (IH q Hq nq Hnq) as (anc & Hanc & Hlen).
    exists (nq :: anc). split; [by apply (ancestors_step h q nq)|simpl; lia].
  - exists []. split; [constructor|simpl; lia].
Qed.

(** X2. On a loaded model [getNodeMatrix] answers for every node, with fuel
    from the node's address on, and [nodeFromIndex] answers for every
    index, with fuel from the depth of the forest on: the forest is the
    one that the root list and the [children] vectors of the model span,
    and the answer is the first node of its pre-order with that index. *)
Corollary loadglTFFile_lookups_total fuel input st :
  loadglTFFile fuel input = Ok st ->
  (forall (p : ptr) n fuel', heap (model st) !! p = Some n -> (p <= fuel')%nat ->
     exists anc,
       ancestors (heap (model st)) (parent n) anc
       /\ getNodeMatrix fuel' (heap (model st)) p
          = Ok (worldMatrix (reverse anc) n))
  /\ exists forest,
       Forall2 (shape (heap (model st))) (nodes (model st)) forest
       /\ forall i fuel', (forest_depth forest <= fuel')%nat ->
            nodeFromIndex fuel' (model st) i
            = Ok (first_with_index i (forest_nodes forest)).
Proof.
  intros Hload. apply loadglTFFile_wellformed in Hload as (Hlt & forest & Hforest).
  split.
  - intros p n fuel' Hn Hfuel.
    destruct (ancestors_exists _ Hlt p n Hn) as (anc & Hanc & Hlen).
    exists anc. split; [done|].
    unfold getNodeMatrix, deref. rewrite Hn. simpl.
    rewrite (getNodeMatrix_loop_fold _ _ _ Hanc) by lia.
    by rewrite fold_left_worldMatrix.
  - exists forest. split; [done|]. intros i fuel' Hfuel. unfold nodeFromIndex.
    by apply nodeFromIndex_loop_preorder.
Qed.

(** ** Animation decode *)

Lemma adjust_start_end_fold ins a :
  start (fold_left adjust_start_end ins a) = fold_left running_min ins (start a)
  /\ end_ (fold_left adjust_start_end ins a) = fold_left running_max ins (end_ a).
Proof.
  revert a. induction ins as [|x ins IH]; intros a; [done|].
  simpl. destruct (IH (adjust_start_end a x)) as [-> ->].
  unfold adjust_start_end, running_min, running_max.
  destruct (F32.lt x (start a)); simpl; destruct (F32.gt x (end_ a)); done.
Qed.

(** The end of an animation never moves while no keyframe time is
    greater than the value it starts from. *)
Lemma adjust_end_below ins a :
  Forall (fun x => F32.gt x (end_ a) = false) ins ->
  end_ (fold_left adjust_start_end ins a) = end_ a.
Proof.
  intros H. destruct (adjust_start_end_fold ins a) as [_ ->].
  induction H as [|x ins Hx _ IH]; [done|].
  simpl. unfold running_max at 2. by rewrite Hx.
Qed.

(** Without any keyframe both fields keep their initial values,
    [numeric_limits<float>::max()] and [numeric_limits<float>::min()]. *)
Lemma adjust_start_end_no_keyframe a :
  fold_left adjust_start_end [] a = a.
Proof. reflexivity. Qed.

(** C8. [end] starts from [std::numeric_limits<float>::min()], the least
    positive normal float and not the lowest one. For the animation of
    [still_gltf], whose only keyframe is at 0.0, the loader leaves
    [end = 1.17549435e-38] while the greatest input time is 0.0 (and
    [start = 0.0], the least one). For the animation of [idle_gltf],
    without keyframes, [start] stays [numeric_limits<float>::max()] and
    [end] stays that small positive number, above [start] of any
    animation that begins at 0.0. *)
Theorem loadAnimations_end_sentinel :
  (exists st,
     loadglTFFile 1 still_gltf = Ok st
     /\ animations (model st) = [still_animation]
     /\ inputs <$> samplers still_animation = [[F32.zero]]
     /\ start still_animation = F32.zero
     /\ end_ still_animation = F32.numeric_limits_min
     /\ F32.gt (end_ still_animation) F32.zero = true)
  /\ (exists st,
        loadglTFFile 1 idle_gltf = Ok st
        /\ (fun a => (start a, end_ a)) <$> animations (model st)
           = [(F32.numeric_limits_max, F32.numeric_limits_min)]
        /\ F32.gt F32.numeric_limits_min F32.zero = true).
Proof.
  split.
  - eexists. split; [vm_compute; reflexivity|]. repeat split.
  - eexists. split; [vm_compute; reflexivity|]. repeat split.
Qed.

(** ** Animation update *)

(** [wrap_model] is what the loader builds from [wrap_gltf]: the range
    of the animation comes out as [0.0, 1.0]. *)
Lemma loadglTFFile_wrap :
  model <$> (match loadglTFFile 1 wrap_gltf with
             | Ok st => Some st
             | _ => None
             end) = Some wrap_model.
Proof. vm_compute. reflexivity. Qed.

(** After a tick of 1.5 from 0.0 on [wrap_model] the clock is at 0.5 and
    the node is half way between the two keyframes. *)
Lemma updateAnimation_wrap_translation :
  exists m',
    updateAnimation no_acos no_sin 0 (F32.of_Z2 3 (-1)) wrap_model = Ok m'
    /\ translation <$> heap m' = [vec3_Z 1 2 3].
Proof. eexists. split; [vm_compute; reflexivity|reflexivity]. Qed.

(** X14. The guard on a non-empty list: a selector at or past the end of the
    animation list is reported and the tick changes nothing else, no
    clock and no node. *)
Lemma updateAnimation_out_of_range acos sin fuel deltaTime m :
  (0 < length (animations m))%nat ->
  Z.of_nat (length (animations m)) <= activeAnimation m ->
  Z.of_nat (length (animations m)) < 2 ^ 32 ->
  updateAnimation acos sin fuel deltaTime m
  = Ok (say (NoAnimationWithIndex (activeAnimation m)) m).
Proof.
  intros Hpos Hge Hlen. unfold updateAnimation.
  rewrite (u32_small (Z.of_nat _)), u32_small by lia.
  by destruct (Z.gtb_spec (activeAnimation m) (Z.of_nat (length (animations m)) - 1));
    [|lia].
Qed.

(** C9. With no animation at all the guard compares the
    selector with [uint32_t(0) - 1 = 4294967295], never fires, and
    [animations[activeAnimation]] reads an empty vector: the tick is
    undefined behaviour instead of a reported no-op. *)
Theorem updateAnimation_empty_list acos sin fuel deltaTime m :
  animations m = [] ->
  activeAnimation m < 2 ^ 32 ->
  updateAnimation acos sin fuel deltaTime m = Undefined.
Proof.
  intros Hnil Hsel. unfold updateAnimation. rewrite Hnil.
  change (u32 (u32 (Z.of_nat (length (@nil Animation))) - 1)) with 4294967295.
  destruct (Z.gtb_spec (activeAnimation m) 4294967295); [lia|].
  by rewrite at_nil.
Qed.

Lemma updateAnimation_empty_list_witness :
  updateAnimation no_acos no_sin 0 (F32.of_Z 1)
    (set_animations [] wrap_model) = Undefined.
Proof.
  apply (updateAnimation_empty_list no_acos no_sin 0 (F32.of_Z 1)
           (set_animations [] wrap_model)); [reflexivity|reflexivity].
Defined.

Lemma updateSegment_no_segment acos sin animation channel sampler (i : nat) h out :
  (S i < length (inputs sampler))%nat ->
  no_segment sampler (currentTime animation) ->
  exists out',
    updateSegment acos sin animation channel sampler (Z.of_nat i) (h, out)
    = Ok (h, out').
Proof.
  intros Hi Hseg. unfold updateSegment.
  destruct (negb (String.eqb (interpolation sampler) "LINEAR")); [by eexists|].
  destruct (lookup_lt_is_Some_2 (inputs sampler) i) as [t0 Ht0]; [lia|].
  destruct (lookup_lt_is_Some_2 (inputs sampler) (S i)) as [t1 Ht1]; [lia|].
  assert (E0 : at_ (inputs sampler) (Z.of_nat i) = Ok t0)
    by (apply at_lookup; split; [lia|by rewrite Nat2Z.id]).
  assert (E1 : at_ (inputs sampler) (Z.of_nat i + 1) = Ok t1).
  { apply at_lookup. split; [lia|].
    by replace (Z.to_nat (Z.of_nat i + 1)) with (S i) by lia. }
  rewrite E0. simpl.
  specialize (Hseg i t0 t1 Ht0 Ht1).
  destruct (F32.ge (currentTime animation) t0); simpl; [|by eexists].
  rewrite E1. simpl. simpl in Hseg. rewrite Hseg. simpl. by eexists.
Qed.

(** One keyframe or more: when the sampler of a channel has at least
    one keyframe and no adjacent pair contains the current time, the
    channel leaves every node as it was (the console alone may grow, for a
    sampler that is not LINEAR). *)
Lemma updateChannel_no_segment acos sin animation channel sampler h out :
  at_ (samplers animation) (samplerIndex channel) = Ok sampler ->
  inputs sampler <> [] ->
  Z.of_nat (length (inputs sampler)) < 2 ^ 64 ->
  no_segment sampler (currentTime animation) ->
  exists out',
    updateChannel acos sin animation (h, out) channel = Ok (h, out').
Proof.
  intros Hat Hne Hlen Hseg. unfold updateChannel. rewrite Hat. simpl.
  assert (Hn : (0 < length (inputs sampler))%nat)
    by (destruct (inputs sampler); [done|simpl; lia]).
  unfold usize. rewrite Z.mod_small by lia.
  replace (Z.to_nat (Z.of_nat (length (inputs sampler)) - 1))
    with (length (inputs sampler) - 1)%nat by lia.
  assert (G : forall n i out,
    (i + n = length (inputs sampler) - 1)%nat ->
    exists out',
      for_range n (Z.of_nat i) (updateSegment acos sin animation channel sampler)
        (h, out) = Ok (h, out')).
  { induction n as [|n IH]; intros i out0 Hi; [by eexists|].
    rewrite for_range_S.
    destruct (updateSegment_no_segment acos sin animation channel sampler
                i h out0) as [out1 ->]; [lia|done|].
    simpl. replace (Z.of_nat i + 1) with (Z.of_nat (S i)) by lia.
    apply IH. lia. }
  apply (G _ O out). lia.
Qed.

Lemma same_trs_refl h : same_trs h h.
Proof. intros p n Hp. eauto. Qed.

Lemma same_trs_trans h1 h2 h3 :
  same_trs h1 h2 -> same_trs h2 h3 -> same_trs h1 h3.
Proof.
  intros H12 H23 p n Hp.
  destruct (H12 p n Hp) as (n2 & Hp2 & Et & Er & Es).
  destruct (H23 p n2 Hp2) as (n3 & Hp3 & Et' & Er' & Es').
  exists n3. repeat split; congruence.
Qed.

Lemma updateMeshUniformBuffers_same_trs fuel meshNodes h h' :
  updateMeshUniformBuffers fuel h meshNodes = Ok h' -> same_trs h h'.
Proof.
  unfold updateMeshUniformBuffers.
  apply (foldM_inv (fun s => same_trs h s)); [apply same_trs_refl|].
  intros s meshNode s' _ Hs Hstep.
  apply bind_Ok in Hstep as (n & Hn & Hstep).
  unfold deref in Hn. destruct (s !! meshNode) as [n0|] eqn:E; [|discriminate].
  injection Hn as ->.
  apply (same_trs_trans _ s); [done|].
  destruct (primitives (mesh n)) as [|pr prs];
    [by injection Hstep as <-; apply same_trs_refl|].
  destruct (mapped (mesh n)) as [mp|];
    [|by injection Hstep as <-; apply same_trs_refl].
  apply bind_Ok in Hstep as (nodeMatrix & _ & Hstep). injection Hstep as <-.
  intros p n1 Hp. destruct (decide (p = meshNode)) as [->|Hne].
  - pose proof (eq_trans (eq_sym E) Hp) as Heq. injection Heq as <-.
    eexists. split; [apply list_lookup_insert_eq; by apply lookup_lt_Some in E|].
    done.
  - exists n1. by rewrite list_lookup_insert_ne.
Qed.

(** X18. A tick between keyframes: when every channel of the active
    animation has a sampler with at least one keyframe and no adjacent
    pair of keyframes around the advanced time, a tick that completes
    leaves the translation, rotation and scale of every node as they
    were. *)
Lemma updateAnimation_no_segment acos sin fuel deltaTime m m' animation :
  Z.of_nat (length (animations m)) < 2 ^ 32 ->
  at_ (animations m) (activeAnimation m) = Ok animation ->
  (forall channel, channel ∈ channels animation ->
     exists sampler,
       at_ (samplers animation) (samplerIndex channel) = Ok sampler
       /\ inputs sampler <> []
       /\ Z.of_nat (length (inputs sampler)) < 2 ^ 64
       /\ no_segment sampler (currentTime (advance deltaTime animation))) ->
  updateAnimation acos sin fuel deltaTime m = Ok m' ->
  same_trs (heap m) (heap m').
Proof.
  intros Hlen Hat Hchannels Hrun.
  apply at_lookup in Hat as Hat'. destruct Hat' as [H0 Hl].
  apply lookup_lt_Some in Hl as Hlt.
  unfold updateAnimation in Hrun.
  rewrite (u32_small (Z.of_nat _)), u32_small in Hrun by lia.
  destruct (Z.gtb_spec (activeAnimation m) (Z.of_nat (length (animations m)) - 1));
    [lia|].
  rewrite Hat in Hrun. simpl in Hrun.
  assert (Hadv : channels (advance deltaTime animation) = channels animation
                 /\ samplers (advance deltaTime animation) = samplers animation).
  { unfold advance. by destruct (F32.gt _ _). }
  destruct Hadv as [Hch Hsm]. rewrite Hch in Hrun.
  apply bind_Ok in Hrun as ([h out] & Hfold & Hrun).
  apply bind_Ok in Hrun as (h' & Hubo & Hrun). injection Hrun as <-. simpl.
  apply updateMeshUniformBuffers_same_trs in Hubo.
  assert (Hh : h = heap m); [|by subst h].
  revert Hfold.
  apply (foldM_inv (fun s => s.1 = heap m)); [done|].
  intros [h1 out1] channel s' Hin Hs Hstep. simpl in Hs. subst h1.
  destruct (Hchannels channel Hin) as (sampler & Hsampler & Hne & Hlen64 & Hseg).
  rewrite <- Hsm in Hsampler.
  destruct (updateChannel_no_segment acos sin (advance deltaTime animation)
              channel sampler (heap m) out1 Hsampler Hne Hlen64 Hseg)
    as [out' Hok].
  rewrite Hok in Hstep. by injection Hstep as <-.
Qed.

(** No keyframe: for a LINEAR sampler without keyframes the loop bound
    [inputs.size() - 1] wraps to [2^64 - 1], and the first iteration
    reads [inputs[0]] of an empty vector. *)
Lemma updateChannel_no_keyframe acos sin animation channel sampler st :
  at_ (samplers animation) (samplerIndex channel) = Ok sampler ->
  inputs sampler = [] ->
  interpolation sampler = "LINEAR" ->
  updateChannel acos sin animation st channel = Undefined.
Proof.
  intros Hat Hnil Hlin. unfold updateChannel. rewrite Hat. simpl.
  rewrite Hnil.
  change (usize (Z.of_nat (length (@nil float)) - 1))
    with (Z.succ 18446744073709551614).
  rewrite Z2Nat.inj_succ by done.
  generalize (Z.to_nat 18446744073709551614) as rest. intros rest.
  rewrite for_range_S. unfold updateSegment at 1.
  destruct st as [h out]. simpl. rewrite Hlin, Hnil. reflexivity.
Qed.

Lemma at_not_OutOfFuel {A : Type} (l : list A) i : at_ l i <> OutOfFuel.
Proof. unfold at_. destruct (i <? 0); [done|]. by destruct (l !! Z.to_nat i). Qed.

Lemma write_not_OutOfFuel np f h : write np f h <> OutOfFuel.
Proof.
  unfold write, deref. destruct np as [p|]; [|done]. by destruct (h !! p).
Qed.

Lemma bind_not_OutOfFuel {A B : Type} (m : res A) (k : A -> res B) :
  m <> OutOfFuel -> (forall a, k a <> OutOfFuel) -> m ≫= k <> OutOfFuel.
Proof. destruct m; simpl; auto. Qed.

Lemma for_range_not_OutOfFuel {S : Type} n i (body : Z -> S -> res S) s :
  (forall i s, body i s <> OutOfFuel) -> for_range n i body s <> OutOfFuel.
Proof.
  intros Hbody. revert i s. induction n as [|n IH]; intros i s; [done|].
  rewrite for_range_S. apply bind_not_OutOfFuel; auto.
Qed.

Lemma updateSegment_not_OutOfFuel acos sin animation channel sampler i st :
  updateSegment acos sin animation channel sampler i st <> OutOfFuel.
Proof.
  unfold updateSegment. destruct st as [h out].
  destruct (negb _); [done|].
  apply bind_not_OutOfFuel; [apply at_not_OutOfFuel|]. intros ti.
  destruct (negb _); [done|].
  apply bind_not_OutOfFuel; [apply at_not_OutOfFuel|]. intros ti1.
  destruct (negb _); [done|].
  repeat (apply bind_not_OutOfFuel;
          [destruct (String.eqb _ _); [|done];
           repeat (apply bind_not_OutOfFuel; [apply at_not_OutOfFuel|intros ?]);
           apply write_not_OutOfFuel
          |intros ?]).
  done.
Qed.

Lemma updateChannel_not_OutOfFuel acos sin animation st channel :
  updateChannel acos sin animation st channel <> OutOfFuel.
Proof.
  unfold updateChannel.
  apply bind_not_OutOfFuel; [apply at_not_OutOfFuel|]. intros sampler.
  apply for_range_not_OutOfFuel. intros. apply updateSegment_not_OutOfFuel.
Qed.

Lemma foldM_Undefined {A S : Type} (f : S -> A -> res S) (l : list A) (c : A) :
  (forall s a, f s a <> OutOfFuel) ->
  c ∈ l -> (forall s, f s c = Undefined) ->
  forall s, foldM f l s = Undefined.
Proof.
  intros Hfuel Hin Hc. induction Hin as [c l|c a l Hin IH]; intros s; simpl.
  - by rewrite Hc.
  - destruct (f s a) as [s1| |] eqn:E; simpl; [by apply IH|done|].
    by destruct (Hfuel s a E).
Qed.

(** C6. A sampler without keyframes is not left alone: when a channel of
    the active animation has a LINEAR sampler with no keyframe, the loop
    bound [inputs.size() - 1] wraps in [size_t], [inputs[0]] is read from
    the empty vector, and the tick is undefined behaviour instead of
    leaving the channel's target as it was. *)
Theorem updateAnimation_no_keyframe acos sin fuel deltaTime m animation
    channel sampler :
  Z.of_nat (length (animations m)) < 2 ^ 32 ->
  at_ (animations m) (activeAnimation m) = Ok animation ->
  channel ∈ channels animation ->
  at_ (samplers animation) (samplerIndex channel) = Ok sampler ->
  inputs sampler = [] ->
  interpolation sampler = "LINEAR" ->
  updateAnimation acos sin fuel deltaTime m = Undefined.
Proof.
  intros Hlen Hat Hin Hs Hnil Hlin.
  apply at_lookup in Hat as Hat'. destruct Hat' as [H0 Hl].
  apply lookup_lt_Some in Hl as Hlt.
  unfold updateAnimation.
  rewrite (u32_small (Z.of_nat _)), u32_small by lia.
  destruct (Z.gtb_spec (activeAnimation m) (Z.of_nat (length (animations m)) - 1));
    [lia|].
  rewrite Hat. simpl.
  assert (Hadv : channels (advance deltaTime animation) = channels animation
                 /\ samplers (advance deltaTime animation) = samplers animation).
  { unfold advance. by destruct (F32.gt _ _). }
  destruct Hadv as [Hch Hsm]. rewrite Hch.
  rewrite (foldM_Undefined _ _ channel); [done| |done|].
  - intros s a. apply updateChannel_not_OutOfFuel.
  - intros s. apply (updateChannel_no_keyframe _ _ _ _ sampler); [|done|done].
    by rewrite Hsm.
Qed.

Lemma updateAnimation_no_keyframe_witness :
  updateAnimation no_acos no_sin 0 (F32.of_Z2 1 (-4)) no_keyframe_model
  = Undefined.
Proof.
  apply (updateAnimation_no_keyframe no_acos no_sin 0 (F32.of_Z2 1 (-4))
           no_keyframe_model no_keyframe_animation
           {| path := "translation"; node := Some O; samplerIndex := 0 |}
           {| interpolation := "LINEAR"; inputs := []; outputsVec4 := [] |}).
  - vm_compute. reflexivity.
  - reflexivity.
  - simpl. apply list_elem_of_here.
  - reflexivity.
  - reflexivity.
  - reflexivity.
Defined.

(** ** Invariants of the loader *)

Lemma newNode_mesh inputNode parent_ nodeIndex n :
  newNode inputNode parent_ nodeIndex = Ok n -> mesh n = mkMesh [] None.
Proof.
  unfold newNode. intros H.
  apply bind_Ok in H as (n1 & H1 & H).
  apply bind_Ok in H as (n2 & H2 & H).
  apply bind_Ok in H as (n3 & H3 & H).
  assert (E1 : mesh n1 = mkMesh [] None).
  { destruct (_ =? _)%nat; [|by injection H1 as <-].
    apply bind_Ok in H1 as (v & _ & H1). by injection H1 as <-. }
  assert (E2 : mesh n2 = mkMesh [] None).
  { destruct (_ =? _)%nat in H2; [|by injection H2 as <-].
    apply bind_Ok in H2 as (v & _ & H2). by injection H2 as <-. }
  assert (E3 : mesh n3 = mkMesh [] None).
  { destruct (_ =? _)%nat in H3; [|by injection H3 as <-].
    apply bind_Ok in H3 as (v & _ & H3). by injection H3 as <-. }
  destruct (_ =? _)%nat in H; [|by injection H as <-].
  apply bind_Ok in H as (v & _ & H). by injection H as <-.
Qed.

(** A node that is replaced by one satisfying what it satisfied. *)
Lemma lookup_update_pred (P : Node -> Prop) (h : list Node) (q : ptr) nq n'
    (p : ptr) :
  h !! q = Some nq -> (P nq -> P n') ->
  (exists n, h !! p = Some n /\ P n) ->
  exists n, <[q := n']> h !! p = Some n /\ P n.
Proof.
  intros Hq HP (n & Hn & Hpn). destruct (decide (p = q)) as [->|Hne].
  - exists n'. split; [apply list_lookup_insert_eq; by apply lookup_lt_Some in Hq|].
    apply HP. pose proof (eq_trans (eq_sym Hq) Hn) as Heq. by injection Heq as ->.
  - exists n. by rewrite list_lookup_insert_ne.
Qed.

Lemma lookup_insert_cases (h : list Node) (q : ptr) n' (p : ptr) n :
  <[q := n']> h !! p = Some n ->
  (p = q /\ n = n') \/ (p <> q /\ h !! p = Some n).
Proof.
  intros H. destruct (decide (p = q)) as [->|Hne].
  - left. split; [done|].
    rewrite list_lookup_insert_eq in H by (apply lookup_lt_Some in H; by rewrite length_insert in H).
    by injection H.
  - right. by rewrite list_lookup_insert_ne in H.
Qed.

Lemma linked_update (h : list Node) (q : ptr) nq n' :
  h !! q = Some nq -> parent n' = parent nq ->
  (forall c : ptr, c ∈ children n' ->
     c ∈ children nq \/ exists nc, h !! c = Some nc /\ parent nc = Some q) ->
  linked h -> linked (<[q := n']> h).
Proof.
  intros Hq Hp Hc Hl p n c Hn Hin.
  apply (lookup_update_pred (fun x => parent x = Some p) h q nq n' c Hq);
    [by rewrite Hp|].
  apply lookup_insert_cases in Hn as [[-> ->]|[Hne Hn]].
  - destruct (Hc c Hin) as [Hold|Hnew]; [by apply (Hl q nq)|done].
  - by apply (Hl p n).
Qed.

Lemma unmapped_update (h : list Node) (q : ptr) nq n' :
  h !! q = Some nq -> mapped (mesh n') = mapped (mesh nq) ->
  unmapped h -> unmapped (<[q := n']> h).
Proof.
  intros Hq Hm Hu p n Hn.
  apply lookup_insert_cases in Hn as [[-> ->]|[Hne Hn]].
  - rewrite Hm. by apply (Hu q).
  - by apply (Hu p).
Qed.

Lemma all_primitives_update (h : list Node) (q : ptr) nq n' :
  h !! q = Some nq -> primitives (mesh n') = primitives (mesh nq) ->
  all_primitives (<[q := n']> h) = all_primitives h.
Proof.
  intros Hq Hp. unfold all_primitives. rewrite list_fmap_insert, Hp.
  apply list_insert_id. rewrite list_lookup_fmap. unfold ptr in *. by rewrite Hq.
Qed.

Lemma ranges_ok_mono len len' pss :
  len <= len' -> ranges_ok len pss -> ranges_ok len' pss.
Proof.
  intros Hle [Hin Hap]. split; [|done].
  intros p ps pr Hps Hpr. destruct (Hin p ps pr Hps Hpr) as (? & ? & ?).
  unfold primitive_in. lia.
Qed.

Lemma ranges_ok_snoc len pss : ranges_ok len pss -> ranges_ok len (pss ++ [[]]).
Proof.
  assert (G : forall (p : nat) ps, (pss ++ [[]]) !! p = Some ps ->
                pss !! p = Some ps \/ ps = []).
  { intros p ps H. apply lookup_snoc_Some in H as [[_ H]|[_ <-]]; auto. }
  intros [Hin Hap]. split.
  - intros p ps pr Hps Hpr. destruct (G p ps Hps) as [H| ->];
      [by apply (Hin p ps)|by apply elem_of_nil in Hpr].
  - intros p p' ps ps' k k' pr pr' Hps Hk Hps' Hk' Hne.
    destruct (G p ps Hps) as [H| ->]; [|done].
    destruct (G p' ps' Hps') as [H'| ->]; [|done].
    by apply (Hap p p' ps ps' k k').
Qed.

(** A primitive that starts where the index buffer ended. *)
Lemma ranges_ok_push len pss (q : nat) ps pr :
  pss !! q = Some ps ->
  firstIndex pr = len -> 0 <= len -> 0 <= indexCount pr ->
  ranges_ok len pss ->
  ranges_ok (len + indexCount pr) (<[q := ps ++ [pr]]> pss).
Proof.
  intros Hq Hfirst Hlen Hcount [Hin Hap].
  assert (Hq' : (q < length pss)%nat) by (by apply lookup_lt_Some in Hq).
  assert (Hnew : primitive_in (len + indexCount pr) pr)
    by (unfold primitive_in; lia).
  (* every primitive of the new table is an old one or the new one *)
  assert (G : forall (p k : nat) ps1 pr1,
    <[q := ps ++ [pr]]> pss !! p = Some ps1 -> ps1 !! k = Some pr1 ->
    (exists ps0, pss !! p = Some ps0 /\ ps0 !! k = Some pr1)
    \/ (p = q /\ k = length ps /\ pr1 = pr)).
  { intros p k ps1 pr1 Hp Hk. destruct (decide (p = q)) as [->|Hne].
    - rewrite list_lookup_insert_eq in Hp by done. injection Hp as <-.
      apply lookup_snoc_Some in Hk as [[_ Hk]|[-> <-]]; [left|right; done].
      by exists ps.
    - rewrite list_lookup_insert_ne in Hp by done. left. by exists ps1. }
  split.
  - intros p ps1 pr1 Hp Hpr1.
    apply list_elem_of_lookup in Hpr1 as [k Hk].
    destruct (G p k ps1 pr1 Hp Hk) as [(ps0 & Hp0 & Hk0)|(_ & _ & ->)]; [|done].
    destruct (Hin p ps0 pr1 Hp0) as (? & ? & ?);
      [by apply list_elem_of_lookup_2 in Hk0|].
    unfold primitive_in. lia.
  - intros p p' ps1 ps1' k k' pr1 pr1' Hp Hk Hp' Hk' Hne.
    destruct (G p k ps1 pr1 Hp Hk) as [(ps0 & Hp0 & Hk0)|(-> & -> & ->)];
      destruct (G p' k' ps1' pr1' Hp' Hk') as [(ps0' & Hp0' & Hk0')|(-> & -> & ->)].
    + by apply (Hap p p' ps0 ps0' k k').
    + left. destruct (Hin p ps0 pr1 Hp0) as (? & ? & ?);
        [by apply list_elem_of_lookup_2 in Hk0|]. lia.
    + right. destruct (Hin p' ps0' pr1' Hp0') as (? & ? & ?);
        [by apply list_elem_of_lookup_2 in Hk0'|]. lia.
    + done.
Qed.

(** The invariant depends on the heap, the two node lists and the length
    of the index buffer. *)
Lemma mesh_inv_ext st st' :
  heap (model st') = heap (model st) ->
  nodes (model st') = nodes (model st) ->
  linearMeshNodes (model st') = linearMeshNodes (model st) ->
  length (indexBuffer st') = length (indexBuffer st) ->
  mesh_inv st -> mesh_inv st'.
Proof.
  intros Eh En El Ei [Hl Hr Hm Hu Hrg].
  split; unfold roots_free, mesh_nodes_ok, ranged in *;
    rewrite ?Eh, ?En, ?El, ?Ei; done.
Qed.

Lemma mesh_inv_initial : mesh_inv initial_state.
Proof.
  split; simpl.
  - intros p n c Hp. done.
  - intros r Hr. by apply elem_of_nil in Hr.
  - split; [constructor|]. intros p Hp. by apply elem_of_nil in Hp.
  - intros p n Hp. done.
  - intros _. split.
    + intros p ps pr Hp. done.
    + intros p p' ps ps' k k' pr pr' Hp. done.
Qed.

Lemma mesh_inv_alloc st n :
  children n = [] -> mesh n = mkMesh [] None ->
  mesh_inv st -> mesh_inv (allocNode n st).
Proof.
  intros Ec Em [Hl Hr [Hnd Hm] Hu Hrg].
  assert (Hold : forall (P : Node -> Prop) (p : ptr),
            (exists n1, heap (model st) !! p = Some n1 /\ P n1) ->
            exists n1, (heap (model st) ++ [n]) !! p = Some n1 /\ P n1).
  { intros P p (n1 & Hn1 & HP). exists n1. split; [|done].
    apply lookup_app_l_Some. done. }
  split; simpl.
  - intros p n1 c Hp Hc. apply Hold.
    apply lookup_snoc_Some in Hp as [[_ Hp]|[_ <-]]; [by apply (Hl p n1)|].
    rewrite Ec in Hc. by apply elem_of_nil in Hc.
  - intros r Hin. apply Hold. by apply Hr.
  - split; [done|]. intros p Hp. apply Hold. by apply Hm.
  - intros p n1 Hp.
    apply lookup_snoc_Some in Hp as [[_ Hp]|[_ <-]]; [by apply (Hu p)|].
    by rewrite Em.
  - intros Hlen. unfold ranged. simpl. unfold all_primitives.
    rewrite fmap_app. simpl. rewrite Em. simpl.
    apply ranges_ok_snoc. by apply Hrg.
Qed.

(** What a primitive that is loaded leaves: the node has one primitive
    more, which starts where the index buffer ended and counts the
    elements appended to it. *)
Lemma loadPrimitive_Continue input node glTFPrimitive st st' :
  loadPrimitive input node glTFPrimitive st = Ok (Continue st') ->
  exists accessor n added,
    heap (model st) !! node = Some n
    /\ model st'
       = set_heap (<[node := push_primitive
                      {| firstIndex := u32 (Z.of_nat (length (indexBuffer st)));
                         indexCount := u32 (tinygltf.count accessor);
                         materialIndex := tinygltf.material glTFPrimitive |} n]>
                     (heap (model st))) (model st)
    /\ indexBuffer st' = indexBuffer st ++ added
    /\ length added = Z.to_nat (usize (tinygltf.count accessor)).
Proof.
  intros Hrun. unfold loadPrimitive in Hrun.
  apply bind_Ok in Hrun as (position & _ & Hrun).
  apply bind_Ok in Hrun as (normals & _ & Hrun).
  apply bind_Ok in Hrun as (texCoords & _ & Hrun).
  apply bind_Ok in Hrun as (vb & _ & Hrun).
  apply bind_Ok in Hrun as (accessor & _ & Hrun).
  destruct (index_width _) as [w|]; [|discriminate].
  apply bind_Ok in Hrun as (ib & Hib & Hrun).
  apply bind_Ok in Hrun as (h & Hh & Hrun).
  rewrite u32_count in Hh. injection Hrun as <-. simpl.
  apply appendIndices_spec in Hib as [-> Hlen].
  unfold write in Hh. apply bind_Ok in Hh as (n & Hn & Hh). injection Hh as <-.
  unfold deref in Hn. destruct (heap (model st) !! node) as [n0|] eqn:E;
    [|discriminate]. injection Hn as ->.
  exists accessor, n. eexists. split; [done|]. split; [done|]. split; [done|].
  by rewrite length_fmap.
Qed.

Lemma loadPrimitive_mesh_inv input (node : ptr) glTFPrimitive st r :
  loadPrimitive input node glTFPrimitive st = Ok r ->
  mesh_inv st ->
  mesh_inv (flow_state r)
  /\ linearMeshNodes (model (flow_state r)) = linearMeshNodes (model st).
Proof.
  intros Hrun Hinv. destruct r as [st'|st']; simpl.
  - apply loadPrimitive_Continue in Hrun
      as (accessor & n & added & Hn & Hm & Hib & Hadd).
    split; [|by rewrite Hm].
    destruct Hinv as [Hl Hr [Hnd Hmn] Hu Hrg].
    split; rewrite ?Hm; simpl.
    + by apply (linked_update _ _ n); [| |intros c; left|].
    + intros r Hin.
      by apply (lookup_update_pred (fun x => parent x = None) _ _ n); [| |apply Hr].
    + split; [done|]. intros p Hp.
      apply (lookup_update_pred (fun x => primitives (mesh x) <> []) _ _ n);
        [done| |by apply Hmn].
      intros _. simpl. by destruct (primitives (mesh n)).
    + by apply (unmapped_update _ _ n).
    + intros Hlen. unfold ranged. rewrite Hm, Hib. simpl in *. rewrite Hib in Hlen.
      rewrite length_app in Hlen |- *. rewrite Hadd in Hlen |- *.
      assert (H64 : 0 <= usize (tinygltf.count accessor))
        by (apply Z.mod_pos_bound; lia).
      rewrite Nat2Z.inj_add, Z2Nat.id in Hlen |- * by done.
      unfold all_primitives. rewrite list_fmap_insert. simpl.
      rewrite <- (u32_usize (tinygltf.count accessor)) by lia.
      set (pr := {| firstIndex := _ |}).
      change (u32 (tinygltf.count accessor)) with (indexCount pr).
      apply ranges_ok_push.
      * rewrite list_lookup_fmap. unfold ptr in *. by rewrite Hn.
      * simpl. apply u32_small. lia.
      * lia.
      * simpl. apply Z.mod_pos_bound. lia.
      * apply Hrg. lia.
  - apply loadPrimitive_frame in Hrun as [(En & El & _) (Eh & Ei & _)].
    simpl in *. split; [|done]. apply (mesh_inv_ext st); auto.
    by rewrite Ei.
Qed.

Lemma loadPrimitives_mesh_inv input (node : ptr) l :
  forall st r, loadPrimitives input node l st = Ok r ->
  mesh_inv st ->
  mesh_inv (flow_state r)
  /\ linearMeshNodes (model (flow_state r)) = linearMeshNodes (model st).
Proof.
  induction l as [|glTFPrimitive l IH]; intros st r Hrun Hinv.
  - by injection Hrun as <-.
  - simpl in Hrun. apply bind_Ok in Hrun as (r1 & H1 & Hrun).
    apply loadPrimitive_mesh_inv in H1 as [Hinv1 El1]; [|done].
    destruct r1 as [st1|st1]; simpl in *.
    + apply IH in Hrun as [Hinv2 El2]; [|done]. split; [done|congruence].
    + by injection Hrun as <-.
Qed.

Lemma loadMesh_mesh_inv input inputNode (node : ptr) st r :
  loadMesh input inputNode node st = Ok r ->
  mesh_inv st ->
  mesh_inv (flow_state r)
  /\ linearMeshNodes (model (flow_state r)) = linearMeshNodes (model st).
Proof.
  unfold loadMesh. destruct (_ >? _).
  - intros H Hinv. apply bind_Ok in H as (mesh_ & _ & H).
    by apply (loadPrimitives_mesh_inv input node (tinygltf.primitives mesh_)).
  - by intros [= <-].
Qed.

(** The mesh-node list after [attachNode]: the node joins it exactly
    when it has a primitive. *)
Lemma attachNode_mesh_nodes parent_ (node : ptr) m m' :
  attachNode parent_ node m = Ok m' ->
  exists n', heap m' !! node = Some n'
             /\ linearMeshNodes m'
                = linearMeshNodes m
                  ++ match primitives (mesh n') with
                     | [] => []
                     | _ :: _ => [node]
                     end.
Proof.
  unfold attachNode. intros H. apply bind_Ok in H as (m1 & H1 & H).
  apply bind_Ok in H as (n & Hn & H).
  assert (E1 : linearMeshNodes m1 = linearMeshNodes m).
  { destruct parent_ as [q|].
    - apply bind_Ok in H1 as (h & _ & H1). by injection H1 as <-.
    - by injection H1 as <-. }
  unfold deref in Hn. destruct (heap m1 !! node) as [n0|] eqn:E; [|discriminate].
  injection Hn as ->. exists n.
  destruct (primitives (mesh n)); injection H as <-; simpl.
  - by rewrite E1, app_nil_r.
  - by rewrite E1.
Qed.

Lemma mesh_inv_attach parent_ (p : ptr) n s m :
  heap (model s) !! p = Some n -> parent n = parent_ ->
  p ∉ linearMeshNodes (model s) ->
  attachNode parent_ p (model s) = Ok m ->
  mesh_inv s ->
  mesh_inv (set_model m s)
  /\ forall a : ptr, a ∈ linearMeshNodes m ->
       a ∈ linearMeshNodes (model s) \/ a = p.
Proof.
  intros Hp Epar Hfresh Hatt [Hl Hr [Hnd Hmn] Hu Hrg].
  apply attachNode_mesh_nodes in Hatt as Hlist.
  destruct Hlist as (n' & Hn' & Hlist).
  apply attachNode_spec in Hatt.
  assert (Hdelta : forall a : ptr, a ∈ linearMeshNodes m ->
            a ∈ linearMeshNodes (model s) \/ a = p).
  { intros a. rewrite Hlist. intros Ha. apply elem_of_app in Ha as [Ha|Ha]; [by left|].
    destruct (primitives (mesh n')); [by apply elem_of_nil in Ha|].
    apply list_elem_of_singleton in Ha. by right. }
  split; [|done].
  assert (Hnodup : NoDup (linearMeshNodes m)).
  { rewrite Hlist. destruct (primitives (mesh n')); [by rewrite app_nil_r|].
    apply NoDup_app. split; [done|]. split; [|apply NoDup_singleton].
    intros a Ha Ha'. apply list_elem_of_singleton in Ha'. by subst a. }
  assert (Hnew : forall a : ptr, a ∈ linearMeshNodes m ->
            a ∈ linearMeshNodes (model s)
            \/ exists x, heap m !! a = Some x /\ primitives (mesh x) <> []).
  { intros a. rewrite Hlist. intros Ha. apply elem_of_app in Ha as [Ha|Ha]; [by left|].
    right. destruct (primitives (mesh n')) eqn:Ep; [by apply elem_of_nil in Ha|].
    apply list_elem_of_singleton in Ha. subst a. exists n'. by rewrite Ep. }
  destruct parent_ as [q|].
  - destruct Hatt as (nq & Hq & Eh & En).
    split; simpl.
    + rewrite Eh. apply (linked_update _ _ nq); [done|done| |done].
      intros c Hc. simpl in Hc. apply elem_of_app in Hc as [Hc|Hc]; [by left|].
      apply list_elem_of_singleton in Hc. subst c. right. by exists n.
    + intros r Hin. rewrite En in Hin. rewrite Eh.
      by apply (lookup_update_pred (fun x => parent x = None) _ _ nq); [| |apply Hr].
    + split; [done|]. intros a Ha. destruct (Hnew a Ha) as [Hold|Hx]; [|done].
      rewrite Eh.
      by apply (lookup_update_pred (fun x => primitives (mesh x) <> []) _ _ nq);
        [| |apply Hmn].
    + rewrite Eh. by apply (unmapped_update _ _ nq).
    + intros Hlen. unfold ranged. simpl. rewrite Eh.
      rewrite (all_primitives_update _ _ nq) by done. by apply Hrg.
  - destruct Hatt as (Eh & En).
    split; simpl.
    + by rewrite Eh.
    + intros r Hin. rewrite En in Hin. rewrite Eh.
      apply elem_of_app in Hin as [Hin|Hin]; [by apply Hr|].
      apply list_elem_of_singleton in Hin. subst r. by exists n.
    + split; [done|]. intros a Ha. destruct (Hnew a Ha) as [Hold|Hx]; [|done].
      rewrite Eh. by apply Hmn.
    + by rewrite Eh.
    + intros Hlen. unfold ranged. simpl. rewrite Eh. by apply Hrg.
Qed.

(** [loadNode] keeps the invariant, and the mesh nodes it adds are at
    addresses it allocated. *)
Lemma loadNode_mesh_inv input fuel :
  forall inputNode parent_ idx st st',
  (forall q, parent_ = Some q -> (q < length (heap (model st)))%nat) ->
  loadNode fuel input inputNode parent_ idx st = Ok st' ->
  mesh_inv st ->
  mesh_inv st' /\ mesh_delta st st'.
Proof.
  induction fuel as [|f IH]; intros inputNode parent_ idx st st' Hpre Hrun Hinv;
    [discriminate|].
  rewrite loadNode_S in Hrun.
  apply bind_Ok in Hrun as (n0 & Hn0 & Hrun).
  apply bind_Ok in Hrun as (st1 & Hch & Hrun).
  apply bind_Ok in Hrun as (r & Hmesh & Hrun).
  apply newNode_mesh in Hn0 as Em0.
  apply newNode_links in Hn0 as (Ep0 & Ec0 & Ei0).
  set (p := length (heap (model st))) in *.
  assert (Hold : forall a : ptr, a ∈ linearMeshNodes (model st) -> (a < p)%nat).
  { intros a Ha. destruct (inv_mesh_nodes _ Hinv) as [_ Hm].
    destruct (Hm a Ha) as (x & Hx & _). by apply lookup_lt_Some in Hx. }
  assert (H1 : loading (heap (model st)) (nodes (model st)) p idx parent_ st1
               /\ mesh_inv st1
               /\ forall a : ptr, a ∈ linearMeshNodes (model st1) ->
                    a ∈ linearMeshNodes (model st) \/ (S p <= a)%nat).
  { unfold loadChildren in Hch. revert Hch.
    apply (foldM_inv (fun s =>
             loading (heap (model st)) (nodes (model st)) p idx parent_ s
             /\ mesh_inv s
             /\ forall a : ptr, a ∈ linearMeshNodes (model s) ->
                  a ∈ linearMeshNodes (model st) \/ (S p <= a)%nat)).
    - split; [by apply loading_alloc|]. split; [by apply mesh_inv_alloc|].
      intros a Ha. by left.
    - intros s child s' _ (Hs & Hinvs & Hds) Hstep.
      apply bind_Ok in Hstep as (childNode & _ & Hstep).
      assert (Hps : forall q, Some p = Some q -> (q < length (heap (model s)))%nat)
        by (intros q [= <-]; apply Hs).
      split; [|split].
      + apply (loading_child _ _ _ _ _ s); [done|].
        by apply loadNode_loaded in Hstep.
      + by apply IH in Hstep as [? _].
      + intros a Ha. apply IH in Hstep as [_ Hd]; [|done|done].
        destruct (Hd a Ha) as [Hin|Hge]; [by apply Hds|].
        right. pose proof (Hps p eq_refl). lia. }
  destruct H1 as (Hload1 & Hinv1 & Hd1).
  apply loadMesh_keeps in Hmesh as Hkeep. destruct Hkeep as (Hk & Hlen & Hnodes).
  apply loadMesh_mesh_inv in Hmesh as [Hinv2 El2]; [|done].
  assert (Hload2 : loading (heap (model st)) (nodes (model st)) p idx parent_
                     (flow_state r))
    by (by apply (loading_keeps _ _ _ _ _ st1)).
  assert (Hd2 : forall a : ptr, a ∈ linearMeshNodes (model (flow_state r)) ->
                  a ∈ linearMeshNodes (model st) \/ (S p <= a)%nat)
    by (by rewrite El2).
  destruct r as [st2|st2]; simpl in *.
  - apply bind_Ok in Hrun as (m & Hatt & Hrun). injection Hrun as <-.
    destruct Hload2 as (_ & _ & _ & _ & n & ts & Hn & _ & Epar & _).
    destruct (mesh_inv_attach parent_ p n st2 m Hn Epar) as [Hinv3 Hd3];
      [|done|done|].
    + intros Hin. destruct (Hd2 p Hin) as [Ha|Ha]; [apply Hold in Ha|]; lia.
    + split; [done|]. intros a Ha. simpl in Ha.
      destruct (Hd3 a Ha) as [Hin| ->]; [|right; lia].
      destruct (Hd2 a Hin) as [?|?]; [by left|right; lia].
  - injection Hrun as <-. split; [done|].
    intros a Ha. destruct (Hd2 a Ha) as [?|?]; [by left|right; lia].
Qed.

(** The invariant holds of every model [loadglTFFile] returns. *)
Lemma loadglTFFile_mesh_inv fuel input st :
  loadglTFFile fuel input = Ok st -> mesh_inv st.
Proof.
  unfold loadglTFFile. intros H.
  apply bind_Ok in H as (scene & _ & H).
  apply bind_Ok in H as (st1 & Hfold & H).
  apply bind_Ok in H as (m & Hanim & H). injection H as <-.
  apply loadAnimations_frame in Hanim as (Eh & En & El).
  apply (mesh_inv_ext st1); [done|done|done|done|].
  revert Hfold. apply (foldM_inv mesh_inv); [apply mesh_inv_initial|].
  intros s i s' _ Hinv Hstep.
  apply bind_Ok in Hstep as (node_ & _ & Hstep).
  by apply loadNode_mesh_inv in Hstep as [? _].
Qed.

(** ** Rendering *)

(** A loop whose body appends to a log appends the bodies' logs in order. *)
Lemma foldM_log {A S B : Type} (log : S -> list B) (entry : A -> list B)
    (f : S -> A -> res S) (l : list A) :
  (forall s a s', a ∈ l -> f s a = Ok s' -> log s' = log s ++ entry a) ->
  forall s s', foldM f l s = Ok s' -> log s' = log s ++ flat_map entry l.
Proof.
  induction l as [|a l IH]; intros Hbody s s' Hrun.
  - injection Hrun as <-. by rewrite app_nil_r.
  - simpl in Hrun. apply bind_Ok in Hrun as (s1 & H1 & Hrun).
    apply IH in Hrun; [|intros s2 b s3 Hb; apply Hbody; by right].
    rewrite Hrun, (Hbody s a s1); [|left|done].
    simpl. by rewrite <- (assoc_L (++)).
Qed.

Lemma drawPrimitive_calls a cmds primitive cmds' :
  drawPrimitive a cmds primitive = Ok cmds' ->
  omap draw_call cmds'
  = omap draw_call cmds
    ++ ((fun pr => (firstIndex pr, indexCount pr))
        <$> filter (fun pr => 0 < indexCount pr) [primitive]).
Proof.
  unfold drawPrimitive. intros H.
  destruct (Z.gtb_spec (indexCount primitive) 0) as [Hpos|Hzero].
  - apply bind_Ok in H as (material & _ & H).
    apply bind_Ok in H as (texture_ & _ & H).
    apply bind_Ok in H as (image & _ & H). injection H as <-.
    rewrite omap_app. simpl.
    rewrite filter_cons_True by lia. done.
  - injection H as <-. rewrite filter_cons_False by lia.
    by rewrite filter_nil, app_nil_r.
Qed.

Lemma flat_map_singleton_filter {A : Type} (P : A -> Prop)
    `{!forall x, Decision (P x)} (l : list A) :
  flat_map (fun x => filter P [x]) l = filter P l.
Proof.
  induction l as [|x l IH]; [done|]. simpl. rewrite IH.
  destruct (decide (P x)).
  - by rewrite !filter_cons_True.
  - by rewrite !filter_cons_False.
Qed.

Lemma flat_map_fmap {A B C : Type} (f : B -> C) (g : A -> list B) (l : list A) :
  flat_map (fun x => f <$> g x) l = f <$> flat_map g l.
Proof.
  induction l as [|x l IH]; [done|]. simpl. by rewrite IH, fmap_app.
Qed.

Lemma drawNode_calls a h cmds (node : ptr) cmds' :
  drawNode a h cmds node = Ok cmds' ->
  omap draw_call cmds'
  = omap draw_call cmds
    ++ ((fun pr => (firstIndex pr, indexCount pr)) <$> drawn h [node]).
Proof.
  unfold drawNode, deref, drawn. intros H. simpl.
  destruct (h !! node) as [n|]; [|discriminate]. simpl in H.
  apply (foldM_log (omap draw_call)
           (fun pr => (fun pr => (firstIndex pr, indexCount pr))
                      <$> filter (fun pr => 0 < indexCount pr) [pr])) in H.
  - rewrite H, omap_app. simpl. rewrite !app_nil_r.
    by rewrite flat_map_fmap, flat_map_singleton_filter.
  - intros s pr s' _. apply drawPrimitive_calls.
Qed.

Lemma drawn_flat_map h meshNodes :
  flat_map (fun p => drawn h [p]) meshNodes = drawn h meshNodes.
Proof.
  induction meshNodes as [|p l IH]; [done|].
  change (flat_map (fun p => drawn h [p]) (p :: l))
    with (drawn h [p] ++ flat_map (fun p => drawn h [p]) l).
  rewrite IH. unfold drawn. simpl. by rewrite app_nil_r.
Qed.

(** X7. The draw calls of a frame, in order, are the primitives with a
    non-zero index count of the mesh nodes, taken in the order of the
    mesh-node list and of each node's primitive list; each call draws the
    primitive's [indexCount] indices from its [firstIndex]. A primitive
    with no index produces no call. *)
Theorem draw_calls a m cmds :
  draw a m = Ok cmds ->
  omap draw_call cmds
  = (fun pr => (firstIndex pr, indexCount pr))
    <$> drawn (heap m) (linearMeshNodes m).
Proof.
  unfold draw. intros H.
  apply (foldM_log (omap draw_call)
           (fun p => (fun pr => (firstIndex pr, indexCount pr))
                     <$> drawn (heap m) [p])) in H.
  - by rewrite H, flat_map_fmap, drawn_flat_map.
  - intros s p s' _. apply drawNode_calls.
Qed.

Lemma drawn_elem h meshNodes pr :
  pr ∈ drawn h meshNodes ->
  exists (p : ptr) n, p ∈ meshNodes /\ h !! p = Some n
                      /\ pr ∈ primitives (mesh n) /\ 0 < indexCount pr.
Proof.
  unfold drawn. induction meshNodes as [|p l IH]; simpl; intros Hin.
  - by apply elem_of_nil in Hin.
  - apply elem_of_app in Hin as [Hin|Hin].
    + destruct (h !! p) as [n|] eqn:E; [|by apply elem_of_nil in Hin].
      apply list_elem_of_filter in Hin as [Hpos Hin].
      exists p, n. repeat split; try done. left.
    + destruct (IH Hin) as (q & n & Hq & Hn & Hpr & Hpos).
      exists q, n. repeat split; try done. by right.
Qed.

Lemma ForallOrdPairs_app {A : Type} (R : A -> A -> Prop) (l1 l2 : list A) :
  ForallOrdPairs R l1 -> ForallOrdPairs R l2 ->
  (forall x y, x ∈ l1 -> y ∈ l2 -> R x y) ->
  ForallOrdPairs R (l1 ++ l2).
Proof.
  intros H1 H2 H12. induction H1 as [|x l1 Hx H1 IH]; [done|].
  simpl. constructor.
  - apply Forall_app. split; [done|].
    apply Forall_forall. intros y Hy. apply H12; [left|done].
  - apply IH. intros x' y Hx' Hy. apply H12; [by right|done].
Qed.

Lemma ForallOrdPairs_fmap {A B : Type} (R : B -> B -> Prop) (f : A -> B)
    (l : list A) :
  ForallOrdPairs (fun x y => R (f x) (f y)) l -> ForallOrdPairs R (f <$> l).
Proof.
  intros HF. induction HF as [|x l Hx HF IH]; [constructor|].
  rewrite fmap_cons. constructor; [|done]. by apply Forall_fmap.
Qed.

Lemma ForallOrdPairs_filter {A : Type} (R : A -> A -> Prop) (P : A -> Prop)
    `{!forall x, Decision (P x)} (l : list A) :
  ForallOrdPairs R l -> ForallOrdPairs R (filter P l).
Proof.
  intros HF. induction HF as [|x l Hx HF IH]; [constructor|].
  destruct (decide (P x)).
  - rewrite filter_cons_True by done. constructor; [|done].
    apply Forall_forall. intros y Hy. apply list_elem_of_filter in Hy as [_ Hy].
    rewrite Forall_forall in Hx. by apply Hx.
  - by rewrite filter_cons_False.
Qed.

Lemma ForallOrdPairs_lookup {A : Type} (R : A -> A -> Prop) (l : list A) :
  (forall (k k' : nat) x y, k <> k' -> l !! k = Some x -> l !! k' = Some y -> R x y) ->
  ForallOrdPairs R l.
Proof.
  induction l as [|a l IH]; intros H; [constructor|]. constructor.
  - apply Forall_forall. intros y Hy. apply list_elem_of_lookup in Hy as [k Hk].
    by apply (H O (S k)).
  - apply IH. intros k k' x y Hne Hx Hy. apply (H (S k) (S k')); [lia|done|done].
Qed.

(** Under [ranges_ok] the draw list of mesh nodes that are listed once
    has no two overlapping entries. *)
Lemma drawn_apart len h meshNodes :
  ranges_ok len (all_primitives h) -> NoDup meshNodes ->
  ForallOrdPairs apart (drawn h meshNodes).
Proof.
  intros [_ Hap] Hnd. unfold drawn.
  induction Hnd as [|p l Hp Hnd IH]; simpl; [constructor|].
  apply ForallOrdPairs_app; [|done|].
  - destruct (h !! p) as [n|] eqn:E; [|constructor].
    apply ForallOrdPairs_filter, ForallOrdPairs_lookup.
    intros k k' x y Hne Hx Hy.
    apply (Hap p p (primitives (mesh n)) (primitives (mesh n)) k k');
      try done; [| |congruence];
      unfold all_primitives; rewrite list_lookup_fmap; unfold ptr in *;
      by rewrite E.
  - intros x y Hx Hy.
    destruct (h !! p) as [n|] eqn:E; [|by apply elem_of_nil in Hx].
    apply list_elem_of_filter in Hx as [_ Hx].
    apply list_elem_of_lookup in Hx as [k Hk].
    apply drawn_elem in Hy as (q & nq & Hq & Hnq & Hy & _).
    apply list_elem_of_lookup in Hy as [k' Hk'].
    apply (Hap p q (primitives (mesh n)) (primitives (mesh nq)) k k');
      try done; [| |intros [= -> _]; done];
      unfold all_primitives; rewrite list_lookup_fmap; unfold ptr in *;
      by rewrite ?E, ?Hnq.
Qed.

(** X8. On a model that [loadglTFFile] returned with fewer than 2^32
    indices, every draw call of a frame draws at least one index, its
    range [firstIndex, firstIndex + indexCount) lies inside the index
    buffer the loader filled, and no two draw calls of the frame have
    overlapping ranges. *)
Theorem draw_in_bounds fuel input st a cmds :
  loadglTFFile fuel input = Ok st ->
  Z.of_nat (length (indexBuffer st)) < 2 ^ 32 ->
  draw a (model st) = Ok cmds ->
  Forall (fun c => 0 <= c.1 /\ 0 < c.2
                   /\ c.1 + c.2 <= Z.of_nat (length (indexBuffer st)))
         (omap draw_call cmds)
  /\ ForallOrdPairs (fun c c' => c.1 + c.2 <= c'.1 \/ c'.1 + c'.2 <= c.1)
                    (omap draw_call cmds).
Proof.
  intros Hload Hlen Hdraw.
  apply loadglTFFile_mesh_inv in Hload as [_ _ [Hnd _] _ Hrg].
  specialize (Hrg Hlen).
  assert (Hcalls : omap draw_call cmds
                   = (fun pr => (firstIndex pr, indexCount pr))
                     <$> drawn (heap (model st)) (linearMeshNodes (model st))).
  { unfold draw in Hdraw.
    apply (foldM_log (omap draw_call)
             (fun p => (fun pr => (firstIndex pr, indexCount pr))
                       <$> drawn (heap (model st)) [p])) in Hdraw.
    - by rewrite Hdraw, flat_map_fmap, drawn_flat_map.
    - intros s p s' _. apply drawNode_calls. }
  rewrite Hcalls. split.
  - apply Forall_fmap, Forall_forall. intros pr Hpr. simpl.
    apply drawn_elem in Hpr as (p & n & _ & Hn & Hpr & Hpos).
    destruct Hrg as [Hin _].
    destruct (Hin p (primitives (mesh n)) pr) as (? & ? & ?); [|done|lia].
    unfold all_primitives. rewrite list_lookup_fmap. unfold ptr in *.
    by rewrite Hn.
  - apply ForallOrdPairs_fmap. simpl.
    by apply (drawn_apart (Z.of_nat (length (indexBuffer st)))).
Qed.

(** ** Uniform buffers *)

Lemma getLocalMatrix_ext n n' :
  matrix n = matrix n' -> translation n = translation n' ->
  scale n = scale n' -> rotation n = rotation n' ->
  getLocalMatrix n = getLocalMatrix n'.
Proof. unfold getLocalMatrix. by intros -> -> -> ->. Qed.

Lemma transform_lookup (h h' : list Node) (p : ptr) :
  transform_of <$> h = transform_of <$> h' ->
  transform_of <$> (h !! p) = transform_of <$> (h' !! p).
Proof.
  intros E. unfold ptr in *. rewrite <- !list_lookup_fmap. by rewrite E.
Qed.

(** [getNodeMatrix] reads the parent pointers and the four transform
    fields only. *)
Lemma getNodeMatrix_loop_ext fuel h h' :
  transform_of <$> h = transform_of <$> h' ->
  forall cp M, getNodeMatrix_loop fuel h cp M = getNodeMatrix_loop fuel h' cp M.
Proof.
  intros E. induction fuel as [|fuel IH]; intros [p|] M; simpl; try done.
  unfold deref. pose proof (transform_lookup h h' p E) as Hp.
  destruct (h !! p) as [n|], (h' !! p) as [n'|]; simpl in *;
    try discriminate; [|done].
  injection Hp as Epar E1 E2 E3 E4.
  rewrite (getLocalMatrix_ext n n' E1 E2 E3 E4), Epar. apply IH.
Qed.

Lemma getNodeMatrix_ext fuel h h' (p : ptr) :
  transform_of <$> h = transform_of <$> h' ->
  getNodeMatrix fuel h p = getNodeMatrix fuel h' p.
Proof.
  intros E. unfold getNodeMatrix, deref.
  pose proof (transform_lookup h h' p E) as Hp.
  destruct (h !! p) as [n|], (h' !! p) as [n'|]; simpl in *;
    try discriminate; [|done].
  injection Hp as Epar E1 E2 E3 E4.
  rewrite (getLocalMatrix_ext n n' E1 E2 E3 E4), Epar.
  by apply getNodeMatrix_loop_ext.
Qed.

Lemma transform_of_insert (h : list Node) (p : ptr) n n' :
  h !! p = Some n -> transform_of n' = transform_of n ->
  transform_of <$> <[p := n']> h = transform_of <$> h.
Proof.
  intros Hp E. rewrite list_fmap_insert, E. apply list_insert_id.
  rewrite list_lookup_fmap. unfold ptr in *. by rewrite Hp.
Qed.

(** With the parents older than their children the parent chain of the
    node at [p] has at most [p] links. *)
Lemma getNodeMatrix_total h fuel (p : ptr) n :
  parent_lt h -> h !! p = Some n -> (p <= fuel)%nat ->
  exists M, getNodeMatrix fuel h p = Ok M.
Proof.
  intros Hlt Hn Hfuel.
  destruct (ancestors_exists _ Hlt p n Hn) as (anc & Hanc & Hlen).
  eexists. unfold getNodeMatrix, deref. rewrite Hn. simpl.
  apply (getNodeMatrix_loop_fold _ _ _ Hanc). lia.
Qed.

Lemma prepareMeshUniformBuffers_spec fresh meshNodes :
  forall h,
  (forall p : ptr, p ∈ meshNodes ->
     exists n, h !! p = Some n /\ primitives (mesh n) <> []) ->
  exists h1,
    prepareMeshUniformBuffers fresh h meshNodes = Ok h1
    /\ transform_of <$> h1 = transform_of <$> h
    /\ (forall p : ptr,
          (exists n, h !! p = Some n /\ primitives (mesh n) <> []) ->
          exists n, h1 !! p = Some n /\ primitives (mesh n) <> [])
    /\ (forall p : ptr,
          (exists n, h !! p = Some n /\ mapped (mesh n) <> None) ->
          exists n, h1 !! p = Some n /\ mapped (mesh n) <> None)
    /\ forall p : ptr, p ∈ meshNodes ->
         exists n, h1 !! p = Some n /\ mapped (mesh n) <> None.
Proof.
  unfold prepareMeshUniformBuffers.
  induction meshNodes as [|p l IH]; intros h Hprims.
  - exists h. repeat split; try done. intros p Hp. by apply elem_of_nil in Hp.
  - destruct (Hprims p) as (n & Hn & Hne); [left|].
    simpl. unfold deref. rewrite Hn. simpl.
    destruct (primitives (mesh n)) as [|pr prs] eqn:Epr; [done|].
    set (h0 := <[p := set_mapped (Some (fresh p)) n]> h).
    assert (Hkeep : forall q : ptr,
              (exists x, h !! q = Some x /\ primitives (mesh x) <> []) ->
              exists x, h0 !! q = Some x /\ primitives (mesh x) <> []).
    { intros q. apply (lookup_update_pred _ _ _ n); [done|]. simpl.
      by rewrite Epr. }
    assert (Hmap : forall q : ptr,
              (exists x, h !! q = Some x /\ mapped (mesh x) <> None) ->
              exists x, h0 !! q = Some x /\ mapped (mesh x) <> None).
    { intros q. by apply (lookup_update_pred _ _ _ n). }
    destruct (IH h0) as (h1 & Hrun & HT & Hp1 & Hm1 & Hall).
    { intros q Hq. apply Hkeep, Hprims. by right. }
    exists h1. split; [done|]. split; [|split; [|split]].
    + rewrite HT. by apply (transform_of_insert _ _ n).
    + intros q Hq. by apply Hp1, Hkeep.
    + intros q Hq. by apply Hm1, Hmap.
    + intros q Hq. apply elem_of_cons in Hq as [->|Hq]; [|by apply Hall].
      apply Hm1. exists (set_mapped (Some (fresh p)) n).
      split; [|done]. apply list_lookup_insert_eq. by apply lookup_lt_Some in Hn.
Qed.

Lemma updateMeshUniformBuffers_spec fuel (W : ptr -> mat4) meshNodes :
  forall h,
  (forall p : ptr, p ∈ meshNodes ->
     (exists n, h !! p = Some n /\ primitives (mesh n) <> [])
     /\ (exists n, h !! p = Some n /\ mapped (mesh n) <> None)
     /\ getNodeMatrix fuel h p = Ok (W p)) ->
  exists h2,
    updateMeshUniformBuffers fuel h meshNodes = Ok h2
    /\ transform_of <$> h2 = transform_of <$> h
    /\ (forall p : ptr,
          (exists n, h !! p = Some n /\ mapped (mesh n) = Some (W p)) ->
          exists n, h2 !! p = Some n /\ mapped (mesh n) = Some (W p))
    /\ forall p : ptr, p ∈ meshNodes ->
         exists n, h2 !! p = Some n /\ mapped (mesh n) = Some (W p).
Proof.
  unfold updateMeshUniformBuffers.
  induction meshNodes as [|p l IH]; intros h Hready.
  - exists h. repeat split; try done. intros p Hp. by apply elem_of_nil in Hp.
  - destruct (Hready p) as ((n & Hn & Hne) & (n1 & Hn1 & Hmapped) & HW); [left|].
    pose proof (eq_trans (eq_sym Hn) Hn1) as Heq. injection Heq as <-.
    assert (Ed : deref h p = Ok n) by (unfold deref; by rewrite Hn).
    simpl. rewrite Ed. simpl.
    destruct (primitives (mesh n)) as [|pr prs] eqn:Epr; [done|].
    destruct (mapped (mesh n)) as [old|] eqn:Emap; [|done].
    rewrite HW. simpl.
    set (h0 := <[p := set_mapped (Some (W p)) n]> h).
    assert (HT0 : transform_of <$> h0 = transform_of <$> h)
      by (by apply (transform_of_insert _ _ n)).
    assert (Hheld : forall q : ptr,
              (exists x, h !! q = Some x /\ mapped (mesh x) = Some (W q)) ->
              exists x, h0 !! q = Some x /\ mapped (mesh x) = Some (W q)).
    { intros q (x & Hx & Hxm). destruct (decide (q = p)) as [->|Hqp].
      - exists (set_mapped (Some (W p)) n). split; [|done].
        apply list_lookup_insert_eq. by apply lookup_lt_Some in Hn.
      - exists x. unfold h0. by rewrite list_lookup_insert_ne. }
    destruct (IH h0) as (h2 & Hrun & HT & Hkeep & Hall).
    { intros q Hq. destruct (Hready q) as (Hp1 & Hm1 & HW1); [by right|].
      split; [|split].
      - revert Hp1. apply (lookup_update_pred _ _ _ n); [done|]. simpl.
        by rewrite Epr.
      - revert Hm1. by apply (lookup_update_pred _ _ _ n).
      - by rewrite (getNodeMatrix_ext fuel h0 h q HT0). }
    exists h2. split; [done|]. split; [congruence|]. split.
    + intros q Hq. by apply Hkeep, Hheld.
    + intros q Hq. apply elem_of_cons in Hq as [->|Hq]; [|by apply Hall].
      apply Hkeep. exists (set_mapped (Some (W p)) n).
      split; [|done]. apply list_lookup_insert_eq. by apply lookup_lt_Some in Hn.
Qed.

(** X10. After [prepareMeshUniformBuffers] on a loaded model, whatever
    the fresh buffers hold, [updateMeshUniformBuffers] completes (with
    fuel from the number of nodes on) and leaves in the uniform buffer of
    every mesh node the world matrix of that node: the matrix
    [getNodeMatrix] gives for it, on the loaded model and afterwards
    alike. *)
Theorem uniform_buffers_hold_world_matrices fuel input st fresh fuel' :
  loadglTFFile fuel input = Ok st ->
  (length (heap (model st)) <= fuel')%nat ->
  exists h1 h2,
    prepareMeshUniformBuffers fresh (heap (model st)) (linearMeshNodes (model st))
    = Ok h1
    /\ updateMeshUniformBuffers fuel' h1 (linearMeshNodes (model st)) = Ok h2
    /\ forall p : ptr, p ∈ linearMeshNodes (model st) ->
         exists n2 M,
           h2 !! p = Some n2 /\ mapped (mesh n2) = Some M
           /\ getNodeMatrix fuel' (heap (model st)) p = Ok M
           /\ getNodeMatrix fuel' h2 p = Ok M.
Proof.
  intros Hload Hfuel.
  apply loadglTFFile_wellformed in Hload as Hwf. destruct Hwf as [Hlt _].
  apply loadglTFFile_mesh_inv in Hload as [_ _ [_ Hprims] _ _].
  set (h := heap (model st)) in *.
  set (l := linearMeshNodes (model st)) in *.
  set (W := fun p : ptr => match getNodeMatrix fuel' h p with
                           | Ok M => M
                           | _ => mat4_s F32.zero
                           end).
  assert (HW : forall p : ptr, p ∈ l -> getNodeMatrix fuel' h p = Ok (W p)).
  { intros p Hp. destruct (Hprims p Hp) as (n & Hn & _).
    destruct (getNodeMatrix_total h fuel' p n Hlt Hn) as [M HM].
    - apply lookup_lt_Some in Hn. lia.
    - unfold W. by rewrite HM. }
  destruct (prepareMeshUniformBuffers_spec fresh l h Hprims)
    as (h1 & Hprep & HT1 & Hp1 & _ & Hm1).
  destruct (updateMeshUniformBuffers_spec fuel' W l h1)
    as (h2 & Hupd & HT2 & _ & Hall).
  { intros p Hp. split; [by apply Hp1, Hprims|]. split; [by apply Hm1|].
    rewrite (getNodeMatrix_ext fuel' h1 h p HT1). by apply HW. }
  exists h1, h2. split; [done|]. split; [done|].
  intros p Hp. destruct (Hall p Hp) as (n2 & Hn2 & Hmapped).
  exists n2, (W p). split; [done|]. split; [done|]. split; [by apply HW|].
  rewrite (getNodeMatrix_ext fuel' h2 h p) by congruence. by apply HW.
Qed.

(** ** What the animation update leaves alone *)

Lemma fmap_insert_same {B : Type} (f : Node -> B) (h : list Node) (p : ptr) n n' :
  h !! p = Some n -> f n' = f n -> f <$> <[p := n']> h = f <$> h.
Proof.
  intros Hp E. rewrite list_fmap_insert, E. apply list_insert_id.
  rewrite list_lookup_fmap. unfold ptr in *. by rewrite Hp.
Qed.

(** A write through a channel's node pointer changes that node only,
    and of that node what the written field covers. *)
Lemma write_frame (g : Node -> Node) np h h' :
  write np g h = Ok h' ->
  (forall p : ptr, np <> Some p -> h' !! p = h !! p)
  /\ forall (B : Type) (f : Node -> B),
       (forall n, f (g n) = f n) -> f <$> h' = f <$> h.
Proof.
  intros Hw. unfold write in Hw. destruct np as [q|]; [|discriminate].
  apply bind_Ok in Hw as (n & Hn & Hw). injection Hw as <-.
  unfold deref in Hn. destruct (h !! q) as [n0|] eqn:E; [|discriminate].
  injection Hn as ->. split.
  - intros p Hne. apply list_lookup_insert_ne. by intros ->.
  - intros B f Hfg. by apply (fmap_insert_same f h q n).
Qed.

(** What one keyframe pair does to the nodes. *)
Lemma updateSegment_frame acos sin animation channel sampler i h out h' out' :
  updateSegment acos sin animation channel sampler i (h, out) = Ok (h', out') ->
  rigid_of <$> h' = rigid_of <$> h
  /\ (path channel <> "translation" -> translation <$> h' = translation <$> h)
  /\ (path channel <> "rotation" -> rotation <$> h' = rotation <$> h)
  /\ (path channel <> "scale" -> scale <$> h' = scale <$> h)
  /\ (forall p : ptr, node channel <> Some p -> h' !! p = h !! p)
  /\ out `prefix_of` out'.
Proof.
  unfold updateSegment. intros H.
  destruct (negb (String.eqb (interpolation sampler) "LINEAR")).
  { injection H as <- <-. repeat split; try done. by apply prefix_app_r. }
  apply bind_Ok in H as (ti & _ & H).
  destruct (negb _); [by injection H as <- <-|].
  apply bind_Ok in H as (ti1 & _ & H).
  destruct (negb _); [by injection H as <- <-|].
  apply bind_Ok in H as (h1 & H1 & H).
  apply bind_Ok in H as (h2 & H2 & H).
  apply bind_Ok in H as (h3 & H3 & H). injection H as <- <-.
  assert (F1 : rigid_of <$> h1 = rigid_of <$> h
               /\ (path channel <> "translation"
                   -> translation <$> h1 = translation <$> h)
               /\ rotation <$> h1 = rotation <$> h
               /\ scale <$> h1 = scale <$> h
               /\ forall p : ptr, node channel <> Some p -> h1 !! p = h !! p).
  { destruct (String.eqb_spec (path channel) "translation") as [E|E];
      [|by injection H1 as <-].
    apply bind_Ok in H1 as (o0 & _ & H1). apply bind_Ok in H1 as (o1 & _ & H1).
    apply write_frame in H1 as [L W].
    pose proof (W _ rigid_of (fun n => eq_refl)).
    pose proof (W _ rotation (fun n => eq_refl)).
    pose proof (W _ scale (fun n => eq_refl)).
    done. }
  assert (F2 : rigid_of <$> h2 = rigid_of <$> h1
               /\ translation <$> h2 = translation <$> h1
               /\ (path channel <> "rotation" -> rotation <$> h2 = rotation <$> h1)
               /\ scale <$> h2 = scale <$> h1
               /\ forall p : ptr, node channel <> Some p -> h2 !! p = h1 !! p).
  { destruct (String.eqb_spec (path channel) "rotation") as [E|E];
      [|by injection H2 as <-].
    apply bind_Ok in H2 as (o0 & _ & H2). apply bind_Ok in H2 as (o1 & _ & H2).
    apply write_frame in H2 as [L W].
    pose proof (W _ rigid_of (fun n => eq_refl)).
    pose proof (W _ translation (fun n => eq_refl)).
    pose proof (W _ scale (fun n => eq_refl)).
    done. }
  assert (F3 : rigid_of <$> h3 = rigid_of <$> h2
               /\ translation <$> h3 = translation <$> h2
               /\ rotation <$> h3 = rotation <$> h2
               /\ (path channel <> "scale" -> scale <$> h3 = scale <$> h2)
               /\ forall p : ptr, node channel <> Some p -> h3 !! p = h2 !! p).
  { destruct (String.eqb_spec (path channel) "scale") as [E|E];
      [|by injection H3 as <-].
    apply bind_Ok in H3 as (o0 & _ & H3). apply bind_Ok in H3 as (o1 & _ & H3).
    apply write_frame in H3 as [L W].
    pose proof (W _ rigid_of (fun n => eq_refl)).
    pose proof (W _ translation (fun n => eq_refl)).
    pose proof (W _ rotation (fun n => eq_refl)).
    done. }
  destruct F1 as (R1 & T1 & Q1 & S1 & L1), F2 as (R2 & T2 & Q2 & S2 & L2),
           F3 as (R3 & T3 & Q3 & S3 & L3).
  split; [congruence|]. split; [intros E; by rewrite T3, T2, (T1 E)|].
  split; [intros E; by rewrite Q3, (Q2 E), Q1|].
  split; [intros E; by rewrite (S3 E), S2, S1|].
  split; [|done]. intros p Hp. rewrite L3, L2, L1; done.
Qed.

(** X16. A channel writes the field its path names and nothing else:
    whatever it does, every node keeps its parent, children, mesh, raw
    matrix and index, and keeps each of translation, rotation and scale
    that is not the channel's path; nodes other than the channel's target
    are not touched at all; and a channel whose path is none of the three
    (such as "weights") leaves the whole node store as it was. *)
Theorem updateChannel_frame acos sin animation channel h out h' out' :
  updateChannel acos sin animation (h, out) channel = Ok (h', out') ->
  rigid_of <$> h' = rigid_of <$> h
  /\ (path channel <> "translation" -> translation <$> h' = translation <$> h)
  /\ (path channel <> "rotation" -> rotation <$> h' = rotation <$> h)
  /\ (path channel <> "scale" -> scale <$> h' = scale <$> h)
  /\ (forall p : ptr, node channel <> Some p -> h' !! p = h !! p)
  /\ (path channel ∉ animated_paths -> h' = h).
Proof.
  unfold updateChannel. intros H. apply bind_Ok in H as (sampler & _ & H).
  split; [|split; [|split; [|split; [|split]]]].
  - revert H. apply (for_range_inv (fun s => rigid_of <$> s.1 = rigid_of <$> h));
      [done|].
    intros i [h1 o1] [h2 o2] Hs Hstep. simpl in *.
    apply updateSegment_frame in Hstep as (-> & _). done.
  - intros E. revert H.
    apply (for_range_inv (fun s => translation <$> s.1 = translation <$> h));
      [done|].
    intros i [h1 o1] [h2 o2] Hs Hstep. simpl in *.
    apply updateSegment_frame in Hstep as (_ & Ht & _). by rewrite Ht.
  - intros E. revert H.
    apply (for_range_inv (fun s => rotation <$> s.1 = rotation <$> h)); [done|].
    intros i [h1 o1] [h2 o2] Hs Hstep. simpl in *.
    apply updateSegment_frame in Hstep as (_ & _ & Hr & _). by rewrite Hr.
  - intros E. revert H.
    apply (for_range_inv (fun s => scale <$> s.1 = scale <$> h)); [done|].
    intros i [h1 o1] [h2 o2] Hs Hstep. simpl in *.
    apply updateSegment_frame in Hstep as (_ & _ & _ & Hsc & _). by rewrite Hsc.
  - intros p Hp. revert H.
    apply (for_range_inv (fun s => s.1 !! p = h !! p)); [done|].
    intros i [h1 o1] [h2 o2] Hs Hstep. simpl in *.
    apply updateSegment_frame in Hstep as (_ & _ & _ & _ & Hl & _).
    by rewrite Hl.
  - intros Hpath. unfold animated_paths in Hpath.
    assert (E1 : String.eqb (path channel) "translation" = false)
      by (apply String.eqb_neq; intros E; apply Hpath; rewrite E; set_solver).
    assert (E2 : String.eqb (path channel) "rotation" = false)
      by (apply String.eqb_neq; intros E; apply Hpath; rewrite E; set_solver).
    assert (E3 : String.eqb (path channel) "scale" = false)
      by (apply String.eqb_neq; intros E; apply Hpath; rewrite E; set_solver).
    revert H. apply (for_range_inv (fun s => s.1 = h)); [done|].
    intros i [h1 o1] [h2 o2] Hs Hstep. simpl in *. subst h1.
    unfold updateSegment in Hstep. rewrite E1, E2, E3 in Hstep.
    destruct (negb _); [by injection Hstep as <- _|].
    apply bind_Ok in Hstep as (ti & _ & Hstep).
    destruct (negb _); [by injection Hstep as <- _|].
    apply bind_Ok in Hstep as (ti1 & _ & Hstep).
    destruct (negb _); [by injection Hstep as <- _|].
    simpl in Hstep. by injection Hstep as <- _.
Qed.

Lemma rigid_skeleton (h h' : list Node) :
  rigid_of <$> h' = rigid_of <$> h -> skeleton_of <$> h' = skeleton_of <$> h.
Proof.
  intros E.
  change skeleton_of
    with ((fun r : option ptr * list ptr * Mesh * mat4 * Z =>
             (r.1.1.1.1, r.1.1.1.2, primitives r.1.1.2, r.1.2, r.2)) ∘ rigid_of).
  by rewrite !list_fmap_compose, E.
Qed.

Lemma updateMeshUniformBuffers_skeleton fuel meshNodes h h' :
  updateMeshUniformBuffers fuel h meshNodes = Ok h' ->
  skeleton_of <$> h' = skeleton_of <$> h.
Proof.
  unfold updateMeshUniformBuffers.
  apply (foldM_inv (fun s => skeleton_of <$> s = skeleton_of <$> h)); [done|].
  intros s meshNode s' _ Hs Hstep.
  apply bind_Ok in Hstep as (n & Hn & Hstep).
  unfold deref in Hn. destruct (s !! meshNode) as [n0|] eqn:E; [|discriminate].
  injection Hn as ->.
  destruct (primitives (mesh n)) as [|pr prs] eqn:Epr; [by injection Hstep as <-|].
  destruct (mapped (mesh n)) as [mp|]; [|by injection Hstep as <-].
  apply bind_Ok in Hstep as (nodeMatrix & _ & Hstep). injection Hstep as <-.
  rewrite <- Hs. by apply (fmap_insert_same skeleton_of s meshNode n).
Qed.

(** X15. A tick changes no structure. Whether it reports a bad selector
    or runs, a completed [updateAnimation] leaves every node with its
    parent, children, primitives, raw matrix and index, leaves the root
    list, the mesh-node list and the selector as they were, changes no
    animation other than the selected one, changes of that one nothing
    but the clock, and only adds to the console. *)
Theorem updateAnimation_structure acos sin fuel deltaTime m m' :
  updateAnimation acos sin fuel deltaTime m = Ok m' ->
  skeleton_of <$> heap m' = skeleton_of <$> heap m
  /\ nodes m' = nodes m
  /\ linearMeshNodes m' = linearMeshNodes m
  /\ activeAnimation m' = activeAnimation m
  /\ timeless <$> animations m' = timeless <$> animations m
  /\ (forall i : nat, i <> Z.to_nat (activeAnimation m) ->
        animations m' !! i = animations m !! i)
  /\ console m `prefix_of` console m'.
Proof.
  unfold updateAnimation. intros H.
  destruct (_ >? _).
  { injection H as <-. simpl. repeat split; try done. by apply prefix_app_r. }
  apply bind_Ok in H as (animation & Hat & H).
  apply bind_Ok in H as ([h out] & Hfold & H).
  apply bind_Ok in H as (h' & Hubo & H). injection H as <-. simpl.
  apply at_lookup in Hat as [H0 Hl].
  apply updateMeshUniformBuffers_skeleton in Hubo.
  assert (Hch : rigid_of <$> h = rigid_of <$> heap m /\ console m `prefix_of` out).
  { revert Hfold.
    apply (foldM_inv (fun s => rigid_of <$> s.1 = rigid_of <$> heap m
                               /\ console m `prefix_of` s.2)); [done|].
    intros [h1 o1] channel [h2 o2] _ [Hs Ho] Hstep. simpl in *.
    unfold updateChannel in Hstep.
    apply bind_Ok in Hstep as (sampler & _ & Hstep). revert Hstep.
    apply (for_range_inv (fun s => rigid_of <$> s.1 = rigid_of <$> heap m
                                   /\ console m `prefix_of` s.2)); [done|].
    intros i [h3 o3] [h4 o4] [Hs3 Ho3] Hstep. simpl in *.
    apply updateSegment_frame in Hstep as (-> & _ & _ & _ & _ & Hpre).
    split; [done|]. by etrans. }
  destruct Hch as [Hrigid Hout].
  split; [rewrite Hubo; by apply rigid_skeleton|].
  repeat split; try done.
  - rewrite list_fmap_insert.
    replace (timeless (advance deltaTime animation)) with (timeless animation)
      by (unfold advance; by destruct (F32.gt _ _)).
    apply list_insert_id. by rewrite list_lookup_fmap, Hl.
  - intros i Hi. by apply list_lookup_insert_ne.
Qed.

(** X17. A sampler that is not LINEAR is never evaluated: the channel
    leaves every node as it was and prints the message once for each
    iteration of the keyframe loop, that is [inputs.size() - 1] times
    computed in [size_t]. *)
Theorem updateChannel_not_linear acos sin animation channel sampler h out :
  at_ (samplers animation) (samplerIndex channel) = Ok sampler ->
  interpolation sampler <> "LINEAR" ->
  updateChannel acos sin animation (h, out) channel
  = Ok (h, out ++ replicate
                    (Z.to_nat (usize (Z.of_nat (length (inputs sampler)) - 1)))
                    OnlyLinearInterpolations).
Proof.
  intros Hat Hlin. unfold updateChannel. rewrite Hat. simpl.
  apply String.eqb_neq in Hlin.
  assert (Hseg : forall i out,
            updateSegment acos sin animation channel sampler i (h, out)
            = Ok (h, out ++ [OnlyLinearInterpolations]))
    by (intros i out0; unfold updateSegment; by rewrite Hlin).
  generalize (Z.to_nat (usize (Z.of_nat (length (inputs sampler)) - 1))) as n.
  intros n. generalize 0 as i. revert out.
  induction n as [|n IH]; intros out i.
  - simpl. by rewrite app_nil_r.
  - rewrite for_range_S, Hseg.
    etrans; [apply IH|]. by rewrite <- (assoc_L (++)).
Qed.

Lemma for_range_Undefined {St : Type} n (body : Z -> St -> res St) (k : nat) :
  (forall i s, body i s <> OutOfFuel) -> (k < n)%nat ->
  forall i0, (forall s, body (i0 + Z.of_nat k) s = Undefined) ->
  forall s, for_range n i0 body s = Undefined.
Proof.
  intros Hfuel. revert k. induction n as [|n IH]; intros k Hk i0 Hbody s; [lia|].
  rewrite for_range_S. destruct k as [|k].
  - rewrite Z.add_0_r in Hbody. by rewrite Hbody.
  - destruct (body i0 s) as [s1| |] eqn:E; simpl; [|done|by destruct (Hfuel i0 s)].
    apply (IH k); [lia|]. intros s'.
    replace (i0 + 1 + Z.of_nat k) with (i0 + Z.of_nat (S k)) by lia. apply Hbody.
Qed.

Lemma at_Undefined_or_Ok {A : Type} (l : list A) i :
  at_ l i = Undefined \/ exists a, at_ l i = Ok a.
Proof.
  unfold at_. destruct (i <? 0); [by left|].
  destruct (l !! Z.to_nat i); [right; by eexists|by left].
Qed.

(** A keyframe pair around the current time, evaluated for a channel
    without target node. *)
Lemma updateSegment_null_target acos sin animation channel sampler (i : nat)
    t0 t1 st :
  node channel = None ->
  path channel ∈ animated_paths ->
  interpolation sampler = "LINEAR" ->
  inputs sampler !! i = Some t0 ->
  inputs sampler !! S i = Some t1 ->
  F32.ge (currentTime animation) t0 = true ->
  F32.le (currentTime animation) t1 = true ->
  updateSegment acos sin animation channel sampler (Z.of_nat i) st = Undefined.
Proof.
  intros Hnull Hpath Hlin Ht0 Ht1 Hge Hle. destruct st as [h out].
  unfold updateSegment. rewrite Hlin. simpl.
  assert (E0 : at_ (inputs sampler) (Z.of_nat i) = Ok t0)
    by (apply at_lookup; split; [lia|by rewrite Nat2Z.id]).
  assert (E1 : at_ (inputs sampler) (Z.of_nat i + 1) = Ok t1).
  { apply at_lookup. split; [lia|].
    by replace (Z.to_nat (Z.of_nat i + 1)) with (S i) by lia. }
  rewrite E0. simpl. rewrite Hge. simpl. rewrite E1. simpl. rewrite Hle. simpl.
  rewrite Hnull.
  assert (Hcases : path channel = "translation" \/ path channel = "rotation"
                   \/ path channel = "scale").
  { unfold animated_paths in Hpath.
    apply elem_of_cons in Hpath as [?|Hpath]; [by left|].
    apply elem_of_cons in Hpath as [?|Hpath]; [by right; left|].
    apply list_elem_of_singleton in Hpath. by right; right. }
  destruct (at_Undefined_or_Ok (outputsVec4 sampler) (Z.of_nat i))
    as [Ea|[o0 Ea]];
    destruct (at_Undefined_or_Ok (outputsVec4 sampler) (Z.of_nat i + 1))
      as [Eb|[o1 Eb]];
    destruct Hcases as [-> | [-> | ->]]; simpl;
    rewrite ?Ea; simpl; rewrite ?Eb; done.
Qed.

(** X19. A channel whose target was not found at load time has a null
    node pointer, and nothing at update time tests it: when such a channel
    of the selected animation animates translation, rotation or scale and
    its LINEAR sampler has a keyframe pair around the advanced clock, the
    tick writes through the null pointer and is undefined behaviour. *)
Theorem updateAnimation_null_target acos sin fuel deltaTime m animation
    channel sampler (i : nat) t0 t1 :
  Z.of_nat (length (animations m)) < 2 ^ 32 ->
  at_ (animations m) (activeAnimation m) = Ok animation ->
  channel ∈ channels animation ->
  node channel = None ->
  path channel ∈ animated_paths ->
  at_ (samplers animation) (samplerIndex channel) = Ok sampler ->
  interpolation sampler = "LINEAR" ->
  Z.of_nat (length (inputs sampler)) < 2 ^ 64 ->
  inputs sampler !! i = Some t0 ->
  inputs sampler !! S i = Some t1 ->
  F32.ge (currentTime (advance deltaTime animation)) t0 = true ->
  F32.le (currentTime (advance deltaTime animation)) t1 = true ->
  updateAnimation acos sin fuel deltaTime m = Undefined.
Proof.
  intros Hlen Hat Hin Hnull Hpath Hs Hlin Hlen64 Ht0 Ht1 Hge Hle.
  apply at_lookup in Hat as Hat'. destruct Hat' as [H0 Hl].
  apply lookup_lt_Some in Hl as Hlt.
  unfold updateAnimation.
  rewrite (u32_small (Z.of_nat _)), u32_small by lia.
  destruct (Z.gtb_spec (activeAnimation m) (Z.of_nat (length (animations m)) - 1));
    [lia|].
  rewrite Hat. simpl.
  assert (Hadv : channels (advance deltaTime animation) = channels animation
                 /\ samplers (advance deltaTime animation) = samplers animation).
  { unfold advance. by destruct (F32.gt _ _). }
  destruct Hadv as [Hch Hsm]. rewrite Hch.
  rewrite (foldM_Undefined _ _ channel); [done| |done|].
  - intros s a. apply updateChannel_not_OutOfFuel.
  - intros s. unfold updateChannel. rewrite Hsm, Hs. simpl.
    apply lookup_lt_Some in Ht1 as Hi.
    apply (for_range_Undefined _ _ i).
    + intros j s0. apply updateSegment_not_OutOfFuel.
    + unfold usize. rewrite Z.mod_small by lia. lia.
    + intros s0. simpl.
      by apply (updateSegment_null_target _ _ _ _ _ i t0 t1).
Qed.

(** ** The range of an animation *)

Lemma lt_order_key x y :
  F32.lt x y = true <->
  exists a b, order_key x = Some a /\ order_key y = Some b /\ lex_lt a b.
Proof.
  unfold F32.lt, SFltb, SFcompare, lex_lt.
  destruct x as [sx|sx| |sx mx ex], y as [sy|sy| |sy my ey];
    try destruct sx; try destruct sy; simpl;
    try (split; [discriminate|intros (a & b & Ha & Hb & H); simplify_eq; simpl in *; lia]);
    try (split; [intros _; eexists _, _; split; [done|split; [done|simpl; lia]]|done]).
  - (* both negative *)
    destruct (Z.compare_spec ex ey) as [->|Hlt|Hgt].
    + change (Pcompare mx my Eq) with (Pos.compare mx my).
      destruct (Pos.compare_spec mx my) as [->|Hm|Hm]; simpl.
      * split; [discriminate|intros (a & b & Ha & Hb & H); simplify_eq; simpl in *; lia].
      * split; [discriminate|intros (a & b & Ha & Hb & H); simplify_eq; simpl in *; lia].
      * split; [intros _; eexists _, _; split; [done|split; [done|simpl; lia]]|done].
    + split; [discriminate|intros (a & b & Ha & Hb & H); simplify_eq; simpl in *; lia].
    + split; [intros _; eexists _, _; split; [done|split; [done|simpl; lia]]|done].
  - (* both positive *)
    destruct (Z.compare_spec ex ey) as [->|Hlt|Hgt].
    + change (Pcompare mx my Eq) with (Pos.compare mx my).
      destruct (Pos.compare_spec mx my) as [->|Hm|Hm]; simpl.
      * split; [discriminate|intros (a & b & Ha & Hb & H); simplify_eq; simpl in *; lia].
      * split; [intros _; eexists _, _; split; [done|split; [done|simpl; lia]]|done].
      * split; [discriminate|intros (a & b & Ha & Hb & H); simplify_eq; simpl in *; lia].
    + split; [intros _; eexists _, _; split; [done|split; [done|simpl; lia]]|done].
    + split; [discriminate|intros (a & b & Ha & Hb & H); simplify_eq; simpl in *; lia].
Qed.

(** [<] on [float] is a strict order, NaN included. *)
Lemma lt_irrefl x : F32.lt x x = false.
Proof.
  destruct (F32.lt x x) eqn:E; [|done].
  apply lt_order_key in E as (a & b & Ha & Hb & H). simplify_eq.
  unfold lex_lt in H. lia.
Qed.

Lemma lt_trans x y z :
  F32.lt x y = true -> F32.lt y z = true -> F32.lt x z = true.
Proof.
  intros Hxy Hyz.
  apply lt_order_key in Hxy as (a & b & Ha & Hb & Hab).
  apply lt_order_key in Hyz as (b' & c & Hb' & Hc & Hbc). simplify_eq.
  apply lt_order_key. exists a, c. repeat split; try done.
  unfold lex_lt in *. lia.
Qed.

Lemma lt_false_below t s s' :
  F32.lt t s = false -> s' = s \/ F32.lt s' s = true -> F32.lt t s' = false.
Proof.
  intros Ht [->|Hs]; [done|].
  destruct (F32.lt t s') eqn:E; [|done].
  by rewrite (lt_trans t s' s E Hs) in Ht.
Qed.

Lemma lt_false_above t e e' :
  F32.lt e t = false -> e' = e \/ F32.lt e e' = true -> F32.lt e' t = false.
Proof.
  intros Ht [->|He]; [done|].
  destruct (F32.lt e' t) eqn:E; [|done].
  by rewrite (lt_trans e e' t He E) in Ht.
Qed.

(** The running minimum ends at or below where it started and is not
    above any value it has seen. *)
Lemma running_min_fold ins :
  forall s,
  (fold_left running_min ins s = s
   \/ F32.lt (fold_left running_min ins s) s = true)
  /\ forall t, t ∈ ins -> F32.lt t (fold_left running_min ins s) = false.
Proof.
  induction ins as [|x ins IH]; intros s; simpl.
  - split; [by left|]. intros t Ht. by apply elem_of_nil in Ht.
  - destruct (IH (running_min s x)) as [Hs Hin].
    assert (H1 : running_min s x = s \/ F32.lt (running_min s x) s = true).
    { unfold running_min. destruct (F32.lt x s) eqn:E; [by right|by left]. }
    assert (Hx : F32.lt x (running_min s x) = false).
    { unfold running_min. destruct (F32.lt x s) eqn:E; [apply lt_irrefl|done]. }
    split.
    + destruct Hs as [Hs|Hs]; [by rewrite Hs|].
      destruct H1 as [H1|H1]; [right; congruence|].
      right. by apply (lt_trans _ (running_min s x)).
    + intros t Ht. apply elem_of_cons in Ht as [->|Ht]; [|by apply Hin].
      by apply (lt_false_below x (running_min s x)).
Qed.

Lemma running_max_fold ins :
  forall e,
  (fold_left running_max ins e = e
   \/ F32.lt e (fold_left running_max ins e) = true)
  /\ forall t, t ∈ ins -> F32.gt t (fold_left running_max ins e) = false.
Proof.
  unfold F32.gt. induction ins as [|x ins IH]; intros e; simpl.
  - split; [by left|]. intros t Ht. by apply elem_of_nil in Ht.
  - destruct (IH (running_max e x)) as [He Hin].
    assert (H1 : running_max e x = e \/ F32.lt e (running_max e x) = true).
    { unfold running_max, F32.gt.
      destruct (SFltb e x) eqn:E; [right; exact E|by left]. }
    assert (Hx : F32.lt (running_max e x) x = false).
    { unfold running_max, F32.gt.
      destruct (SFltb e x) eqn:E; [apply lt_irrefl|exact E]. }
    split.
    + destruct He as [He|He]; [by rewrite He|].
      destruct H1 as [H1|H1]; [right; congruence|].
      right. by apply (lt_trans _ (running_max e x)).
    + intros t Ht. apply elem_of_cons in Ht as [->|Ht]; [|by apply Hin].
      by apply (lt_false_above x (running_max e x)).
Qed.

Lemma elem_of_insert_cases {A : Type} (l : list A) (i : nat) x y :
  y ∈ <[i := x]> l -> y = x \/ y ∈ l.
Proof.
  intros H. apply list_elem_of_lookup in H as [k Hk].
  destruct (decide (k = i)) as [->|Hne].
  - rewrite list_lookup_insert_eq in Hk
      by (apply lookup_lt_Some in Hk; by rewrite length_insert in Hk).
    left. by injection Hk.
  - rewrite list_lookup_insert_ne in Hk by done.
    right. by apply list_elem_of_lookup_2 in Hk.
Qed.

Lemma elem_of_vector_resize {A : Type} (n : nat) (d : A) (l : list A) x :
  x ∈ vector_resize n d l -> x ∈ l \/ x = d.
Proof.
  unfold vector_resize. intros H. apply elem_of_app in H as [H|H].
  - left. apply elem_of_take in H as (i & Hi & _).
    by apply list_elem_of_lookup_2 in Hi.
  - right. by apply elem_of_replicate_inv in H.
Qed.

Lemma adjust_start_end_samplers ins a :
  samplers (fold_left adjust_start_end ins a) = samplers a.
Proof.
  revert a. induction ins as [|x ins IH]; intros a; [done|].
  simpl. rewrite IH. unfold adjust_start_end.
  destruct (F32.lt x (start a)); simpl; destruct (F32.gt x _); done.
Qed.

Lemma loadSampler_within_range input g j a out a' out' :
  within_range a ->
  loadSampler input g j (a, out) = Ok (a', out') ->
  within_range a'.
Proof.
  intros Hin H. unfold loadSampler in H.
  apply bind_Ok in H as (glTFSampler & _ & H).
  apply bind_Ok in H as (dstSampler & Hdst & H).
  apply bind_Ok in H as (accessor & _ & H).
  apply bind_Ok in H as (ins & _ & H).
  apply bind_Ok in H as (accessor' & _ & H).
  apply bind_Ok in H as ([outs out1] & _ & H). injection H as <- _.
  destruct (adjust_start_end_fold ins a) as [Es Ee].
  destruct (running_min_fold ins (start a)) as [Hs Hmin].
  destruct (running_max_fold ins (end_ a)) as [He Hmax].
  intros s t Hs' Ht. simpl in *. rewrite Es, Ee.
  rewrite adjust_start_end_samplers in Hs'.
  apply elem_of_insert_cases in Hs' as [->|Hs'].
  - simpl in Ht. split; [by apply Hmin|by apply Hmax].
  - destruct (Hin s t Hs' Ht) as [H1 H2]. split.
    + by apply (lt_false_below t (start a)).
    + by apply (lt_false_above t (end_ a)).
Qed.

Lemma loadAnimation_within_range fuel input i m m' :
  (forall a, a ∈ animations m -> within_range a) ->
  loadAnimation fuel input i m = Ok m' ->
  forall a, a ∈ animations m' -> within_range a.
Proof.
  intros Hall H. unfold loadAnimation in H.
  apply bind_Ok in H as (g & _ & H).
  apply bind_Ok in H as (a0 & Ha0 & H).
  apply bind_Ok in H as ([a1 out] & Hsamplers & H).
  apply bind_Ok in H as (a2 & Hchannels & H). injection H as <-. simpl.
  assert (H0 : within_range a0).
  { apply Hall. apply at_lookup in Ha0 as [_ Ha0].
    by apply list_elem_of_lookup_2 in Ha0. }
  assert (H1 : within_range a1).
  { revert Hsamplers.
    apply (for_range_inv (fun s => within_range s.1)).
    - intros s t Hs Ht. simpl in *.
      apply elem_of_vector_resize in Hs as [Hs| ->]; [by apply (H0 s t)|].
      by apply elem_of_nil in Ht.
    - intros j [b o] [b' o'] Hb Hstep. simpl in *.
      by apply (loadSampler_within_range input g j b o b' o'). }
  assert (H2 : within_range a2).
  { revert Hchannels.
    apply (for_range_inv (fun s => within_range s)); [done|].
    intros j b b' Hb Hstep. unfold loadChannel in Hstep.
    apply bind_Ok in Hstep as (gc & _ & Hstep).
    apply bind_Ok in Hstep as (c & _ & Hstep).
    apply bind_Ok in Hstep as (found & _ & Hstep). by injection Hstep as <-. }
  intros a Ha. apply elem_of_insert_cases in Ha as [->|Ha]; [done|by apply Hall].
Qed.

Lemma loadAnimations_within_range fuel input m m' :
  (forall a, a ∈ animations m -> within_range a) ->
  loadAnimations fuel input m = Ok m' ->
  forall a, a ∈ animations m' -> within_range a.
Proof.
  intros Hall. unfold loadAnimations.
  apply (for_range_inv (fun s => forall a, a ∈ animations s -> within_range a)).
  - intros a Ha. simpl in Ha.
    apply elem_of_vector_resize in Ha as [Ha| ->]; [by apply Hall|].
    intros s t Hs. by apply elem_of_nil in Hs.
  - intros i s s' Hs Hstep. by apply (loadAnimation_within_range fuel input i s).
Qed.

(** [loadNode] does not touch the animations. *)
Lemma loadPrimitives_animations input (node : ptr) l :
  forall st r, loadPrimitives input node l st = Ok r ->
  animations (model (flow_state r)) = animations (model st).
Proof.
  induction l as [|glTFPrimitive l IH]; intros st r Hrun.
  - by injection Hrun as <-.
  - simpl in Hrun. apply bind_Ok in Hrun as (r1 & H1 & Hrun).
    apply loadPrimitive_frame in H1 as [(_ & _ & E1 & _) _].
    destruct r1 as [st1|st1]; simpl in *.
    + apply IH in Hrun. congruence.
    + by injection Hrun as <-.
Qed.

Lemma loadNode_animations input fuel :
  forall inputNode parent_ idx st st',
  loadNode fuel input inputNode parent_ idx st = Ok st' ->
  animations (model st') = animations (model st).
Proof.
  induction fuel as [|f IH]; intros inputNode parent_ idx st st' Hrun;
    [discriminate|].
  rewrite loadNode_S in Hrun.
  apply bind_Ok in Hrun as (n0 & _ & Hrun).
  apply bind_Ok in Hrun as (st1 & Hch & Hrun).
  apply bind_Ok in Hrun as (r & Hmesh & Hrun).
  assert (H1 : animations (model st1) = animations (model st)).
  { unfold loadChildren in Hch. revert Hch.
    apply (foldM_inv (fun s => animations (model s) = animations (model st)));
      [done|].
    intros s child s' _ Hs Hstep.
    apply bind_Ok in Hstep as (childNode & _ & Hstep).
    apply IH in Hstep. congruence. }
  assert (H2 : animations (model (flow_state r)) = animations (model st1)).
  { unfold loadMesh in Hmesh. destruct (_ >? _).
    - apply bind_Ok in Hmesh as (mesh_ & _ & Hmesh).
      by apply loadPrimitives_animations in Hmesh.
    - by injection Hmesh as <-. }
  destruct r as [st2|st2]; simpl in H2.
  - apply bind_Ok in Hrun as (m & Hatt & Hrun). injection Hrun as <-. simpl.
    unfold attachNode in Hatt.
    apply bind_Ok in Hatt as (m1 & Hm1 & Hatt).
    apply bind_Ok in Hatt as (n & _ & Hatt).
    assert (E1 : animations m1 = animations (model st2)).
    { destruct parent_ as [q|].
      - apply bind_Ok in Hm1 as (h & _ & Hm1). by injection Hm1 as <-.
      - by injection Hm1 as <-. }
    assert (E2 : animations m = animations m1)
      by (destruct (primitives (mesh n)); by injection Hatt as <-).
    congruence.
  - injection Hrun as <-. congruence.
Qed.

Lemma loadglTFFile_nodes_state fuel input st :
  loadglTFFile fuel input = Ok st ->
  exists st1,
    animations (model st1) = []
    /\ loadAnimations fuel input (model st1) = Ok (model st)
    /\ indexBuffer st = indexBuffer st1 /\ vertexBuffer st = vertexBuffer st1.
Proof.
  unfold loadglTFFile. intros H.
  apply bind_Ok in H as (scene & _ & H).
  apply bind_Ok in H as (st1 & Hfold & H).
  apply bind_Ok in H as (m & Hanim & H). injection H as <-.
  exists st1. split; [|done].
  revert Hfold. apply (foldM_inv (fun s => animations (model s) = [])); [done|].
  intros s i s' _ Hs Hstep.
  apply bind_Ok in Hstep as (node_ & _ & Hstep).
  apply loadNode_animations in Hstep. congruence.
Qed.

(** X12. Every animation of a loaded model has all the keyframe times of
    all its samplers inside [start, end]: no time is less than [start] and
    none is greater than [end], whatever the order of the samplers and of
    the times in them, and with NaN times compared as the program does. *)
Theorem loadglTFFile_within_range fuel input st :
  loadglTFFile fuel input = Ok st ->
  forall a, a ∈ animations (model st) -> within_range a.
Proof.
  intros H. apply loadglTFFile_nodes_state in H as (st1 & Hnil & Hanim & _).
  apply (loadAnimations_within_range fuel input (model st1)); [|done].
  intros a Ha. rewrite Hnil in Ha. by apply elem_of_nil in Ha.
Qed.

(** ** Channels of a loaded model *)

Lemma findNode_S fuel h (p : ptr) i :
  findNode (S fuel) h p i
  = (n ← deref h p;
     if index n =? i then Ok (Some p) else findNode_children fuel h (children n) i).
Proof. reflexivity. Qed.

Lemma findNode_children_cons fuel h (c : ptr) cs i :
  findNode_children fuel h (c :: cs) i
  = (nodeFound ← findNode fuel h c i;
     match nodeFound with
     | Some _ => Ok nodeFound
     | None => findNode_children fuel h cs i
     end).
Proof. reflexivity. Qed.

Lemma bind_Ok_l {A B : Type} (a : A) (k : A -> res B) : Ok a ≫= k = k a.
Proof. reflexivity. Qed.

(** More fuel does not change an answer. *)
Lemma findNode_mono_S fuel :
  forall h (p : ptr) i r,
  findNode fuel h p i = Ok r -> findNode (S fuel) h p i = Ok r.
Proof.
  induction fuel as [|fuel IH]; intros h p i r H; [discriminate|].
  rewrite findNode_S in H. rewrite (findNode_S (S fuel)).
  destruct (deref h p) as [n| |]; [|discriminate|discriminate].
  rewrite bind_Ok_l in H |- *.
  destruct (index n =? i); [done|].
  revert r H. generalize (children n) as cs.
  induction cs as [|c cs IHcs]; intros r H; [done|].
  rewrite findNode_children_cons in H |- *.
  destruct (findNode fuel h c i) as [found| |] eqn:E;
    [|discriminate|discriminate].
  rewrite (IH _ _ _ _ E). rewrite bind_Ok_l in H |- *.
  destruct found; [done|]. by apply IHcs.
Qed.

Lemma findNode_mono fuel fuel' h (p : ptr) i r :
  (fuel <= fuel')%nat -> findNode fuel h p i = Ok r -> findNode fuel' h p i = Ok r.
Proof.
  induction 1 as [|fuel' _ IH]; [done|].
  intros H. by apply findNode_mono_S, IH.
Qed.

Lemma nodeFromIndex_loop_mono fuel fuel' h roots i :
  (fuel <= fuel')%nat ->
  forall r, nodeFromIndex_loop fuel h roots i = Ok r ->
  nodeFromIndex_loop fuel' h roots i = Ok r.
Proof.
  intros Hle. induction roots as [|p roots IH]; intros r H; [done|].
  change (nodeFromIndex_loop fuel h (p :: roots) i)
    with (nodeFound ← findNode fuel h p i;
          match nodeFound with
          | Some _ => Ok nodeFound
          | None => nodeFromIndex_loop fuel h roots i
          end) in H.
  change (nodeFromIndex_loop fuel' h (p :: roots) i)
    with (nodeFound ← findNode fuel' h p i;
          match nodeFound with
          | Some _ => Ok nodeFound
          | None => nodeFromIndex_loop fuel' h roots i
          end).
  destruct (findNode fuel h p i) as [found| |] eqn:E;
    [|discriminate|discriminate].
  rewrite (findNode_mono fuel fuel' h p i found Hle E).
  rewrite bind_Ok_l in H |- *.
  destruct found; [done|]. by apply IH.
Qed.

(** Whatever the fuel, an answer of [nodeFromIndex] is the first node
    with that index in depth-first order. *)
Lemma nodeFromIndex_answer fuel m forest i r :
  Forall2 (shape (heap m)) (nodes m) forest ->
  nodeFromIndex fuel m i = Ok r ->
  r = first_with_index i (forest_nodes forest).
Proof.
  intros Hshape H. unfold nodeFromIndex in H.
  apply (nodeFromIndex_loop_mono fuel (Nat.max fuel (forest_depth forest)))
    in H; [|lia].
  rewrite (nodeFromIndex_loop_preorder _ _ forest Hshape) in H by lia.
  by injection H.
Qed.

(** A counting loop with its counter in the invariant. *)
Lemma for_range_idx {St : Type} (P : nat -> St -> Prop) n
    (body : Z -> St -> res St) :
  (forall (k : nat) s s', (k < n)%nat -> P k s -> body (Z.of_nat k) s = Ok s' ->
     P (S k) s') ->
  forall s s', P O s -> for_range n 0 body s = Ok s' -> P n s'.
Proof.
  intros Hbody.
  assert (G : forall m (k : nat) s s', (k + m = n)%nat -> P k s ->
            for_range m (Z.of_nat k) body s = Ok s' -> P n s').
  { induction m as [|m IH]; intros k s s' Hk Hs Hrun.
    - injection Hrun as <-. by replace n with k by lia.
    - rewrite for_range_S in Hrun. apply bind_Ok in Hrun as (s1 & H1 & Hrun).
      replace (Z.of_nat k + 1) with (Z.of_nat (S k)) in Hrun by lia.
      apply (IH (S k) s1 s'); [lia| |done].
      apply (Hbody k s); [lia|done|done]. }
  intros s s' Hs Hrun. by apply (G n O s s').
Qed.

Lemma length_vector_resize {A : Type} (n : nat) (d : A) (l : list A) :
  length (vector_resize n d l) = n.
Proof.
  unfold vector_resize. rewrite length_app, length_take, length_replicate. lia.
Qed.

Lemma loadChannels_resolved fuel m g forest a a' :
  Forall2 (shape (heap m)) (nodes m) forest ->
  length (channels a) = length (tinygltf.channels g) ->
  for_range (length (tinygltf.channels g)) 0 (loadChannel fuel m g) a = Ok a' ->
  Forall2 (resolved forest) (tinygltf.channels g) (channels a').
Proof.
  intros Hshape Hlen Hrun.
  set (n := length (tinygltf.channels g)) in *.
  assert (H : length (channels a') = n
              /\ forall (j : nat) gc c, (j < n)%nat ->
                   tinygltf.channels g !! j = Some gc ->
                   channels a' !! j = Some c -> resolved forest gc c).
  { revert Hrun.
    apply (for_range_idx
             (fun k s => length (channels s) = n
                         /\ forall (j : nat) gc c, (j < k)%nat ->
                              tinygltf.channels g !! j = Some gc ->
                              channels s !! j = Some c -> resolved forest gc c)).
    - intros k s s' Hk [Hl Hdone] Hstep. unfold loadChannel in Hstep.
      apply bind_Ok in Hstep as (gc & Hgc & Hstep).
      apply bind_Ok in Hstep as (c0 & _ & Hstep).
      apply bind_Ok in Hstep as (found & Hfound & Hstep). injection Hstep as <-.
      simpl. rewrite Nat2Z.id. split; [by rewrite length_insert|].
      intros j gc' c Hj Hgc' Hc.
      destruct (decide (j = k)) as [->|Hne].
      + rewrite list_lookup_insert_eq in Hc by lia. injection Hc as <-.
        apply at_lookup in Hgc as [_ Hgc]. rewrite Nat2Z.id in Hgc.
        assert (gc' = gc) as -> by congruence.
        repeat split. simpl. by apply (nodeFromIndex_answer fuel m).
      + rewrite list_lookup_insert_ne in Hc by done.
        apply (Hdone j); [lia|done|done].
    - split; [done|]. intros j gc c Hj. lia. }
  destruct H as [Hl H].
  apply Forall2_same_length_lookup_2; [by rewrite Hl|].
  intros j gc c Hgc Hc. apply (H j); [|done|done].
  apply lookup_lt_Some in Hgc. done.
Qed.

Lemma loadAnimation_channels fuel input (i : nat) m m' forest :
  Forall2 (shape (heap m)) (nodes m) forest ->
  loadAnimation fuel input (Z.of_nat i) m = Ok m' ->
  exists g a,
    tinygltf.animations input !! i = Some g
    /\ animations m' = <[i := a]> (animations m)
    /\ name a = tinygltf.name g
    /\ length (samplers a) = length (tinygltf.samplers g)
    /\ Forall2 (resolved forest) (tinygltf.channels g) (channels a).
Proof.
  intros Hshape H. unfold loadAnimation in H.
  apply bind_Ok in H as (g & Hg & H).
  apply bind_Ok in H as (a0 & _ & H).
  apply bind_Ok in H as ([a1 out] & Hsamplers & H).
  apply bind_Ok in H as (a2 & Hchannels & H). injection H as <-. simpl.
  rewrite Nat2Z.id. apply at_lookup in Hg as [_ Hg]. rewrite Nat2Z.id in Hg.
  exists g, a2. split; [done|]. split; [done|].
  assert (H1 : name a1 = tinygltf.name g
               /\ length (samplers a1) = length (tinygltf.samplers g)).
  { revert Hsamplers.
    apply (for_range_inv
             (fun s => name s.1 = tinygltf.name g
                       /\ length (samplers s.1) = length (tinygltf.samplers g))).
    - simpl. split; [done|]. apply length_vector_resize.
    - intros j [b o] [b' o'] [Hn Hl] Hstep. simpl in *.
      unfold loadSampler in Hstep.
      apply bind_Ok in Hstep as (glTFSampler & _ & Hstep).
      apply bind_Ok in Hstep as (dstSampler & _ & Hstep).
      apply bind_Ok in Hstep as (accessor & _ & Hstep).
      apply bind_Ok in Hstep as (ins & _ & Hstep).
      apply bind_Ok in Hstep as (accessor' & _ & Hstep).
      apply bind_Ok in Hstep as ([outs out1] & _ & Hstep).
      injection Hstep as <- _. simpl.
      rewrite length_insert, adjust_start_end_samplers. split; [|done].
      clear -Hn. revert b Hn. induction ins as [|x ins IH]; intros b Hn; [done|].
      simpl. apply IH. unfold adjust_start_end.
      destruct (F32.lt x (start b)); simpl; destruct (F32.gt x _); done. }
  assert (H2 : name a2 = name a1 /\ samplers a2 = samplers a1).
  { revert Hchannels.
    apply (for_range_inv (fun s => name s = name a1 /\ samplers s = samplers a1));
      [done|].
    intros j b b' Hb Hstep. unfold loadChannel in Hstep.
    apply bind_Ok in Hstep as (gc & _ & Hstep).
    apply bind_Ok in Hstep as (c & _ & Hstep).
    apply bind_Ok in Hstep as (found & _ & Hstep). by injection Hstep as <-. }
  destruct H1 as [Hn1 Hl1], H2 as [Hn2 Hs2].
  split; [congruence|]. split; [congruence|].
  eapply (loadChannels_resolved fuel m g forest); [done| |exact Hchannels].
  simpl. apply length_vector_resize.
Qed.

(** X13. The animations of a loaded model against the asset: there is
    one animation for each animation of the asset, in order and with its
    name, with as many samplers, and one channel for each channel, in
    order; a channel has the path and the sampler index of its source, and
    its node is the first node of the scene forest, roots in order and
    each subtree depth-first, whose index is the target index, or null
    when the forest has none. So a channel's node is never dangling, and
    it has the requested index. *)
Theorem loadglTFFile_channels fuel input st :
  loadglTFFile fuel input = Ok st ->
  exists forest,
    Forall2 (shape (heap (model st))) (nodes (model st)) forest
    /\ Forall2 (fun g a =>
                  name a = tinygltf.name g
                  /\ length (samplers a) = length (tinygltf.samplers g)
                  /\ Forall2 (resolved forest) (tinygltf.channels g) (channels a))
               (tinygltf.animations input) (animations (model st))
    /\ forall a c (p : ptr),
         a ∈ animations (model st) -> c ∈ channels a -> node c = Some p ->
         exists n gc, heap (model st) !! p = Some n
                      /\ index n = u32 (tinygltf.target_node gc)
                      /\ path c = tinygltf.target_path gc.
Proof.
  intros Hload.
  apply loadglTFFile_wellformed in Hload as Hwf.
  destruct Hwf as (_ & forest & Hforest).
  apply loadglTFFile_nodes_state in Hload as (st1 & Hnil & Hanim & _).
  apply loadAnimations_frame in Hanim as Hframe. destruct Hframe as (Eh & En & _).
  exists forest. split; [done|].
  set (ok := fun (g : tinygltf.Animation) (a : Animation) =>
               name a = tinygltf.name g
               /\ length (samplers a) = length (tinygltf.samplers g)
               /\ Forall2 (resolved forest) (tinygltf.channels g) (channels a)).
  assert (Hall : Forall2 ok (tinygltf.animations input) (animations (model st))).
  { unfold loadAnimations in Hanim.
    set (n := length (tinygltf.animations input)) in *.
    assert (H : heap (model st) = heap (model st1)
                /\ nodes (model st) = nodes (model st1)
                /\ length (animations (model st)) = n
                /\ forall (i : nat) g a, (i < n)%nat ->
                     tinygltf.animations input !! i = Some g ->
                     animations (model st) !! i = Some a -> ok g a).
    { revert Hanim.
      apply (for_range_idx
               (fun k s => heap s = heap (model st1)
                           /\ nodes s = nodes (model st1)
                           /\ length (animations s) = n
                           /\ forall (i : nat) g a, (i < k)%nat ->
                                tinygltf.animations input !! i = Some g ->
                                animations s !! i = Some a -> ok g a)).
      - intros k s s' Hk (Hh & Hn & Hl & Hdone) Hstep.
        apply loadAnimation_frame in Hstep as Hfr. destruct Hfr as (Eh' & En' & _).
        apply (loadAnimation_channels fuel input k s s' forest) in Hstep
          as (g & a & Hg & Ea & Hname & Hsm & Hch).
        2:{ rewrite Hh, Hn, <- Eh, <- En. done. }
        split; [congruence|]. split; [congruence|].
        split; [by rewrite Ea, length_insert|].
        intros i g' a' Hi Hg' Ha'. rewrite Ea in Ha'.
        destruct (decide (i = k)) as [->|Hne].
        + rewrite list_lookup_insert_eq in Ha' by lia. injection Ha' as <-.
          assert (g' = g) as -> by congruence. done.
        + rewrite list_lookup_insert_ne in Ha' by done.
          apply (Hdone i); [lia|done|done].
      - simpl. split; [done|]. split; [done|].
        split; [apply length_vector_resize|]. intros i g a Hi. lia. }
    destruct H as (_ & _ & Hl & H).
    apply Forall2_same_length_lookup_2; [by rewrite Hl|].
    intros i g a Hg Ha. apply (H i); [|done|done].
    by apply lookup_lt_Some in Hg. }
  split; [exact Hall|].
  intros a c p Ha Hc Hp.
  apply list_elem_of_lookup in Ha as [i Ha].
  destruct (Forall2_lookup_r _ _ _ _ _ Hall Ha) as (g & Hg & _ & _ & Hch).
  apply list_elem_of_lookup in Hc as [j Hc].
  destruct (Forall2_lookup_r _ _ _ _ _ Hch Hc) as (gc & Hgc & Hpath & _ & Hnode).
  rewrite Hp in Hnode. symmetry in Hnode.
  apply first_with_index_Some in Hnode.
  destruct (shape_forest_index _ _ _ Hforest _ _ Hnode) as (n & Hn & Hidx).
  by exists n, gc.
Qed.

(** ** Images *)

Lemma int_mul_Ok a b c :
  int_mul a b = Ok c -> c = a * b /\ - 2 ^ 31 <= c < 2 ^ 31.
Proof.
  unfold int_mul. destruct (Z.leb_spec (- 2 ^ 31) (a * b)); simpl; [|discriminate].
  destruct (Z.ltb_spec (a * b) (2 ^ 31)); [|discriminate].
  intros [= <-]. lia.
Qed.

Lemma store_Ok {A : Type} (l : list A) i x l' :
  store l i x = Ok l' ->
  0 <= i /\ (Z.to_nat i < length l)%nat /\ l' = <[Z.to_nat i := x]> l.
Proof.
  unfold store. destruct (Z.leb_spec 0 i); simpl; [|discriminate].
  destruct (Z.ltb_spec i (Z.of_nat (length l))); [|discriminate].
  intros [= <-]. repeat split; [done|lia].
Qed.

Lemma copyPixel_spec rgb (k : nat) buf buf' :
  copyPixel rgb (Z.of_nat k) buf = Ok buf' ->
  exists r g b,
    rgb !! (3 * k)%nat = Some r /\ rgb !! (3 * k + 1)%nat = Some g
    /\ rgb !! (3 * k + 2)%nat = Some b
    /\ (4 * k + 2 < length buf)%nat
    /\ buf' = <[(4 * k + 2)%nat := Some b]>
                (<[(4 * k + 1)%nat := Some g]> (<[(4 * k)%nat := Some r]> buf)).
Proof.
  unfold copyPixel. intros H.
  apply bind_Ok in H as (r & Hr & H).
  apply bind_Ok in H as (g & Hg & H).
  apply bind_Ok in H as (b & Hb & H).
  apply bind_Ok in H as (b1 & H1 & H).
  apply bind_Ok in H as (b2 & H2 & H).
  apply at_lookup in Hr as [_ Hr], Hg as [_ Hg], Hb as [_ Hb].
  apply store_Ok in H1 as (_ & _ & ->).
  apply store_Ok in H2 as (_ & _ & ->).
  apply store_Ok in H as (_ & Hlen & ->).
  rewrite !length_insert in Hlen.
  replace (Z.to_nat (3 * Z.of_nat k)) with (3 * k)%nat in Hr by lia.
  replace (Z.to_nat (3 * Z.of_nat k + 1)) with (3 * k + 1)%nat in Hg by lia.
  replace (Z.to_nat (3 * Z.of_nat k + 2)) with (3 * k + 2)%nat in Hb by lia.
  replace (Z.to_nat (4 * Z.of_nat k)) with (4 * k)%nat by lia.
  replace (Z.to_nat (4 * Z.of_nat k + 1)) with (4 * k + 1)%nat by lia.
  replace (Z.to_nat (4 * Z.of_nat k + 2)) with (4 * k + 2)%nat in Hlen |- * by lia.
  exists r, g, b. done.
Qed.

(** X21. The conversion of a three-component image copies the three
    bytes of every pixel, in order, to the first three bytes of the
    pixel's four in a new buffer of [width * height * 4] bytes, and writes
    nothing else: the fourth byte of every pixel keeps the indeterminate
    value it was allocated with, so the texture is uploaded with an
    alpha channel that was never set. *)
Theorem loadImage_rgb glTFImage im :
  tinygltf_image.component glTFImage = 3 ->
  loadImage glTFImage = Ok (Some im) ->
  let pixels := tinygltf_image.width glTFImage * tinygltf_image.height glTFImage in
  0 <= pixels
  /\ length (texture im) = (4 * Z.to_nat pixels)%nat
  /\ forall i : nat, (i < Z.to_nat pixels)%nat ->
       (forall c : nat, (c < 3)%nat ->
          exists b, tinygltf_image.image glTFImage !! (3 * i + c)%nat = Some b
                    /\ texture im !! (4 * i + c)%nat = Some (Some b))
       /\ texture im !! (4 * i + 3)%nat = Some None.
Proof.
  intros Hc H pixels. unfold loadImage in H. rewrite Hc in H. simpl in H.
  apply bind_Ok in H as (px & Hpx & H). apply int_mul_Ok in Hpx as [Epx Hpx].
  fold pixels in Epx. subst px.
  apply bind_Ok in H as (size & Hsize & H).
  apply int_mul_Ok in Hsize as [-> Hsize].
  destruct (Z.ltb_spec (pixels * 4) 0) as [|Hpos]; [discriminate|].
  apply bind_Ok in H as (first & _ & H).
  apply bind_Ok in H as (rgba & Hloop & H). injection H as <-. cbn [texture].
  assert (H0 : 0 <= pixels) by lia. split; [done|].
  unfold usize in Hloop. rewrite Z.mod_small in Hloop by lia.
  set (n := Z.to_nat pixels) in *.
  replace (Z.to_nat (pixels * 4)) with (4 * n)%nat in Hloop by lia.
  set (rgb := tinygltf_image.image glTFImage) in *.
  assert (Hinv : length rgba = (4 * n)%nat
              /\ (forall i : nat, (i < n)%nat ->
                    forall c : nat, (c < 3)%nat ->
                    exists b, rgb !! (3 * i + c)%nat = Some b
                              /\ rgba !! (4 * i + c)%nat = Some (Some b))
              /\ forall j : nat, (j < 4 * n)%nat ->
                   (4 * n <= j)%nat \/ (j mod 4 = 3)%nat -> rgba !! j = Some None).
  { revert Hloop.
    apply (for_range_idx
             (fun k buf =>
                length buf = (4 * n)%nat
                /\ (forall i : nat, (i < k)%nat ->
                      forall c : nat, (c < 3)%nat ->
                      exists b, rgb !! (3 * i + c)%nat = Some b
                                /\ buf !! (4 * i + c)%nat = Some (Some b))
                /\ forall j : nat, (j < 4 * n)%nat ->
                     (4 * k <= j)%nat \/ (j mod 4 = 3)%nat -> buf !! j = Some None)).
    - intros k buf buf' Hk (Hlen & Hdone & Hnone) Hstep.
      apply copyPixel_spec in Hstep as (r & g & b & Hr & Hg & Hb & Hin & ->).
      split; [by rewrite !length_insert|]. split.
      + intros i Hi c Hcc.
        destruct (decide (i = k)) as [->|Hne].
        * destruct c as [|[|[|c]]]; [| | |lia].
          -- exists r. rewrite !Nat.add_0_r. split; [done|].
             rewrite !list_lookup_insert_ne by lia.
             apply list_lookup_insert_eq. lia.
          -- exists g. split; [done|].
             rewrite list_lookup_insert_ne by lia.
             apply list_lookup_insert_eq. rewrite length_insert. lia.
          -- exists b. split; [done|].
             apply list_lookup_insert_eq. rewrite !length_insert. lia.
        * destruct (Hdone i ltac:(lia) c Hcc) as (x & Hx & Hbuf).
          exists x. split; [done|]. by rewrite !list_lookup_insert_ne by lia.
      + intros j Hj Hcase.
        assert (j <> 4 * k /\ j <> 4 * k + 1 /\ j <> 4 * k + 2)%nat as (? & ? & ?).
        { destruct Hcase as [?|Hmod]; [lia|].
          repeat split; intros ->.
          - rewrite Nat.mul_comm, Nat.Div0.mod_mul in Hmod. lia.
          - rewrite Nat.add_comm, Nat.mul_comm, Nat.Div0.mod_add in Hmod.
            simpl in Hmod. lia.
          - rewrite Nat.add_comm, Nat.mul_comm, Nat.Div0.mod_add in Hmod.
            simpl in Hmod. lia. }
        rewrite !list_lookup_insert_ne by done.
        apply Hnone; [done|]. destruct Hcase; [left; lia|by right].
    - split; [by rewrite length_replicate|]. split; [intros i Hi; lia|].
      intros j Hj _. by apply lookup_replicate_2. }
  destruct Hinv as (Hlen & Hdone & Hnone). split; [done|].
  intros i Hi. split; [by apply Hdone|].
  apply Hnone; [lia|]. right.
  rewrite Nat.add_comm, Nat.mul_comm, Nat.Div0.mod_add. done.
Qed.

(** ** When a frame can be drawn *)

Lemma foldM_each {A St : Type} (f : St -> A -> res St) (l : list A) :
  forall s s', foldM f l s = Ok s' ->
  forall x, x ∈ l -> exists s1 s2, f s1 x = Ok s2.
Proof.
  induction l as [|a l IH]; intros s s' Hrun x Hx; [by apply elem_of_nil in Hx|].
  simpl in Hrun. apply bind_Ok in Hrun as (s1 & H1 & Hrun).
  apply elem_of_cons in Hx as [->|Hx]; [by exists s, s1|].
  by apply (IH s1 s').
Qed.

Lemma foldM_total {A St : Type} (f : St -> A -> res St) (l : list A) :
  (forall x, x ∈ l -> forall s, exists s', f s x = Ok s') ->
  forall s, exists s', foldM f l s = Ok s'.
Proof.
  induction l as [|a l IH]; intros Hf s; [by exists s|].
  simpl. destruct (Hf a ltac:(left) s) as [s1 ->]. simpl.
  apply IH. intros x Hx. apply Hf. by right.
Qed.

Lemma foldM_not_OutOfFuel {A St : Type} (f : St -> A -> res St) (l : list A) s :
  (forall s a, f s a <> OutOfFuel) -> foldM f l s <> OutOfFuel.
Proof.
  intros Hf. revert s. induction l as [|a l IH]; intros s; [done|].
  simpl. apply bind_not_OutOfFuel; auto.
Qed.

Lemma drawPrimitive_defined a cmds pr :
  (exists cmds', drawPrimitive a cmds pr = Ok cmds')
  <-> (0 < indexCount pr -> drawable a pr).
Proof.
  unfold drawPrimitive, drawable.
  destruct (Z.gtb_spec (indexCount pr) 0) as [Hpos|Hzero].
  - split.
    + intros [cmds' H] _.
      apply bind_Ok in H as (material & Hm & H).
      apply bind_Ok in H as (texture_ & Ht & H).
      apply bind_Ok in H as (image & Hi & H). by exists material, texture_, image.
    + intros H. destruct H as (material & texture_ & image & -> & Ht & Hi); [lia|].
      simpl. rewrite Ht. simpl. rewrite Hi. simpl. by eexists.
  - split; [intros _ ?; lia|]. intros _. by eexists.
Qed.

Lemma drawNode_not_OutOfFuel a h cmds (p : ptr) : drawNode a h cmds p <> OutOfFuel.
Proof.
  unfold drawNode, deref. destruct (h !! p); [|done]. simpl.
  apply foldM_not_OutOfFuel. intros s pr. unfold drawPrimitive.
  destruct (_ >? _); [|done].
  repeat (apply bind_not_OutOfFuel; [apply at_not_OutOfFuel|intros ?]). done.
Qed.

(** X9. A frame can be drawn exactly when every mesh node is a node
    and every primitive with indices has a material index inside the
    material list, whose base colour texture index is inside the texture
    list, whose image index is inside the image list; in every other case
    (a primitive without material has material index -1) [draw] reads past
    a vector and is undefined behaviour. *)
Theorem draw_defined a m :
  ((exists cmds, draw a m = Ok cmds) <-> all_drawable a m)
  /\ (draw a m = Undefined <-> ~ all_drawable a m).
Proof.
  assert (Hiff : (exists cmds, draw a m = Ok cmds) <-> all_drawable a m).
  { unfold draw, all_drawable. split.
    - intros [cmds H] p Hp.
      destruct (foldM_each _ _ _ _ H p Hp) as (s1 & s2 & Hnode).
      unfold drawNode in Hnode. apply bind_Ok in Hnode as (n & Hn & Hnode).
      unfold deref in Hn. destruct (heap m !! p) as [n0|]; [|discriminate].
      injection Hn as ->. exists n. split; [done|]. intros pr Hpr.
      destruct (foldM_each _ _ _ _ Hnode pr Hpr) as (c1 & c2 & Hprim).
      apply (drawPrimitive_defined a c1 pr). by exists c2.
    - intros H. apply foldM_total. intros p Hp s.
      destruct (H p Hp) as (n & Hn & Hprims).
      unfold drawNode, deref. rewrite Hn. simpl.
      apply foldM_total. intros pr Hpr c.
      apply drawPrimitive_defined. by apply Hprims. }
  split; [exact Hiff|]. split.
  - intros Hund Hall. apply Hiff in Hall as [cmds Hok]. congruence.
  - intros Hnot. destruct (draw a m) as [cmds| |] eqn:E; [|done|].
    + destruct Hnot. apply Hiff. by exists cmds.
    + exfalso. revert E. apply foldM_not_OutOfFuel.
      intros s p. apply drawNode_not_OutOfFuel.
Qed.

(** ** Decoding loops *)

(** A loop that decodes element [index] and appends it. *)
Lemma for_range_push {A B : Type} (dec : Z -> res A) (f : A -> B) n init outs :
  for_range n 0 (fun index outs => v ← dec index; Ok (outs ++ [f v])) init
  = Ok outs ->
  exists new,
    outs = init ++ new /\ length new = n
    /\ forall (k : nat) y, new !! k = Some y ->
         exists x, dec (Z.of_nat k) = Ok x /\ y = f x.
Proof.
  apply (for_range_idx
           (fun k s => exists new,
              s = init ++ new /\ length new = k
              /\ forall (j : nat) y, new !! j = Some y ->
                   exists x, dec (Z.of_nat j) = Ok x /\ y = f x)).
  - intros k s s' Hk (new & -> & Hlen & Hnew) Hstep.
    apply bind_Ok in Hstep as (v & Hv & Hstep). injection Hstep as <-.
    exists (new ++ [f v]). rewrite <- (assoc_L (++)). split; [done|].
    split; [rewrite length_app; simpl; lia|].
    intros j y Hj. apply lookup_snoc_Some in Hj as [[_ Hj]|[-> <-]].
    + by apply Hnew.
    + exists v. by rewrite Hlen.
  - exists []. rewrite app_nil_r. split; [done|]. split; [done|].
    intros j y Hj. done.
Qed.

(** A loop that copies the first [n] elements of an array. *)
Lemma for_range_copy {A : Type} (l : list A) n init ins :
  for_range n 0 (fun index ins => v ← at_ l index; Ok (ins ++ [v])) init = Ok ins ->
  ins = init ++ take n l.
Proof.
  intros H.
  apply (for_range_push (at_ l) (fun v => v)) in H as (new & -> & Hlen & Hnew).
  f_equal. apply list_eq. intros k. rewrite lookup_take.
  destruct (decide (k < n)%nat) as [Hk|Hk].
  - destruct (lookup_lt_is_Some_2 new k) as [y Hy]; [lia|].
    destruct (Hnew k y Hy) as (x & Hx & ->).
    apply at_lookup in Hx as [_ Hx]. rewrite Nat2Z.id in Hx. congruence.
  - apply lookup_ge_None_2. lia.
Qed.

Lemma appendVertices_spec pb nb tb vertexCount vb vb' :
  appendVertices pb nb tb vertexCount vb = Ok vb' ->
  exists new,
    vb' = vb ++ new /\ length new = Z.to_nat (usize vertexCount)
    /\ forall (k : nat) v, new !! k = Some v ->
         color v = vec3_s F32.one
         /\ exists b, pb = Some b /\ make_vec3 b (Z.of_nat k * 3) = Ok (pos v).
Proof.
  unfold appendVertices.
  apply (for_range_idx
           (fun k s => exists new,
              s = vb ++ new /\ length new = k
              /\ forall (j : nat) v, new !! j = Some v ->
                   color v = vec3_s F32.one
                   /\ exists b, pb = Some b
                                /\ make_vec3 b (Z.of_nat j * 3) = Ok (pos v))).
  - intros k s s' Hk (new & -> & Hlen & Hnew) Hstep.
    apply bind_Ok in Hstep as (p & Hp & Hstep).
    apply bind_Ok in Hstep as (n & _ & Hstep).
    apply bind_Ok in Hstep as (t & _ & Hstep). injection Hstep as <-.
    eexists (new ++ [_]). rewrite <- (assoc_L (++)). split; [done|].
    split; [rewrite length_app; simpl; lia|].
    intros j v Hj. apply lookup_snoc_Some in Hj as [[_ Hj]|[-> <-]].
    + by apply Hnew.
    + simpl. split; [done|]. destruct pb as [b|]; [|discriminate].
      exists b. by rewrite Hlen.
  - exists []. rewrite app_nil_r. split; [done|]. split; [done|].
    intros j v Hj. done.
Qed.

(** X6. When the source indices of a primitive are below the count of
    its POSITION accessor, every index the primitive adds to the index
    buffer is the position, in the vertex buffer, of one of the vertices
    the same primitive added; each of those vertices has its position
    read from the accessor, vertex by vertex, and the colour (1, 1, 1). *)
Theorem loadPrimitive_indices_in_range input node glTFPrimitive st st'
    a position accessor w :
  tinygltf.attributes glTFPrimitive !! "POSITION" = Some a ->
  at_ (tinygltf.accessors input) a = Ok position ->
  at_ (tinygltf.accessors input) (tinygltf.indices glTFPrimitive) = Ok accessor ->
  index_width (tinygltf.componentType accessor) = Some w ->
  loadPrimitive input node glTFPrimitive st = Ok (Continue st') ->
  Z.of_nat (length (vertexBuffer st')) < 2 ^ 32 ->
  Forall (fun x => x mod 2 ^ w < usize (tinygltf.count position))
         (take (Z.to_nat (usize (tinygltf.count accessor)))
               (tinygltf.uints accessor)) ->
  (exists new,
     vertexBuffer st' = vertexBuffer st ++ new
     /\ length new = Z.to_nat (usize (tinygltf.count position))
     /\ forall (k : nat) v, new !! k = Some v ->
          color v = vec3_s F32.one
          /\ make_vec3 (tinygltf.floats position) (Z.of_nat k * 3) = Ok (pos v))
  /\ Forall (fun g => Z.of_nat (length (vertexBuffer st)) <= g
                      < Z.of_nat (length (vertexBuffer st')))
            (drop (length (indexBuffer st)) (indexBuffer st')).
Proof.
  intros Ha Hpos Hacc Hw Hrun Hlen Hsrc. unfold loadPrimitive in Hrun.
  assert (Eattr : attribute input glTFPrimitive "POSITION" = Ok (Some position))
    by (unfold attribute; rewrite Ha, Hpos; done).
  rewrite Eattr in Hrun. rewrite bind_Ok_l in Hrun.
  apply bind_Ok in Hrun as (normals & _ & Hrun).
  apply bind_Ok in Hrun as (texCoords & _ & Hrun).
  apply bind_Ok in Hrun as (vb & Hvb & Hrun).
  rewrite Hacc in Hrun. rewrite bind_Ok_l in Hrun. rewrite Hw in Hrun.
  apply bind_Ok in Hrun as (ib & Hib & Hrun).
  apply bind_Ok in Hrun as (h & _ & Hrun). injection Hrun as <-.
  cbn [vertexBuffer indexBuffer] in *.
  apply appendVertices_spec in Hvb as (new & -> & Hnew & Hvert).
  cbn [from_option] in Hnew.
  apply appendIndices_spec in Hib as [-> _].
  rewrite length_app, Hnew in Hlen |- *.
  assert (H64 : 0 <= usize (tinygltf.count position))
    by (apply Z.mod_pos_bound; lia).
  split.
  - exists new. split; [done|]. split; [done|].
    intros k v Hk. destruct (Hvert k v Hk) as (Hcol & b & [= <-] & Hp). done.
  - rewrite drop_app_length. apply Forall_fmap.
    eapply Forall_impl; [exact Hsrc|]. intros x Hx. simpl.
    pose proof (index_width_bound _ _ Hw) as Hwb.
    pose proof (widen_range x w Hwb) as Hx0.
    rewrite (u32_small (Z.of_nat _)) by lia.
    simpl in Hx. set (y := x mod 2 ^ w) in *. clearbody y.
    rewrite u32_small by lia. lia.
Qed.

(** X11. The body of the sampler loop of [loadAnimations]: the target
    sampler takes the interpolation mode of its source, gets the input
    times appended as they are stored, in the stored order, and the
    outputs appended as stored, a three-component output widened with a
    fourth component 0.0; an output accessor of any other type adds no
    output and prints one message. The animation's [start] and [end]
    become the running minimum and maximum over all the input times the
    sampler then has. *)
Theorem loadSampler_decode input g j a out a' out' glTFSampler dstSampler :
  at_ (tinygltf.samplers g) j = Ok glTFSampler ->
  at_ (samplers a) j = Ok dstSampler ->
  loadSampler input g j (a, out) = Ok (a', out') ->
  exists s accessor_in accessor_out,
    samplers a' !! Z.to_nat j = Some s
    /\ at_ (tinygltf.accessors input) (tinygltf.input glTFSampler) = Ok accessor_in
    /\ at_ (tinygltf.accessors input) (tinygltf.output glTFSampler) = Ok accessor_out
    /\ interpolation s = tinygltf.interpolation glTFSampler
    /\ inputs s
       = inputs dstSampler
         ++ take (Z.to_nat (usize (tinygltf.count accessor_in)))
                 (tinygltf.floats accessor_in)
    /\ (exists new,
          outputsVec4 s = outputsVec4 dstSampler ++ new
          /\ (tinygltf.type accessor_out = tinygltf.TYPE_VEC3 ->
              out' = out
              /\ length new = Z.to_nat (usize (tinygltf.count accessor_out))
              /\ forall (k : nat) v, new !! k = Some v ->
                   w4 v = F32.zero
                   /\ make_vec3 (tinygltf.floats accessor_out) (3 * Z.of_nat k)
                      = Ok (vec3_of4 v))
          /\ (tinygltf.type accessor_out = tinygltf.TYPE_VEC4 ->
              out' = out
              /\ length new = Z.to_nat (usize (tinygltf.count accessor_out))
              /\ forall (k : nat) v, new !! k = Some v ->
                   make_vec4 (tinygltf.floats accessor_out) (4 * Z.of_nat k) = Ok v)
          /\ (tinygltf.type accessor_out <> tinygltf.TYPE_VEC3 ->
              tinygltf.type accessor_out <> tinygltf.TYPE_VEC4 ->
              new = [] /\ out' = out ++ [UnknownType]))
    /\ start a' = fold_left running_min (inputs s) (start a)
    /\ end_ a' = fold_left running_max (inputs s) (end_ a).
Proof.
  intros Hg Hdst H. unfold loadSampler in H.
  rewrite Hg, Hdst in H. rewrite !bind_Ok_l in H.
  apply bind_Ok in H as (accessor_in & Hin & H).
  apply bind_Ok in H as (ins & Hins & H).
  apply bind_Ok in H as (accessor_out & Hout & H).
  apply bind_Ok in H as ([outs out1] & Houts & H). injection H as <- <-.
  apply at_lookup in Hdst as [Hj Hdst'].
  apply lookup_lt_Some in Hdst' as Hlt.
  apply for_range_copy in Hins as ->.
  destruct (adjust_start_end_fold
              (inputs dstSampler
               ++ take (Z.to_nat (usize (tinygltf.count accessor_in)))
                       (tinygltf.floats accessor_in)) a) as [Es Ee].
  eexists _, accessor_in, accessor_out. cbn [samplers set_samplers].
  split; [apply list_lookup_insert_eq; by rewrite adjust_start_end_samplers|].
  split; [done|]. split; [done|]. split; [done|]. split; [done|].
  cbn [interpolation inputs outputsVec4 start end_ set_samplers].
  split; [|by rewrite Es, Ee].
  destruct (Z.eqb_spec (tinygltf.type accessor_out) tinygltf.TYPE_VEC3) as [E3|N3].
  - apply bind_Ok in Houts as (outs0 & Hloop & Houts). injection Houts as <- <-.
    apply (for_range_push
             (fun index => make_vec3 (tinygltf.floats accessor_out) (3 * index))
             (fun v => vec4_of3 v F32.zero)) in Hloop
      as (new & -> & Hlen & Hnew).
    exists new. split; [done|]. split; [|split].
    + intros _. split; [done|]. split; [done|].
      intros k v Hk. destruct (Hnew k v Hk) as (x & Hx & ->).
      split; [done|]. by destruct x.
    + intros E4. rewrite E3 in E4. discriminate.
    + intros N. by destruct N.
  - destruct (Z.eqb_spec (tinygltf.type accessor_out) tinygltf.TYPE_VEC4)
      as [E4|N4].
    + apply bind_Ok in Houts as (outs0 & Hloop & Houts). injection Houts as <- <-.
      apply (for_range_push
               (fun index => make_vec4 (tinygltf.floats accessor_out) (4 * index))
               (fun v => v)) in Hloop
        as (new & -> & Hlen & Hnew).
      exists new. split; [done|]. split; [|split].
      * intros E3. by destruct N3.
      * intros _. split; [done|]. split; [done|].
        intros k v Hk. by destruct (Hnew k v Hk) as (x & Hx & ->).
      * intros _ N. by destruct N.
    + injection Houts as <- <-. exists []. rewrite app_nil_r.
      split; [done|]. split; [|split]; try done.
Qed.

(** ** The scene graph of a loaded model *)

(** X1. In every model that [loadglTFFile] returns the two ways through
    the scene graph agree: a node listed in the [children] of another has
    that other as its [parent], the nodes of the root list have no parent,
    and every parent was allocated before its children, so that no
    chain of [parent] pointers has a cycle. *)
Theorem loadglTFFile_scene_graph fuel input st :
  loadglTFFile fuel input = Ok st ->
  linked (heap (model st))
  /\ roots_free (model st)
  /\ parent_lt (heap (model st)).
Proof.
  intros Hload.
  apply loadglTFFile_wellformed in Hload as Hwf. destruct Hwf as [Hlt _].
  apply loadglTFFile_mesh_inv in Hload as [Hl Hr _ _ _].
  done.
Qed.

(** X3. The mesh-node list of a loaded model names each of its nodes
    once, every node it names has at least one primitive, and no node has
    a mapped uniform buffer yet: until [prepareMeshUniformBuffers] has
    run, [updateMeshUniformBuffers] copies no matrix and leaves the
    nodes as they are. *)
Theorem loadglTFFile_mesh_nodes fuel input st fuel' :
  loadglTFFile fuel input = Ok st ->
  NoDup (linearMeshNodes (model st))
  /\ (forall p : ptr, p ∈ linearMeshNodes (model st) ->
        exists n, heap (model st) !! p = Some n /\ primitives (mesh n) <> [])
  /\ unmapped (heap (model st))
  /\ updateMeshUniformBuffers fuel' (heap (model st)) (linearMeshNodes (model st))
     = Ok (heap (model st)).
Proof.
  intros Hload.
  apply loadglTFFile_mesh_inv in Hload as [_ _ [Hnd Hprims] Hu _].
  split; [done|]. split; [done|]. split; [done|].
  unfold updateMeshUniformBuffers.
  induction (linearMeshNodes (model st)) as [|p l IH]; [done|].
  destruct (Hprims p) as (n & Hn & Hne); [left|].
  simpl. unfold deref. rewrite Hn. rewrite bind_Ok_l.
  rewrite (Hu p n Hn).
  replace (match primitives (mesh n) with
           | [] => Ok (heap (model st))
           | _ :: _ => Ok (heap (model st))
           end) with (Ok (heap (model st)) : res (list Node))
    by (by destruct (primitives (mesh n))).
  rewrite bind_Ok_l. apply IH.
  - by apply NoDup_cons in Hnd as [_ ?].
  - intros q Hq. apply Hprims. by right.
Qed.

(** ** Destruction *)

Lemma tidy_keeps m m' :
  keeps (fun _ => True) (heap m) (heap m') ->
  length (heap m') = length (heap m) ->
  nodes m' = nodes m ->
  tidy m -> tidy m'.
Proof.
  intros Hk Hlen Hn [Hc Hr]. split; [|by rewrite Hn].
  intros p n' Hp.
  destruct (lookup_lt_is_Some_2 (heap m) p) as [n Hn0].
  { rewrite <- Hlen. by apply lookup_lt_Some in Hp. }
  destruct (Hk p n I Hn0) as (n'' & Hn'' & _ & Ec & _).
  assert (n'' = n') as -> by congruence.
  rewrite Ec. by apply (Hc p).
Qed.

(** [loadNode] names no node twice. *)
Lemma loadNode_tidy input fuel :
  forall inputNode parent_ idx st st',
  (forall q, parent_ = Some q -> (q < length (heap (model st)))%nat) ->
  loadNode fuel input inputNode parent_ idx st = Ok st' ->
  mesh_inv st -> tidy (model st) -> tidy (model st').
Proof.
  induction fuel as [|f IH]; intros inputNode parent_ idx st st' Hpre Hrun Hinv Ht;
    [discriminate|].
  rewrite loadNode_S in Hrun.
  apply bind_Ok in Hrun as (n0 & Hn0 & Hrun).
  apply bind_Ok in Hrun as (st1 & Hch & Hrun).
  apply bind_Ok in Hrun as (r & Hmesh & Hrun).
  apply newNode_mesh in Hn0 as Em0.
  apply newNode_links in Hn0 as (Ep0 & Ec0 & Ei0).
  set (p := length (heap (model st))) in *.
  assert (H1 : loading (heap (model st)) (nodes (model st)) p idx parent_ st1
               /\ mesh_inv st1 /\ tidy (model st1)).
  { unfold loadChildren in Hch. revert Hch.
    apply (foldM_inv (fun s =>
             loading (heap (model st)) (nodes (model st)) p idx parent_ s
             /\ mesh_inv s /\ tidy (model s))).
    - split; [by apply loading_alloc|]. split; [by apply mesh_inv_alloc|].
      destruct Ht as [Hc Hr]. split; [|done]. simpl.
      intros a n Ha. apply lookup_snoc_Some in Ha as [[_ Ha]|[_ <-]].
      + by apply (Hc a).
      + rewrite Ec0. constructor.
    - intros s child s' _ (Hs & Hinvs & Hts) Hstep.
      apply bind_Ok in Hstep as (childNode & _ & Hstep).
      assert (Hps : forall q, Some p = Some q -> (q < length (heap (model s)))%nat)
        by (intros q [= <-]; apply Hs).
      split; [|split].
      + apply (loading_child _ _ _ _ _ s); [done|].
        by apply loadNode_loaded in Hstep.
      + by apply loadNode_mesh_inv in Hstep as [? _].
      + by apply IH in Hstep. }
  destruct H1 as (Hload1 & Hinv1 & Ht1).
  apply loadMesh_keeps in Hmesh as (Hk & Hlen & Hnodes).
  assert (Hload2 : loading (heap (model st)) (nodes (model st)) p idx parent_
                     (flow_state r))
    by (by apply (loading_keeps _ _ _ _ _ st1)).
  assert (Ht2 : tidy (model (flow_state r)))
    by (by apply (tidy_keeps (model st1))).
  destruct r as [st2|st2]; simpl in *; [|by injection Hrun as <-].
  apply bind_Ok in Hrun as (m & Hatt & Hrun). injection Hrun as <-. simpl.
  apply attachNode_spec in Hatt.
  destruct Hload2 as (_ & Hkeep & _ & Hnodes0 & _).
  destruct Ht2 as [Hc2 Hr2].
  destruct parent_ as [q|].
  - destruct Hatt as (nq & Hq & Eh & En). split; [|by rewrite En].
    intros a n Ha. rewrite Eh in Ha.
    apply lookup_insert_cases in Ha as [[-> ->]|[Hne Ha]]; [|by apply (Hc2 a)].
    simpl. apply NoDup_app. split; [by apply (Hc2 q)|].
    split; [|apply NoDup_singleton].
    intros c Hc Hcp. apply list_elem_of_singleton in Hcp. subst c.
    pose proof (Hpre q eq_refl) as Hqp. fold p in Hqp.
    destruct (lookup_lt_is_Some_2 (heap (model st)) q Hqp) as [n0' Hn0'].
    destruct (Hkeep q n0' Hqp Hn0') as (n' & Hn' & _ & Ec' & _).
    assert (n' = nq) as -> by congruence.
    rewrite Ec' in Hc.
    destruct (inv_linked _ Hinv q n0' p Hn0' Hc) as (x & Hx & _).
    apply lookup_lt_Some in Hx. fold p in Hx. lia.
  - destruct Hatt as (Eh & En). split; [by rewrite Eh|].
    rewrite En. apply NoDup_app. split; [done|]. split; [|apply NoDup_singleton].
    intros r Hr Hrp. apply list_elem_of_singleton in Hrp. subst r.
    rewrite Hnodes0 in Hr.
    destruct (inv_roots _ Hinv p Hr) as (x & Hx & _).
    apply lookup_lt_Some in Hx. fold p in Hx. lia.
Qed.

Lemma loadglTFFile_tidy fuel input st :
  loadglTFFile fuel input = Ok st -> tidy (model st).
Proof.
  unfold loadglTFFile. intros H.
  apply bind_Ok in H as (scene & _ & H).
  apply bind_Ok in H as (st1 & Hfold & H).
  apply bind_Ok in H as (m & Hanim & H). injection H as <-.
  apply loadAnimations_frame in Hanim as (Eh & En & El).
  assert (H1 : mesh_inv st1 /\ tidy (model st1)).
  { revert Hfold.
    apply (foldM_inv (fun s => mesh_inv s /\ tidy (model s))).
    - split; [apply mesh_inv_initial|]. split; [|constructor].
      intros p n Hp. done.
    - intros s i s' _ [Hinv Ht] Hstep.
      apply bind_Ok in Hstep as (node_ & _ & Hstep). split.
      + by apply loadNode_mesh_inv in Hstep as [? _].
      + by apply loadNode_tidy in Hstep. }
  destruct H1 as [_ [Hc Hr]]. split; simpl; [by rewrite Eh|by rewrite En].
Qed.

Lemma nth_parent_add h k j (a : ptr) :
  nth_parent h (k + j) a = nth_parent h k a ≫= nth_parent h j.
Proof.
  revert a. induction k as [|k IH]; intros a; [done|].
  simpl. destruct (h !! a) as [n|]; [|done].
  destruct (parent n) as [q|]; [|done]. apply IH.
Qed.

(** Parents are older: [k] steps up lead at least [k] addresses down. *)
Lemma nth_parent_le h :
  parent_lt h ->
  forall k (a q : ptr), nth_parent h k a = Some q -> (q + k <= a)%nat.
Proof.
  intros Hlt. induction k as [|k IH]; intros a q H.
  - injection H as <-. lia.
  - simpl in H. destruct (h !! a) as [n|] eqn:Ea; [|discriminate].
    destruct (parent n) as [r|] eqn:Er; [|discriminate].
    apply IH in H. pose proof (Hlt a n r Ea Er). lia.
Qed.

Lemma forest_addresses_cons t ts :
  forest_addresses (t :: ts) = addresses t ++ forest_addresses ts.
Proof. unfold forest_addresses, forest_nodes, addresses. simpl. apply fmap_app. Qed.

Lemma addresses_Tree p i kids :
  addresses (Tree p i kids) = p :: forest_addresses kids.
Proof. reflexivity. Qed.

(** From every node of a tree the parent chain leads to its root. *)
Lemma shape_reach h t :
  linked h ->
  forall p, shape h p t ->
  forall a : ptr, a ∈ addresses t -> exists k, nth_parent h k a = Some p.
Proof.
  intros Hl. induction t as [q ix kids IH] using tree_ind_nested.
  intros p Hshape a Ha.
  inversion Hshape as [p' n kids' Hp Hkids]; subst.
  rewrite addresses_Tree in Ha.
  apply elem_of_cons in Ha as [->|Ha]; [by exists O|].
  assert (Hown : forall c : ptr, c ∈ children n ->
            exists nc, h !! c = Some nc /\ parent nc = Some q)
    by (intros c Hc; by apply (Hl q n)).
  clear Hp Hshape.
  induction Hkids as [|c k cs ks Hc Hcs IHcs].
  - by apply elem_of_nil in Ha.
  - apply Forall_cons in IH as [IHk IHks].
    rewrite forest_addresses_cons in Ha. apply elem_of_app in Ha as [Ha|Ha].
    + destruct (IHk c Hc a Ha) as [j Hj].
      destruct (Hown c) as (nc & Hnc & Epar); [left|].
      exists (j + 1)%nat. rewrite nth_parent_add, Hj. simpl.
      by rewrite Hnc, Epar.
    + apply IHcs; [done|done|]. intros c' Hc'. apply Hown. by right.
Qed.

(** Two nodes with the same parent, or both without, that are reached
    from one node by its parent chain are the same node. *)
Lemma nth_parent_same h (a c1 c2 : ptr) k1 k2 n1 n2 :
  parent_lt h ->
  nth_parent h k1 a = Some c1 -> nth_parent h k2 a = Some c2 ->
  h !! c1 = Some n1 -> h !! c2 = Some n2 -> parent n1 = parent n2 ->
  c1 = c2.
Proof.
  intros Hlt.
  assert (G : forall (c1 c2 : ptr) k1 d n1 n2,
            nth_parent h k1 a = Some c1 -> nth_parent h (k1 + d) a = Some c2 ->
            h !! c1 = Some n1 -> h !! c2 = Some n2 -> parent n1 = parent n2 ->
            c1 = c2).
  { intros x1 x2 j d m1 m2 H1 H2 Hm1 Hm2 Epar.
    rewrite nth_parent_add, H1 in H2. simpl in H2.
    destruct d as [|d]; [by injection H2|].
    simpl in H2. rewrite Hm1 in H2.
    destruct (parent m1) as [q|] eqn:Eq; [|discriminate].
    apply (nth_parent_le h Hlt) in H2.
    symmetry in Epar. pose proof (Hlt x2 m2 q Hm2 Epar). lia. }
  intros H1 H2 Hn1 Hn2 Epar.
  destruct (decide (k1 <= k2)%nat) as [Hle|Hgt].
  - apply (G c1 c2 k1 (k2 - k1)%nat n1 n2); try done.
    by replace (k1 + (k2 - k1))%nat with k2 by lia.
  - symmetry. apply (G c2 c1 k2 (k1 - k2)%nat n2 n1); try done.
    by replace (k2 + (k1 - k2))%nat with k1 by lia.
Qed.

(** Trees under distinct roots that share their parent, or have none,
    share no node. *)
Lemma trees_NoDup h (cs : list ptr) ts par :
  parent_lt h -> linked h ->
  Forall2 (shape h) cs ts -> NoDup cs ->
  (forall c : ptr, c ∈ cs -> exists n, h !! c = Some n /\ parent n = par) ->
  Forall (fun t => NoDup (addresses t)) ts ->
  NoDup (forest_addresses ts).
Proof.
  intros Hlt Hl Hshape. induction Hshape as [|c t cs ts Hc Hcs IH];
    intros Hnd Hpar Hts; [constructor|].
  apply NoDup_cons in Hnd as [Hfresh Hnd].
  apply Forall_cons in Hts as [Ht Hts].
  rewrite forest_addresses_cons. apply NoDup_app. split; [done|]. split.
  - intros a Ha Ha'.
    destruct (shape_reach h t Hl c Hc a Ha) as [k1 Hk1].
    (* the tree of the rest that holds [a] *)
    assert (Hin : exists (c' : ptr) k2, c' ∈ cs /\ nth_parent h k2 a = Some c').
    { clear IH Hfresh Hnd Hpar Hts. induction Hcs as [|c' t' cs ts Hc' Hcs IHcs].
      - by apply elem_of_nil in Ha'.
      - rewrite forest_addresses_cons in Ha'. apply elem_of_app in Ha' as [Ha'|Ha'].
        + destruct (shape_reach h t' Hl c' Hc' a Ha') as [k2 Hk2].
          exists c', k2. split; [left|done].
        + destruct (IHcs Ha') as (c'' & k2 & Hin & Hk2).
          exists c'', k2. split; [by right|done]. }
    destruct Hin as (c' & k2 & Hin & Hk2).
    destruct (Hpar c) as (n1 & Hn1 & E1); [left|].
    destruct (Hpar c') as (n2 & Hn2 & E2); [by right|].
    assert (c = c') as ->
      by (apply (nth_parent_same h a c c' k1 k2 n1 n2); try done; congruence).
    done.
  - apply IH; [done| |done]. intros c' Hc'. apply Hpar. by right.
Qed.

Lemma shape_NoDup h t :
  parent_lt h -> linked h ->
  (forall (p : ptr) n, h !! p = Some n -> NoDup (children n)) ->
  forall p, shape h p t -> NoDup (addresses t).
Proof.
  intros Hlt Hl Hnd. induction t as [q ix kids IH] using tree_ind_nested.
  intros p Hshape.
  inversion Hshape as [p' n kids' Hp Hkids]; subst.
  rewrite addresses_Tree. apply NoDup_cons. split.
  - intros Hin.
    assert (Hreach : exists (c : ptr) k, c ∈ children n /\ nth_parent h k q = Some c).
    { clear IH Hp Hshape. induction Hkids as [|c t cs ts Hc Hcs IHcs].
      - by apply elem_of_nil in Hin.
      - rewrite forest_addresses_cons in Hin. apply elem_of_app in Hin as [Hin|Hin].
        + destruct (shape_reach h t Hl c Hc q Hin) as [k Hk].
          exists c, k. split; [left|done].
        + destruct (IHcs Hin) as (c' & k & Hc' & Hk).
          exists c', k. split; [by right|done]. }
    destruct Hreach as (c & k & Hc & Hk).
    destruct (Hl q n c Hp Hc) as (nc & Hnc & Epar).
    apply (nth_parent_le h Hlt) in Hk.
    pose proof (Hlt c nc q Hnc Epar). lia.
  - apply (trees_NoDup h (children n) kids (Some q)); try done.
    + by apply (Hnd q).
    + intros c Hc. by apply (Hl q n).
    + clear Hp Hshape. induction Hkids as [|c t cs ts Hc Hcs IHcs]; [constructor|].
      apply Forall_cons in IH as [IHt IHts].
      constructor; [by apply (IHt c)|by apply IHcs].
Qed.

(** Deleting the root of a tree deletes its nodes, parent first. *)
Lemma deleteNode_tree h t :
  forall (p : ptr) fuel deleted,
  shape h p t -> (depth t <= fuel)%nat ->
  NoDup (deleted ++ addresses t) ->
  deleteNode fuel h deleted p = Ok (deleted ++ addresses t).
Proof.
  induction t as [q ix kids IH] using tree_ind_nested.
  intros p fuel deleted Hshape Hfuel Hnd.
  inversion Hshape as [p' n kids' Hp Hkids]; subst.
  destruct fuel as [|fuel]; simpl in Hfuel; [lia|].
  rewrite addresses_Tree in Hnd |- *.
  simpl. destruct (decide (q ∈ deleted)) as [Hin|_].
  { apply NoDup_app in Hnd as (_ & Hdis & _). destruct (Hdis q Hin). left. }
  unfold deref. rewrite Hp. simpl.
  replace (deleted ++ q :: forest_addresses kids)
    with ((deleted ++ [q]) ++ forest_addresses kids) in Hnd |- *
    by (by rewrite <- (assoc_L (++))).
  assert (Hd : (forest_depth kids <= fuel)%nat) by (unfold forest_depth; lia).
  clear Hfuel Hp Hshape. revert Hnd Hd. generalize (deleted ++ [q]) as acc.
  induction Hkids as [|c t cs ts Hc Hcs IHcs]; intros acc Hnd Hd.
  - simpl. by rewrite app_nil_r.
  - apply Forall_cons in IH as [IHt IHts].
    unfold forest_depth in Hd. simpl in Hd.
    rewrite forest_addresses_cons in Hnd |- *.
    rewrite (assoc_L (++)) in Hnd |- *.
    simpl. rewrite (IHt c fuel acc Hc); [|lia|by apply NoDup_app in Hnd as (? & _)].
    simpl. apply IHcs; [done|done|]. unfold forest_depth. lia.
Qed.

Lemma deleteNodes_forest h (cs : list ptr) ts fuel :
  Forall2 (shape h) cs ts -> (forest_depth ts <= fuel)%nat ->
  forall acc, NoDup (acc ++ forest_addresses ts) ->
  foldM (deleteNode fuel h) cs acc = Ok (acc ++ forest_addresses ts).
Proof.
  intros Hshape. induction Hshape as [|c t cs ts Hc Hcs IH]; intros Hd acc Hnd.
  - simpl. by rewrite app_nil_r.
  - unfold forest_depth in Hd. simpl in Hd.
    rewrite forest_addresses_cons in Hnd |- *.
    rewrite (assoc_L (++)) in Hnd |- *.
    simpl. rewrite (deleteNode_tree h t c fuel acc Hc);
      [|lia|by apply NoDup_app in Hnd as (? & _)].
    simpl. apply IH; [|done]. unfold forest_depth. lia.
Qed.

(** X22. Destroying a loaded model deletes every node of the scene
    forest, the forest that the root list and the [children] vectors span,
    exactly once, each parent before its children, and with fuel from the
    depth of the forest on it is never undefined: no node is deleted
    twice. It deletes nothing else: a node that [loadNode] left out of the
    forest, with the nodes below it, is never deleted. *)
Theorem deleteModel_loaded fuel input st :
  loadglTFFile fuel input = Ok st ->
  exists forest,
    Forall2 (shape (heap (model st))) (nodes (model st)) forest
    /\ NoDup (forest_addresses forest)
    /\ forall fuel', (forest_depth forest <= fuel')%nat ->
         deleteModel fuel' (model st) = Ok (forest_addresses forest).
Proof.
  intros Hload.
  apply loadglTFFile_wellformed in Hload as Hwf.
  destruct Hwf as (Hlt & forest & Hforest).
  apply loadglTFFile_tidy in Hload as Ht. destruct Ht as [Hc Hr].
  apply loadglTFFile_mesh_inv in Hload as Hinv.
  pose proof (inv_linked _ Hinv) as Hl.
  pose proof (inv_roots _ Hinv) as Hfree.
  assert (Hnd : NoDup (forest_addresses forest)).
  { apply (trees_NoDup (heap (model st)) (nodes (model st)) forest None);
      try done.
    clear Hr Hfree. induction Hforest as [|r t rs ts Hr Hrs IH]; [constructor|].
    constructor; [by apply (shape_NoDup (heap (model st)) t Hlt Hl Hc r)|done]. }
  exists forest. split; [done|]. split; [done|].
  intros fuel' Hfuel. unfold deleteModel.
  by apply (deleteNodes_forest (heap (model st)) (nodes (model st)) forest fuel').
Qed.

(** ** When a tick is defined *)

Lemma for_range_total {St : Type} (Q : St -> Prop) n (body : Z -> St -> res St) :
  (forall (k : nat) s, (k < n)%nat -> Q s ->
     exists s', body (Z.of_nat k) s = Ok s' /\ Q s') ->
  forall s, Q s -> exists s', for_range n 0 body s = Ok s' /\ Q s'.
Proof.
  intros Hbody.
  assert (G : forall m (k : nat) s, (k + m = n)%nat -> Q s ->
            exists s', for_range m (Z.of_nat k) body s = Ok s' /\ Q s').
  { induction m as [|m IH]; intros k s Hk Hs; [by exists s|].
    rewrite for_range_S.
    destruct (Hbody k s) as (s1 & -> & Hs1); [lia|done|].
    rewrite bind_Ok_l. replace (Z.of_nat k + 1) with (Z.of_nat (S k)) by lia.
    apply IH; [lia|done]. }
  intros s Hs. by apply (G n O s).
Qed.

Lemma foldM_total_inv {A St : Type} (Q : St -> Prop) (f : St -> A -> res St)
    (l : list A) :
  (forall x s, x ∈ l -> Q s -> exists s', f s x = Ok s' /\ Q s') ->
  forall s, Q s -> exists s', foldM f l s = Ok s' /\ Q s'.
Proof.
  induction l as [|a l IH]; intros Hf s Hs; [by exists s|].
  simpl. destruct (Hf a s) as (s1 & -> & Hs1); [left|done|].
  rewrite bind_Ok_l. apply IH; [|done]. intros x s' Hx. apply Hf. by right.
Qed.

Lemma write_total (p : ptr) f h :
  (p < length h)%nat ->
  exists h', write (Some p) f h = Ok h' /\ length h' = length h.
Proof.
  intros Hp. destruct (lookup_lt_is_Some_2 h p Hp) as [n Hn].
  exists (<[p := f n]> h). unfold write, deref, ptr in *. rewrite Hn.
  split; [done|apply length_insert].
Qed.

Lemma updateSegment_total acos sin animation channel sampler (p : ptr) (i : nat)
    h out :
  (S i < length (inputs sampler))%nat ->
  (length (inputs sampler) <= length (outputsVec4 sampler))%nat ->
  node channel = Some p -> (p < length h)%nat ->
  exists h' out',
    updateSegment acos sin animation channel sampler (Z.of_nat i) (h, out)
    = Ok (h', out')
    /\ length h' = length h.
Proof.
  intros Hi Hout Hnode Hp. unfold updateSegment.
  destruct (negb (String.eqb (interpolation sampler) "LINEAR")); [by eexists _, _|].
  destruct (lookup_lt_is_Some_2 (inputs sampler) i) as [t0 Ht0]; [lia|].
  destruct (lookup_lt_is_Some_2 (inputs sampler) (S i)) as [t1 Ht1]; [lia|].
  destruct (lookup_lt_is_Some_2 (outputsVec4 sampler) i) as [o0 Ho0]; [lia|].
  destruct (lookup_lt_is_Some_2 (outputsVec4 sampler) (S i)) as [o1 Ho1]; [lia|].
  assert (E0 : at_ (inputs sampler) (Z.of_nat i) = Ok t0)
    by (apply at_lookup; split; [lia|by rewrite Nat2Z.id]).
  assert (E1 : at_ (inputs sampler) (Z.of_nat i + 1) = Ok t1).
  { apply at_lookup. split; [lia|].
    by replace (Z.to_nat (Z.of_nat i + 1)) with (S i) by lia. }
  assert (F0 : at_ (outputsVec4 sampler) (Z.of_nat i) = Ok o0)
    by (apply at_lookup; split; [lia|by rewrite Nat2Z.id]).
  assert (F1 : at_ (outputsVec4 sampler) (Z.of_nat i + 1) = Ok o1).
  { apply at_lookup. split; [lia|].
    by replace (Z.to_nat (Z.of_nat i + 1)) with (S i) by lia. }
  rewrite E0, bind_Ok_l.
  destruct (negb _); [by eexists _, _|].
  rewrite E1, bind_Ok_l.
  destruct (negb _); [by eexists _, _|].
  rewrite F0, F1, Hnode. cbv zeta. rewrite !bind_Ok_l.
  set (a := F32.div _ _).
  assert (H1 : exists h1,
            (if String.eqb (path channel) "translation"
             then write (Some p) (set_translation (vec3_of4 (mix o0 o1 a))) h
             else Ok h) = Ok h1 /\ length h1 = length h).
  { destruct (String.eqb _ _); [by apply write_total|by exists h]. }
  destruct H1 as (h1 & -> & L1). rewrite !bind_Ok_l.
  assert (H2 : exists h2,
            (if String.eqb (path channel) "rotation"
             then write (Some p)
                    (set_rotation
                       (normalizeq
                          (slerp acos sin (mkQuat (w4 o0) (x4 o0) (y4 o0) (z4 o0))
                             (mkQuat (w4 o1) (x4 o1) (y4 o1) (z4 o1)) a))) h1
             else Ok h1) = Ok h2 /\ length h2 = length h1).
  { destruct (String.eqb _ _); [apply write_total; lia|by exists h1]. }
  destruct H2 as (h2 & -> & L2). rewrite !bind_Ok_l.
  assert (H3 : exists h3,
            (if String.eqb (path channel) "scale"
             then write (Some p) (set_scale (vec3_of4 (mix o0 o1 a))) h2
             else Ok h2) = Ok h3 /\ length h3 = length h2).
  { destruct (String.eqb _ _); [apply write_total; lia|by exists h2]. }
  destruct H3 as (h3 & -> & L3). rewrite !bind_Ok_l.
  exists h3, out. split; [done|lia].
Qed.

Lemma updateChannel_total acos sin animation channel h out :
  channel_ready h animation channel ->
  exists h' out',
    updateChannel acos sin animation (h, out) channel = Ok (h', out')
    /\ length h' = length h.
Proof.
  intros (sampler & p & Hs & Hne & H64 & Hout & Hnode & Hp).
  unfold updateChannel. rewrite Hs, bind_Ok_l.
  assert (Hn : (0 < length (inputs sampler))%nat)
    by (destruct (inputs sampler); [done|simpl; lia]).
  unfold usize. rewrite Z.mod_small by lia.
  destruct (for_range_total (fun s => length s.1 = length h)
              (Z.to_nat (Z.of_nat (length (inputs sampler)) - 1))
              (updateSegment acos sin animation channel sampler)) with (s := (h, out))
    as ([h' out'] & Hrun & Hlen); [|done|by exists h', out'].
  intros k [h1 o1] Hk Hl. simpl in Hl.
  destruct (updateSegment_total acos sin animation channel sampler p k h1 o1)
    as (h2 & o2 & Hseg & Hl2); [lia|done|done|lia|].
  exists (h2, o2). split; [done|]. simpl. lia.
Qed.

Lemma parent_lt_ext (h h' : list Node) :
  parent <$> h' = parent <$> h -> parent_lt h -> parent_lt h'.
Proof.
  intros E Hlt a n' q Ha Hq.
  assert (Hp : (parent <$> h) !! a = Some (Some q)).
  { rewrite <- E, list_lookup_fmap. unfold ptr in *. by rewrite Ha, <- Hq. }
  rewrite list_lookup_fmap in Hp.
  destruct (h !! a) as [n|] eqn:En; [|discriminate].
  injection Hp as Hp. by apply (Hlt a n q).
Qed.

Lemma updateMeshUniformBuffers_total fuel meshNodes h :
  parent_lt h ->
  (forall p : ptr, p ∈ meshNodes -> (p < length h)%nat) ->
  (length h <= fuel)%nat ->
  exists h', updateMeshUniformBuffers fuel h meshNodes = Ok h'.
Proof.
  intros Hlt Hin Hfuel. unfold updateMeshUniformBuffers.
  destruct (foldM_total_inv
              (fun s => parent <$> s = parent <$> h)
              (fun h0 meshNode =>
                 n ← deref h0 meshNode;
                 match primitives (mesh n), mapped (mesh n) with
                 | _ :: _, Some _ =>
                     nodeMatrix ← getNodeMatrix fuel h0 meshNode;
                     Ok (<[meshNode := set_mapped (Some nodeMatrix) n]> h0)
                 | _, _ => Ok h0
                 end) meshNodes) with (s := h) as (h' & Hrun & _);
    [|done|by exists h'].
  intros p s Hp Hs.
  assert (Hlen : length s = length h)
    by (rewrite <- (length_fmap parent s), Hs; apply length_fmap).
  destruct (lookup_lt_is_Some_2 s p) as [n Hn]; [rewrite Hlen; by apply Hin|].
  unfold deref, ptr in *. rewrite Hn, bind_Ok_l.
  destruct (primitives (mesh n)) as [|pr prs]; [by exists s|].
  destruct (mapped (mesh n)) as [mp|]; [|by exists s].
  destruct (getNodeMatrix_total s fuel p n) as [M ->].
  - by apply (parent_lt_ext h).
  - done.
  - apply lookup_lt_Some in Hn. lia.
  - rewrite bind_Ok_l. eexists. split; [done|].
    rewrite <- Hs. by apply (fmap_insert_same parent s p n).
Qed.

(** The two halves of a tick on ready channels: the channel loop and
    the uniform-buffer update both complete. *)
Lemma updateAnimation_run acos sin fuel deltaTime m animation :
  (forall channel, channel ∈ channels animation ->
     channel_ready (heap m) animation channel) ->
  parent_lt (heap m) ->
  (forall p : ptr, p ∈ linearMeshNodes m -> (p < length (heap m))%nat) ->
  (length (heap m) <= fuel)%nat ->
  exists h out h',
    foldM (updateChannel acos sin (advance deltaTime animation))
          (channels animation) (heap m, console m) = Ok (h, out)
    /\ updateMeshUniformBuffers fuel h (linearMeshNodes m) = Ok h'.
Proof.
  intros Hready Hlt Hmesh Hfuel.
  assert (Hsm : samplers (advance deltaTime animation) = samplers animation).
  { unfold advance. by destruct (F32.gt _ _). }
  destruct (foldM_total_inv
              (fun s => length s.1 = length (heap m)
                        /\ rigid_of <$> s.1 = rigid_of <$> heap m)
              (updateChannel acos sin (advance deltaTime animation))
              (channels animation)) with (s := (heap m, console m))
    as ([h out] & Hrun & Hlenh & Hrigid); [|done|].
  - intros channel [h1 o1] Hin [Hl1 Hr1]. simpl in Hl1, Hr1.
    destruct (updateChannel_total acos sin (advance deltaTime animation)
                channel h1 o1) as (h2 & o2 & Hok & Hl2).
    { destruct (Hready channel Hin)
        as (sampler & p & Hs & Hne & H64 & Hout & Hnode & Hp).
      exists sampler, p. rewrite Hsm, Hl1. done. }
    exists (h2, o2). split; [done|]. simpl. split; [lia|].
    rewrite <- Hr1. unfold updateChannel in Hok.
    apply bind_Ok in Hok as (sampler & _ & Hok). revert Hok.
    apply (for_range_inv (fun s => rigid_of <$> s.1 = rigid_of <$> h1)); [done|].
    intros i [h3 o3] [h4 o4] Hs Hstep. simpl in *.
    apply updateSegment_frame in Hstep as (-> & _). done.
  - simpl in Hlenh, Hrigid. exists h, out.
    destruct (updateMeshUniformBuffers_total fuel (linearMeshNodes m) h)
      as [h' Hupd]; [| |lia|by exists h'].
    + apply (parent_lt_ext (heap m)); [|done].
      change parent with ((fun r : option ptr * list ptr * Mesh * mat4 * Z =>
                             r.1.1.1.1) ∘ rigid_of).
      by rewrite !list_fmap_compose, Hrigid.
    + intros p Hp. rewrite Hlenh. by apply Hmesh.
Qed.

(** The guard of [updateAnimation] lets a valid selector through. *)
Lemma updateAnimation_selected acos sin fuel deltaTime m animation :
  Z.of_nat (length (animations m)) < 2 ^ 32 ->
  at_ (animations m) (activeAnimation m) = Ok animation ->
  updateAnimation acos sin fuel deltaTime m
  = (let animation := advance deltaTime animation in
     '(h, out) ← foldM (updateChannel acos sin animation) (channels animation)
                       (heap m, console m);
     h ← updateMeshUniformBuffers fuel h (linearMeshNodes m);
     Ok {| heap := h; nodes := nodes m;
           animations := <[Z.to_nat (activeAnimation m) := animation]> (animations m);
           linearMeshNodes := linearMeshNodes m;
           activeAnimation := activeAnimation m; console := out |}).
Proof.
  intros Hlen Hat.
  apply at_lookup in Hat as Hat'. destruct Hat' as [H0 Hl].
  apply lookup_lt_Some in Hl as Hlt'.
  unfold updateAnimation.
  rewrite (u32_small (Z.of_nat _)), u32_small by lia.
  destruct (Z.gtb_spec (activeAnimation m) (Z.of_nat (length (animations m)) - 1));
    [lia|].
  by rewrite Hat, bind_Ok_l.
Qed.

(** C1. A tick with a valid selector first adds [deltaTime] to the
    animation's [currentTime] and then, when the sum is greater than
    [end], subtracts [end] from it once: the wrap is relative to [end],
    not to [end - start]. That is the clock every completed tick leaves
    in the selected animation, of which nothing else changes; and the
    tick does complete when the channels of the animation are ready. *)
Theorem updateAnimation_clock acos sin fuel deltaTime m animation :
  Z.of_nat (length (animations m)) < 2 ^ 32 ->
  at_ (animations m) (activeAnimation m) = Ok animation ->
  let t := F32.add (currentTime animation) deltaTime in
  (forall m', updateAnimation acos sin fuel deltaTime m = Ok m' ->
     exists animation',
       at_ (animations m') (activeAnimation m') = Ok animation'
       /\ currentTime animation'
          = (if F32.gt t (end_ animation) then F32.sub t (end_ animation) else t)
       /\ timeless animation' = timeless animation)
  /\ ((forall channel, channel ∈ channels animation ->
         channel_ready (heap m) animation channel) ->
      parent_lt (heap m) ->
      (forall p : ptr, p ∈ linearMeshNodes m -> (p < length (heap m))%nat) ->
      (length (heap m) <= fuel)%nat ->
      exists m', updateAnimation acos sin fuel deltaTime m = Ok m').
Proof.
  intros Hlen Hat t.
  rewrite (updateAnimation_selected acos sin fuel deltaTime m animation Hlen Hat).
  apply at_lookup in Hat as [H0 Hl]. apply lookup_lt_Some in Hl as Hlt.
  cbv zeta. split.
  - intros m' Hrun.
    apply bind_Ok in Hrun as ([h out] & _ & Hrun).
    apply bind_Ok in Hrun as (h' & _ & Hrun). injection Hrun as <-. simpl.
    exists (advance deltaTime animation). split.
    + apply at_lookup. split; [done|]. by rewrite list_lookup_insert_eq.
    + unfold advance. fold t. by destruct (F32.gt t (end_ animation)).
  - intros Hready Hpar Hmesh Hfuel.
    destruct (updateAnimation_run acos sin fuel deltaTime m animation)
      as (h & out & h' & Hch & Hupd); [done..|].
    assert (Ech : channels (advance deltaTime animation) = channels animation).
    { unfold advance. by destruct (F32.gt _ _). }
    rewrite Ech, Hch, bind_Ok_l, Hupd, bind_Ok_l. by eexists.
Qed.

(** The example of the specification: keyframes at 0.0 and 1.0,
    [end = 1.0], a tick of 1.5 from 0.0 leaves the clock at 0.5. *)
Lemma updateAnimation_clock_witness :
  currentTime wrap_animation = F32.zero
  /\ end_ wrap_animation = F32.one
  /\ exists m' animation',
       updateAnimation no_acos no_sin 1 (F32.of_Z2 3 (-1)) wrap_model = Ok m'
       /\ at_ (animations m') (activeAnimation m') = Ok animation'
       /\ currentTime animation' = F32.of_Z2 1 (-1).
Proof.
  split; [reflexivity|]. split; [reflexivity|].
  destruct (updateAnimation_clock no_acos no_sin 1 (F32.of_Z2 3 (-1)) wrap_model
              wrap_animation) as [Hclock Hdone];
    [vm_compute; reflexivity|reflexivity|].
  destruct Hdone as [m' Hm'].
  - intros channel Hin. apply list_elem_of_singleton in Hin. subst channel.
    exists {| interpolation := "LINEAR"; inputs := [F32.of_Z 0; F32.of_Z 1];
              outputsVec4 := [vec4_Z 0 0 0 0; vec4_Z 2 4 6 0] |}, O.
    split; [reflexivity|]. split; [discriminate|].
    split; [vm_compute; reflexivity|]. split; [simpl; lia|].
    split; [reflexivity|simpl; lia].
  - intros a n q Ha Hq. destruct a as [|a]; [|discriminate].
    injection Ha as <-. discriminate.
  - intros p Hp. by apply elem_of_nil in Hp.
  - simpl. lia.
  - destruct (Hclock m' Hm') as (animation' & Hat & Hc & _).
    exists m', animation'. split; [exact Hm'|]. split; [exact Hat|].
    rewrite Hc. vm_compute. reflexivity.
Defined.

(** X20. A tick on a valid selector completes, without undefined
    behaviour and with fuel from the number of nodes on, whenever every
    channel of the selected animation has a sampler with at least one
    keyframe and an output for every input, and a target node, the
    parents are older than their children and the mesh-node list names
    nodes. *)
Theorem updateAnimation_defined acos sin fuel deltaTime m animation :
  Z.of_nat (length (animations m)) < 2 ^ 32 ->
  at_ (animations m) (activeAnimation m) = Ok animation ->
  (forall channel, channel ∈ channels animation ->
     channel_ready (heap m) animation channel) ->
  parent_lt (heap m) ->
  (forall p : ptr, p ∈ linearMeshNodes m -> (p < length (heap m))%nat) ->
  (length (heap m) <= fuel)%nat ->
  exists m', updateAnimation acos sin fuel deltaTime m = Ok m'.
Proof.
  intros Hlen Hat Hready Hlt Hmesh Hfuel.
  rewrite (updateAnimation_selected acos sin fuel deltaTime m animation Hlen Hat).
  destruct (updateAnimation_run acos sin fuel deltaTime m animation)
    as (h & out & h' & Hch & Hupd); [done..|].
  assert (Ech : channels (advance deltaTime animation) = channels animation).
  { unfold advance. by destruct (F32.gt _ _). }
  cbv zeta. rewrite Ech, Hch, bind_Ok_l, Hupd, bind_Ok_l. by eexists.
Qed.

(** ** Nodes without a transform *)

(** X5. A node record without a usable transform, that is with a
    translation, rotation, scale and matrix of any lengths other than 3,
    4, 3 and 16 (arrays of a wrong length are ignored, not rejected),
    always loads, with the parent and index it was given, and its local
    matrix is exactly the identity. *)
Theorem newNode_identity inputNode parent_ nodeIndex :
  length (tinygltf.translation inputNode) <> 3%nat ->
  length (tinygltf.rotation inputNode) <> 4%nat ->
  length (tinygltf.scale inputNode) <> 3%nat ->
  length (tinygltf.matrix inputNode) <> 16%nat ->
  exists n,
    newNode inputNode parent_ nodeIndex = Ok n
    /\ parent n = parent_ /\ index n = nodeIndex
    /\ getLocalMatrix n = mat4_s F32.one.
Proof.
  intros Ht Hr Hs Hm. unfold newNode.
  apply Nat.eqb_neq in Ht, Hr, Hs, Hm. rewrite Ht, Hr, Hs, Hm.
  eexists. split; [reflexivity|]. repeat split.
Qed.

(** ** The local transform against reference matrices *)

(** Multiplying by 1.0 is exact. *)
Lemma one_mul x : finite32 x -> F32.mul F32.one x = x.
Proof.
  change F32.one with (S754_finite false 8388608 (-23)).
  destruct x as [s| | |s m e]; try done. intros Hb.
  apply andb_prop in Hb as [Hc He]. apply Z.eqb_eq in Hc.
  unfold F32.mul, F32.prec, F32.emax in *. unfold SFmul, binary_round_aux.
  change (xorb false s) with s.
  change (Z.pos (8388608 * m))
    with (Z.pos m~0~0~0~0~0~0~0~0~0~0~0~0~0~0~0~0~0~0~0~0~0~0~0).
  assert (Hd : Zdigits2 (Z.pos m~0~0~0~0~0~0~0~0~0~0~0~0~0~0~0~0~0~0~0~0~0~0~0)
               = Z.pos (digits2_pos m) + 23).
  { cbn [Zdigits2 digits2_pos]. rewrite !Pos2Z.inj_succ. lia. }
  unfold shr_fexp at 1. rewrite Hd.
  replace (Z.pos (digits2_pos m) + 23 + (-23 + e))
    with (Z.pos (digits2_pos m) + e) by lia.
  rewrite Hc. replace (e - (-23 + e)) with 23 by lia.
  cbn [shr shr_record_of_loc SpecFloat.iter_pos shr_1 shr_m shr_r shr_s orb
       loc_of_shr_record round_nearest_even].
  unfold shr_fexp. cbn [Zdigits2].
  replace (-23 + e + 23) with e by lia.
  rewrite Hc, Z.sub_diag. cbn [shr shr_record_of_loc shr_m].
  by rewrite He.
Qed.

(** Multiplying 0.0 by a number gives a zero. *)
Lemma zero_mul x : finite32 x -> exists s, F32.mul F32.zero x = S754_zero s.
Proof. destruct x; try done; intros _; by eexists. Qed.

Lemma same_number_refl x : same_number x x.
Proof. by left. Qed.

Lemma same_number_trans x y z :
  same_number x y -> same_number y z -> same_number x z.
Proof.
  intros [->|(s & s' & -> & ->)] H; [done|].
  destruct H as [<-|(t & t' & _ & ->)]; right; by eauto.
Qed.

Lemma add_same a a' b b' :
  same_number a a' -> same_number b b' ->
  same_number (F32.add a b) (F32.add a' b').
Proof.
  intros [->|(s & s' & -> & ->)] [->|(t & t' & -> & ->)].
  - by left.
  - destruct a' as [[]| | |]; destruct t, t'; cbn;
      try (by left); right; by eauto.
  - destruct b' as [[]| | |]; destruct s, s'; cbn;
      try (by left); right; by eauto.
  - destruct s, s', t, t'; cbn; right; by eauto.
Qed.

Lemma mul_same a a' b b' :
  same_number a a' -> same_number b b' ->
  same_number (F32.mul a b) (F32.mul a' b').
Proof.
  intros [->|(s & s' & -> & ->)] [->|(t & t' & -> & ->)].
  - by left.
  - destruct a' as [| | |]; cbn; try (by left); right; by eauto.
  - destruct b' as [| | |]; cbn; try (by left); right; by eauto.
  - cbn; right; by eauto.
Qed.

Lemma same_vec4_refl v : same_vec4 v v.
Proof. repeat split; apply same_number_refl. Qed.

Lemma same_mat4_refl m : same_mat4 m m.
Proof. repeat split; apply same_number_refl. Qed.

Lemma vec4_scale_same a a' s s' :
  same_vec4 a a' -> same_number s s' ->
  same_vec4 (vec4_scale a s) (vec4_scale a' s').
Proof. intros (H0 & H1 & H2 & H3) Hs. repeat split; by apply mul_same. Qed.

Lemma vec4_add_same a a' b b' :
  same_vec4 a a' -> same_vec4 b b' ->
  same_vec4 (vec4_add a b) (vec4_add a' b').
Proof.
  intros (H0 & H1 & H2 & H3) (G0 & G1 & G2 & G3).
  repeat split; by apply add_same.
Qed.

Lemma mul_col_same a a' b b' :
  same_mat4 a a' -> same_vec4 b b' ->
  same_vec4 (mul_col a b) (mul_col a' b').
Proof.
  intros (H0 & H1 & H2 & H3) (G0 & G1 & G2 & G3). unfold mul_col.
  repeat apply vec4_add_same; by apply vec4_scale_same.
Qed.

(** The matrix product takes equal numbers to equal numbers. *)
Lemma mat_mul_same a a' b b' :
  same_mat4 a a' -> same_mat4 b b' ->
  same_mat4 (mat_mul a b) (mat_mul a' b').
Proof.
  intros Ha (G0 & G1 & G2 & G3). unfold mat_mul.
  repeat split; by apply mul_col_same.
Qed.

(** An entry built from one number and zeros is that number. *)
Lemma sum_with_zeros x s1 s2 s3 :
  finite32 x ->
  same_number (F32.add (F32.add (F32.add x (S754_zero s1)) (S754_zero s2))
                       (S754_zero s3)) x
  /\ same_number (F32.add (F32.add (F32.add (S754_zero s1) x) (S754_zero s2))
                          (S754_zero s3)) x
  /\ same_number (F32.add (F32.add (F32.add (S754_zero s1) (S754_zero s2)) x)
                          (S754_zero s3)) x
  /\ same_number (F32.add (F32.add (F32.add (S754_zero s1) (S754_zero s2))
                                   (S754_zero s3)) x) x.
Proof.
  destruct x as [[]| | |]; try done; intros _;
    destruct s1, s2, s3; cbn; repeat split; try (by left); right; by eauto.
Qed.

(** [glm::translate] of the identity is the translation matrix. *)
Lemma translate_reference t :
  finite3 t ->
  same_mat4 (translate (mat4_s F32.one) t) (translation_matrix t).
Proof.
  intros (Hx & Hy & Hz).
  destruct (zero_mul _ Hx) as [sx Ex], (zero_mul _ Hy) as [sy Ey],
    (zero_mul _ Hz) as [sz Ez].
  unfold translate, translation_matrix, mat4_s, vec4_add, vec4_scale.
  cbn [col0 col1 col2 col3 x4 y4 z4 w4].
  rewrite Ex, Ey, Ez, !one_mul by done.
  split; [apply same_vec4_refl|]. split; [apply same_vec4_refl|].
  split; [apply same_vec4_refl|].
  split; [apply (sum_with_zeros (x3 t) sy sz false Hx)|].
  split; [apply (sum_with_zeros (y3 t) sx sz false Hy)|].
  split; [apply (sum_with_zeros (z3 t) sx sy false Hz)|].
  destruct sx, sy, sz; by left.
Qed.

(** [glm::scale] of the identity is the scaling matrix. *)
Lemma scale_reference s :
  finite3 s ->
  same_mat4 (glm.scale (mat4_s F32.one) s) (scale_matrix s).
Proof.
  intros (Hx & Hy & Hz).
  destruct (zero_mul _ Hx) as [sx Ex], (zero_mul _ Hy) as [sy Ey],
    (zero_mul _ Hz) as [sz Ez].
  unfold glm.scale, scale_matrix, mat4_s, vec4_scale.
  cbn [col0 col1 col2 col3 x4 y4 z4 w4].
  rewrite Ex, Ey, Ez, !one_mul by done.
  repeat split; try (by left); right; by eauto.
Qed.

(** [glm::mat4_cast] is the rotation matrix of the quaternion. *)
Lemma mat4_cast_reference q : mat4_cast q = rotation_matrix q.
Proof. reflexivity. Qed.

(** C3. The local matrix is the product
    [translate(translation) * rotate(rotation) * scale(scale) * matrix],
    multiplied from the left in this order. For every node it is that
    product of the three GLM matrices and the raw matrix; when the
    translation and the scale are proper numbers, the three GLM matrices
    are the translation, rotation and scaling matrices themselves, so the
    local matrix has the entries of their product with the raw matrix,
    the sign of a zero apart. For zero translation, identity rotation,
    unit scale and identity [matrix] it is the identity matrix. *)
Theorem getLocalMatrix_composition (n : Node) :
  (finite3 (translation n) -> finite3 (scale n) ->
   same_mat4 (getLocalMatrix n) (trs_product n))
  /\ (translation n = vec3_s F32.zero ->
      rotation n = quat_identity ->
      scale n = vec3_s F32.one ->
      matrix n = mat4_s F32.one ->
      getLocalMatrix n = mat4_s F32.one)
  /\ getLocalMatrix n
     = mat_mul (mat_mul (mat_mul (translate (mat4_s F32.one) (translation n))
                                 (mat4_cast (rotation n)))
                        (glm.scale (mat4_s F32.one) (scale n)))
               (matrix n).
Proof.
  split; [|split; [|reflexivity]].
  - intros Ht Hs. unfold getLocalMatrix, trs_product.
    apply mat_mul_same; [|apply same_mat4_refl].
    apply mat_mul_same; [|by apply scale_reference].
    apply mat_mul_same; [by apply translate_reference|].
    rewrite mat4_cast_reference. apply same_mat4_refl.
  - intros Ht Hr Hs Hm. unfold getLocalMatrix. rewrite Ht, Hr, Hs, Hm.
    vm_compute. reflexivity.
Qed.

(** On [turned_node] the origin goes through the raw matrix first, to
    (1, 1, 1), is scaled to (2, 3, 4), turned to (-2, -3, 4) and
    translated last, to (-1, -1, 7); the opposite order of the factors is
    another matrix, which sends the origin to (-1, -5, 13). *)
Lemma getLocalMatrix_composition_witness :
  same_mat4 (getLocalMatrix turned_node)
            (mkMat4 (vec4_Z (-2) 0 0 0) (vec4_Z 0 (-3) 0 0) (vec4_Z 0 0 4 0)
                    (vec4_Z (-1) (-1) 7 1))
  /\ mat_mul_vec (getLocalMatrix turned_node) (vec4_Z 0 0 0 1) = vec4_Z (-1) (-1) 7 1
  /\ mat_mul_vec (srt_product turned_node) (vec4_Z 0 0 0 1) = vec4_Z (-1) (-5) 13 1
  /\ ~ same_mat4 (getLocalMatrix turned_node) (srt_product turned_node).
Proof.
  destruct (getLocalMatrix_composition turned_node) as (Hprod & _ & _).
  assert (H : same_mat4 (getLocalMatrix turned_node) (trs_product turned_node)).
  { apply Hprod; repeat split; reflexivity. }
  split.
  - vm_compute in H. vm_compute. exact H.
  - split; [vm_compute; reflexivity|]. split; [vm_compute; reflexivity|].
    vm_compute. intros (_ & _ & _ & _ & [E|(s & s' & E & _)] & _); discriminate.
Defined.

(** ** Examples *)

Lemma draw_calls_witness :
  draw scene_assets (model scene_state) = Ok scene_commands
  /\ omap draw_call scene_commands = [(0, 3); (3, 6)].
Proof.
  assert (H : draw scene_assets (model scene_state) = Ok scene_commands)
    by (vm_compute; reflexivity).
  split; [exact H|].
  rewrite (draw_calls scene_assets (model scene_state) scene_commands H).
  vm_compute. reflexivity.
Defined.

Lemma draw_in_bounds_witness :
  loadglTFFile 2 scene_gltf = Ok scene_state
  /\ draw scene_assets (model scene_state) = Ok scene_commands
  /\ Forall (fun c => 0 <= c.1 /\ 0 < c.2 /\ c.1 + c.2 <= 9)
            (omap draw_call scene_commands)
  /\ ForallOrdPairs (fun c c' => c.1 + c.2 <= c'.1 \/ c'.1 + c'.2 <= c.1)
                    (omap draw_call scene_commands).
Proof.
  assert (H1 : loadglTFFile 2 scene_gltf = Ok scene_state)
    by (vm_compute; reflexivity).
  assert (H2 : draw scene_assets (model scene_state) = Ok scene_commands)
    by (vm_compute; reflexivity).
  split; [exact H1|]. split; [exact H2|].
  apply (draw_in_bounds 2 scene_gltf scene_state scene_assets scene_commands H1);
    [vm_compute; reflexivity|exact H2].
Defined.

Lemma uniform_buffers_hold_world_matrices_witness :
  loadglTFFile 2 scene_gltf = Ok scene_state
  /\ getNodeMatrix 2 (heap (model scene_state)) 1 = Ok scene_world
  /\ exists h1 h2,
       prepareMeshUniformBuffers (fun _ => mat4_s F32.zero)
         (heap (model scene_state)) (linearMeshNodes (model scene_state)) = Ok h1
       /\ updateMeshUniformBuffers 2 h1 (linearMeshNodes (model scene_state))
          = Ok h2
       /\ forall p : ptr, p ∈ linearMeshNodes (model scene_state) ->
            exists n2 M,
              h2 !! p = Some n2 /\ mapped (mesh n2) = Some M
              /\ getNodeMatrix 2 (heap (model scene_state)) p = Ok M
              /\ getNodeMatrix 2 h2 p = Ok M.
Proof.
  assert (H1 : loadglTFFile 2 scene_gltf = Ok scene_state)
    by (vm_compute; reflexivity).
  split; [exact H1|]. split; [vm_compute; reflexivity|].
  apply (uniform_buffers_hold_world_matrices 2 scene_gltf scene_state
           (fun _ => mat4_s F32.zero) 2 H1).
  vm_compute. lia.
Defined.

Lemma updateChannel_frame_witness :
  updateChannel no_acos no_sin half_animation (heap wrap_model, []) wrap_channel
  = Ok half_way
  /\ translation <$> half_way.1 = [vec3_Z 1 2 3]
  /\ rigid_of <$> half_way.1 = rigid_of <$> heap wrap_model
  /\ rotation <$> half_way.1 = rotation <$> heap wrap_model
  /\ scale <$> half_way.1 = scale <$> heap wrap_model.
Proof.
  assert (H : updateChannel no_acos no_sin half_animation (heap wrap_model, [])
                wrap_channel = Ok (half_way.1, half_way.2))
    by (vm_compute; reflexivity).
  split; [exact H|]. split; [vm_compute; reflexivity|].
  destruct (updateChannel_frame no_acos no_sin half_animation wrap_channel
              (heap wrap_model) [] half_way.1 half_way.2 H)
    as (Hrigid & _ & Hrot & Hscale & _).
  split; [exact Hrigid|]. split; [apply Hrot; discriminate|].
  apply Hscale. discriminate.
Defined.

Lemma updateAnimation_structure_witness :
  updateAnimation no_acos no_sin 0 (F32.of_Z2 3 (-1)) wrap_model
  = Ok wrap_model_ticked
  /\ skeleton_of <$> heap wrap_model_ticked = skeleton_of <$> heap wrap_model
  /\ timeless <$> animations wrap_model_ticked
     = timeless <$> animations wrap_model
  /\ currentTime <$> animations wrap_model_ticked = [F32.of_Z2 1 (-1)].
Proof.
  assert (H : updateAnimation no_acos no_sin 0 (F32.of_Z2 3 (-1)) wrap_model
              = Ok wrap_model_ticked) by (vm_compute; reflexivity).
  split; [exact H|].
  destruct (updateAnimation_structure no_acos no_sin 0 (F32.of_Z2 3 (-1))
              wrap_model wrap_model_ticked H) as (Hs & _ & _ & _ & Ht & _).
  split; [exact Hs|]. split; [exact Ht|]. vm_compute. reflexivity.
Defined.

Lemma updateChannel_not_linear_witness :
  updateChannel no_acos no_sin step_animation (heap wrap_model, []) wrap_channel
  = Ok (heap wrap_model, [OnlyLinearInterpolations]).
Proof.
  rewrite (updateChannel_not_linear no_acos no_sin step_animation wrap_channel
             step_sampler (heap wrap_model) []);
    [reflexivity|reflexivity|discriminate].
Defined.

Lemma updateAnimation_null_target_witness :
  model <$> (match loadglTFFile 1 degraded_gltf with
             | Ok st => Some st
             | _ => None
             end) = Some degraded_model
  /\ updateAnimation no_acos no_sin 0 (F32.of_Z2 1 (-1)) degraded_model
     = Undefined.
Proof.
  split; [vm_compute; reflexivity|].
  apply (updateAnimation_null_target no_acos no_sin 0 (F32.of_Z2 1 (-1))
           degraded_model degraded_animation degraded_channel degraded_sampler
           O (F32.of_Z 0) (F32.of_Z 1)).
  - vm_compute. reflexivity.
  - vm_compute. reflexivity.
  - simpl. apply list_elem_of_here.
  - reflexivity.
  - unfold animated_paths. simpl. apply list_elem_of_here.
  - reflexivity.
  - reflexivity.
  - vm_compute. reflexivity.
  - reflexivity.
  - reflexivity.
  - vm_compute. reflexivity.
  - vm_compute. reflexivity.
Defined.

Lemma loadglTFFile_within_range_witness :
  loadglTFFile 1 wrap_gltf = Ok wrap_state
  /\ animations (model wrap_state) = [wrap_animation]
  /\ within_range wrap_animation.
Proof.
  assert (H : loadglTFFile 1 wrap_gltf = Ok wrap_state)
    by (vm_compute; reflexivity).
  assert (E : animations (model wrap_state) = [wrap_animation])
    by (vm_compute; reflexivity).
  split; [exact H|]. split; [exact E|].
  apply (loadglTFFile_within_range 1 wrap_gltf wrap_state H).
  rewrite E. apply list_elem_of_here.
Defined.

Lemma loadglTFFile_channels_witness :
  model <$> (match loadglTFFile 1 degraded_gltf with
             | Ok st => Some st
             | _ => None
             end) = Some degraded_model
  /\ exists forest,
       Forall2 (shape (heap degraded_model)) (nodes degraded_model) forest
       /\ Forall2 (fun g a =>
                     name a = tinygltf.name g
                     /\ length (samplers a) = length (tinygltf.samplers g)
                     /\ Forall2 (resolved forest) (tinygltf.channels g)
                          (channels a))
                  (tinygltf.animations degraded_gltf) (animations degraded_model).
Proof.
  split; [vm_compute; reflexivity|].
  destruct (loadglTFFile 1 degraded_gltf) as [st| |] eqn:E.
  - assert (Em : model st = degraded_model).
    { assert (H : model <$> (match loadglTFFile 1 degraded_gltf with
                             | Ok st => Some st
                             | _ => None
                             end) = Some degraded_model)
        by (vm_compute; reflexivity).
      rewrite E in H. by injection H. }
    destruct (loadglTFFile_channels 1 degraded_gltf st E)
      as (forest & Hshape & Hall & _).
    rewrite Em in Hshape, Hall. by exists forest.
  - exfalso. revert E. vm_compute. discriminate.
  - exfalso. revert E. vm_compute. discriminate.
Defined.

Lemma loadImage_rgb_witness :
  loadImage two_pixels = Ok (Some two_pixels_rgba)
  /\ length (texture two_pixels_rgba) = 8%nat
  /\ forall i : nat, (i < 2)%nat ->
       (forall c : nat, (c < 3)%nat ->
          exists b, tinygltf_image.image two_pixels !! (3 * i + c)%nat = Some b
                    /\ texture two_pixels_rgba !! (4 * i + c)%nat = Some (Some b))
       /\ texture two_pixels_rgba !! (4 * i + 3)%nat = Some None.
Proof.
  assert (H : loadImage two_pixels = Ok (Some two_pixels_rgba))
    by (vm_compute; reflexivity).
  split; [exact H|].
  destruct (loadImage_rgb two_pixels two_pixels_rgba eq_refl H) as (_ & Hlen & Hpx).
  split; [exact Hlen|exact Hpx].
Defined.

Lemma loadPrimitive_indices_in_range_witness :
  loadPrimitive two_primitives_gltf 0 quad_primitive after_triangle
  = Ok (Continue after_quad)
  /\ length (vertexBuffer after_triangle) = 3%nat
  /\ length (vertexBuffer after_quad) = 7%nat
  /\ Forall (fun g => 3 <= g < 7) (drop 3 (indexBuffer after_quad)).
Proof.
  assert (H : loadPrimitive two_primitives_gltf 0 quad_primitive after_triangle
              = Ok (Continue after_quad)) by (vm_compute; reflexivity).
  split; [exact H|]. split; [reflexivity|]. split; [reflexivity|].
  destruct (loadPrimitive_indices_in_range two_primitives_gltf 0 quad_primitive
              after_triangle after_quad 2
              (float_accessor tinygltf.TYPE_VEC3 4
                 (floats_Z [0; 0; 1; 1; 0; 1; 1; 1; 1; 0; 1; 1]))
              (index_accessor tinygltf.PARAMETER_TYPE_UNSIGNED_SHORT
                 [0; 1; 2; 2; 3; 0]) 16) as [_ Hidx].
  - vm_compute. reflexivity.
  - reflexivity.
  - reflexivity.
  - reflexivity.
  - exact H.
  - vm_compute. reflexivity.
  - vm_compute. repeat constructor.
  - exact Hidx.
Defined.

Lemma loadSampler_decode_witness :
  loadSampler wrap_gltf
    {| tinygltf.name := "wrap"; tinygltf.channels := [];
       tinygltf.samplers := [ {| tinygltf.input := 0; tinygltf.output := 1;
                                 tinygltf.interpolation := "LINEAR" |} ] |}
    0 (wrap_animation_fresh, [])
  = Ok wrap_animation_sampled
  /\ exists s,
       samplers wrap_animation_sampled.1 !! O = Some s
       /\ inputs s = [F32.of_Z 0; F32.of_Z 1]
       /\ start wrap_animation_sampled.1
          = fold_left running_min (inputs s) F32.numeric_limits_max
       /\ end_ wrap_animation_sampled.1
          = fold_left running_max (inputs s) F32.numeric_limits_min.
Proof.
  assert (H : loadSampler wrap_gltf
                {| tinygltf.name := "wrap"; tinygltf.channels := [];
                   tinygltf.samplers :=
                     [ {| tinygltf.input := 0; tinygltf.output := 1;
                          tinygltf.interpolation := "LINEAR" |} ] |}
                0 (wrap_animation_fresh, [])
              = Ok (wrap_animation_sampled.1, wrap_animation_sampled.2))
    by (vm_compute; reflexivity).
  split; [exact H|].
  destruct (loadSampler_decode wrap_gltf
              {| tinygltf.name := "wrap"; tinygltf.channels := [];
                 tinygltf.samplers :=
                   [ {| tinygltf.input := 0; tinygltf.output := 1;
                        tinygltf.interpolation := "LINEAR" |} ] |}
              0 wrap_animation_fresh [] wrap_animation_sampled.1
              wrap_animation_sampled.2
              {| tinygltf.input := 0; tinygltf.output := 1;
                 tinygltf.interpolation := "LINEAR" |}
              AnimationSampler_default eq_refl eq_refl H)
    as (s & ain & aout & Hs & Hin & _ & _ & Hins & _ & Hstart & Hend).
  exists s. split; [exact Hs|].
  injection Hin as <-. split; [exact Hins|]. split; [exact Hstart|exact Hend].
Defined.

Lemma loadglTFFile_scene_graph_witness :
  loadglTFFile 2 scene_gltf = Ok scene_state
  /\ linked (heap (model scene_state))
  /\ roots_free (model scene_state)
  /\ parent_lt (heap (model scene_state)).
Proof.
  assert (H1 : loadglTFFile 2 scene_gltf = Ok scene_state)
    by (vm_compute; reflexivity).
  split; [exact H1|].
  exact (loadglTFFile_scene_graph 2 scene_gltf scene_state H1).
Defined.

Lemma loadglTFFile_mesh_nodes_witness :
  loadglTFFile 2 scene_gltf = Ok scene_state
  /\ linearMeshNodes (model scene_state) = [1%nat]
  /\ NoDup (linearMeshNodes (model scene_state))
  /\ unmapped (heap (model scene_state))
  /\ updateMeshUniformBuffers 2 (heap (model scene_state))
       (linearMeshNodes (model scene_state))
     = Ok (heap (model scene_state)).
Proof.
  assert (H1 : loadglTFFile 2 scene_gltf = Ok scene_state)
    by (vm_compute; reflexivity).
  split; [exact H1|]. split; [reflexivity|].
  destruct (loadglTFFile_mesh_nodes 2 scene_gltf scene_state 2 H1)
    as (Hnd & _ & Hu & Hupd).
  split; [exact Hnd|]. split; [exact Hu|exact Hupd].
Defined.

Lemma loadglTFFile_lookups_total_witness :
  (exists anc,
     ancestors chain_heap (Some 1%nat) anc
     /\ getNodeMatrix 2 chain_heap 2 = Ok (worldMatrix (reverse anc) chain_grandchild))
  /\ exists forest,
       Forall2 (shape chain_heap) [O] forest
       /\ forall i fuel', (forest_depth forest <= fuel')%nat ->
            nodeFromIndex fuel' {| heap := chain_heap; nodes := [O]; animations := [];
                                   linearMeshNodes := []; activeAnimation := 0;
                                   console := [] |} i
            = Ok (first_with_index i (forest_nodes forest)).
Proof.
  destruct (loadglTFFile_lookups_total 3 chain_gltf
              {| model := {| heap := chain_heap; nodes := [O]; animations := [];
                             linearMeshNodes := []; activeAnimation := 0;
                             console := [] |};
                 indexBuffer := []; vertexBuffer := [] |})
    as [Hmat Hfind]; [vm_compute; reflexivity|].
  split; [|exact Hfind].
  apply (Hmat 2%nat chain_grandchild 2%nat); [reflexivity|lia].
Defined.

Lemma loadNode_grows_witness :
  loadNode 2 scene_gltf (translated [1; 0; 0] [1] (-1)) None 0 scene_state
  = Ok scene_state_again
  /\ indexBuffer scene_state = [0; 1; 2; 3; 4; 5; 5; 6; 3]
  /\ grows scene_state scene_state_again.
Proof.
  assert (H : loadNode 2 scene_gltf (translated [1; 0; 0] [1] (-1)) None 0
                scene_state = Ok scene_state_again) by (vm_compute; reflexivity).
  split; [exact H|]. split; [reflexivity|].
  exact (loadNode_grows scene_gltf 2 _ _ _ _ _ H).
Defined.

Lemma updateAnimation_out_of_range_witness :
  updateAnimation no_acos no_sin 0 (F32.of_Z 1) unselected_model
  = Ok (say (NoAnimationWithIndex 5) unselected_model).
Proof.
  apply (updateAnimation_out_of_range no_acos no_sin 0 (F32.of_Z 1)
           unselected_model).
  - simpl. lia.
  - simpl. lia.
  - simpl. lia.
Defined.

Lemma updateAnimation_no_segment_witness :
  exists m',
    updateAnimation no_acos no_sin 0 (F32.of_Z2 (-1) (-1)) wrap_model = Ok m'
    /\ same_trs (heap wrap_model) (heap m').
Proof.
  assert (H : exists m',
    updateAnimation no_acos no_sin 0 (F32.of_Z2 (-1) (-1)) wrap_model = Ok m')
    by (eexists; vm_compute; reflexivity).
  destruct H as [m' H]. exists m'. split; [exact H|].
  apply (updateAnimation_no_segment no_acos no_sin 0 (F32.of_Z2 (-1) (-1))
           wrap_model m' wrap_animation); [vm_compute; reflexivity|reflexivity| |exact H].
  intros channel Hin. apply list_elem_of_singleton in Hin. subst channel.
  exists {| interpolation := "LINEAR"; inputs := [F32.of_Z 0; F32.of_Z 1];
            outputsVec4 := [vec4_Z 0 0 0 0; vec4_Z 2 4 6 0] |}.
  split; [reflexivity|]. split; [discriminate|]. split; [vm_compute; reflexivity|].
  intros i t0 t1 H0 H1.
  destruct i as [|[|i]]; simpl in H0, H1; [|discriminate|discriminate].
  injection H0 as <-. injection H1 as <-. vm_compute. reflexivity.
Defined.

Lemma deleteModel_loaded_witness :
  model <$> (match loadglTFFile 1 degraded_gltf with
             | Ok st => Some st
             | _ => None
             end) = Some degraded_model
  /\ length (heap degraded_model) = 3%nat
  /\ deleteModel 1 degraded_model = Ok [1%nat; 2%nat]
  /\ exists forest,
       Forall2 (shape (heap degraded_model)) (nodes degraded_model) forest
       /\ NoDup (forest_addresses forest)
       /\ forall fuel', (forest_depth forest <= fuel')%nat ->
            deleteModel fuel' degraded_model = Ok (forest_addresses forest).
Proof.
  split; [vm_compute; reflexivity|]. split; [reflexivity|].
  split; [vm_compute; reflexivity|].
  destruct (loadglTFFile 1 degraded_gltf) as [st| |] eqn:E.
  - assert (Em : model st = degraded_model).
    { assert (H : model <$> (match loadglTFFile 1 degraded_gltf with
                             | Ok st => Some st
                             | _ => None
                             end) = Some degraded_model)
        by (vm_compute; reflexivity).
      rewrite E in H. by injection H. }
    destruct (deleteModel_loaded 1 degraded_gltf st E)
      as (forest & Hshape & Hnd & Hdel).
    rewrite Em in Hshape, Hdel. by exists forest.
  - exfalso. revert E. vm_compute. discriminate.
  - exfalso. revert E. vm_compute. discriminate.
Defined.

Lemma updateAnimation_defined_witness :
  exists m', updateAnimation no_acos no_sin 1 (F32.of_Z2 3 (-1)) wrap_model = Ok m'.
Proof.
  apply (updateAnimation_defined no_acos no_sin 1 (F32.of_Z2 3 (-1)) wrap_model
           wrap_animation).
  - vm_compute. reflexivity.
  - reflexivity.
  - intros channel Hin. apply list_elem_of_singleton in Hin. subst channel.
    exists {| interpolation := "LINEAR"; inputs := [F32.of_Z 0; F32.of_Z 1];
              outputsVec4 := [vec4_Z 0 0 0 0; vec4_Z 2 4 6 0] |}, O.
    split; [reflexivity|]. split; [discriminate|].
    split; [vm_compute; reflexivity|]. split; [simpl; lia|].
    split; [reflexivity|simpl; lia].
  - intros a n q Ha Hq. destruct a as [|a]; [|discriminate].
    injection Ha as <-. discriminate.
  - intros p Hp. by apply elem_of_nil in Hp.
  - simpl. lia.
Defined.

Lemma newNode_identity_witness :
  exists n,
    newNode (translated [1; 2] [] (-1)) None 7 = Ok n
    /\ parent n = None /\ index n = 7
    /\ getLocalMatrix n = mat4_s F32.one.
Proof.
  apply (newNode_identity (translated [1; 2] [] (-1)) None 7); discriminate.
Defined.
